(** * Verification of the [line/validation] engine

    A shallow embedding of the property-path codec, the violation list and
    the argument combinators of the Go package [validation], with the
    properties of its specification stated and proved over the embedding.

    Conventions of the embedding.
    - A Go [string] that is valid UTF-8 is identified with the sequence of
      its code points ([gostring]); [range] over a string yields exactly
      these, and [strings.Builder.WriteRune] appends one of them.  Byte
      offsets are recovered with [utf8_RuneLen].
    - Go's [int] is the 64-bit one ([IntSize]).
    - Pointers to mutable structures ([*ViolationListError] and its nodes)
      are locations of an explicit store; immutable chains ([*PropertyPath])
      are an inductive type with a constructor for the nil pointer. *)

From Stdlib Require Import ZArith List Lia Bool String Ascii.
From stdpp Require Import base option list gmap.
Import ListNotations.

Local Open Scope Z_scope.
Local Set Warnings "-register-all".

(** ** Runes and strings *)

Definition rune := Z.
Definition gostring := list rune.

Definition chr (a : ascii) : rune := Z.of_N (N_of_ascii a).

Fixpoint runes (s : string) : gostring :=
  match s with
  | EmptyString => []
  | String a s' => chr a :: runes s'
  end.

(** [utf8.RuneLen] for a valid code point: the width of its encoding. *)
Definition utf8_RuneLen (r : rune) : Z :=
  if r <? 128 then 1
  else if r <? 2048 then 2
  else if r <? 65536 then 3
  else 4.

(** ** Package [unicode] of the Go standard library

    [IsLetter] and [IsDigit] answer from a fixed table for Latin-1 and from
    the Unicode range tables above it.  The Latin-1 part is written out; the
    range tables ([isExcludingLatin(Letter, r)], [isExcludingLatin(Digit, r)])
    are the two fields of [UnicodeTables]. *)

Class UnicodeTables := {
  letterExcludingLatin : rune -> bool;
  digitExcludingLatin : rune -> bool
}.

Definition MaxLatin1 : rune := 255.

Definition between (lo hi r : rune) : bool := (lo <=? r) && (r <=? hi).

(** [properties[uint8(r)] & pLmask != 0] *)
Definition latin1Letter (r : rune) : bool :=
  between 65 90 r || between 97 122 r
  || (r =? 170) || (r =? 181) || (r =? 186)
  || between 192 214 r || between 216 246 r || between 248 255 r.

Definition IsLetter `{UnicodeTables} (r : rune) : bool :=
  if between 0 MaxLatin1 r then latin1Letter r else letterExcludingLatin r.

Definition IsDigit `{UnicodeTables} (r : rune) : bool :=
  if r <=? MaxLatin1 then between 48 57 r else digitExcludingLatin r.

(** ** Package [strconv] of the Go standard library *)

Definition IntSize : Z := 64.
Definition MaxInt : Z := 2 ^ (IntSize - 1) - 1.
Definition maxUint64 : Z := 2 ^ 64 - 1.

Inductive NumError := ErrSyntax | ErrRange.

(** The loop of [ParseUint(s, 10, bitSize)]: [n] is a [uint64], so the sum
    [n*10 + d] wraps around modulo [2^64]. *)
Fixpoint parseUintLoop (maxVal : Z) (s : gostring) (n : Z) : Z + NumError :=
  match s with
  | [] => inl n
  | c :: s' =>
      if between 48 57 c then
        let d := c - 48 in
        if maxUint64 / 10 + 1 <=? n then inr ErrRange
        else
          let n10 := n * 10 in
          let n1 := (n10 + d) mod 2 ^ 64 in
          if (n1 <? n10) || (maxVal <? n1) then inr ErrRange
          else parseUintLoop maxVal s' n1
      else inr ErrSyntax
  end.

(** [strconv.ParseUint(s, 10, 0)] *)
Definition ParseUint (s : gostring) : Z + NumError :=
  match s with
  | [] => inr ErrSyntax
  | _ => parseUintLoop (2 ^ IntSize - 1) s 0
  end.

(** Decimal digits of a non-negative number, most significant first. *)
Fixpoint formatBits (fuel : nat) (u : Z) (acc : gostring) : gostring :=
  match fuel with
  | O => acc
  | S fuel' =>
      if u <? 10 then (48 + u) :: acc
      else formatBits fuel' (u / 10) ((48 + u mod 10) :: acc)
  end.

(** [strconv.Itoa]; twenty digits are enough for any 64-bit value. *)
Definition Itoa (i : Z) : gostring :=
  if i <? 0 then 45 :: formatBits 20 (- i) [] else formatBits 20 i [].

(** ** Property paths *)

Inductive PropertyPathElement :=
| PropertyName (name : gostring)
| ArrayIndex (i : Z).

Definition IsIndex (e : PropertyPathElement) : bool :=
  match e with
  | PropertyName _ => false
  | ArrayIndex _ => true
  end.

Definition Element_String (e : PropertyPathElement) : gostring :=
  match e with
  | PropertyName p => p
  | ArrayIndex a => Itoa a
  end.

(** [*PropertyPath]: [nilPath] is the nil pointer; the [value] of a node is
    an interface and may be nil ([None]). *)
Inductive PropertyPath :=
| nilPath
| mkPath (parent : PropertyPath) (value : option PropertyPathElement).

Definition With (path : PropertyPath) (elements : list PropertyPathElement)
  : PropertyPath :=
  fold_left (fun current element => mkPath current (Some element)) elements path.

Definition NewPropertyPath (elements : list PropertyPathElement) : PropertyPath :=
  With nilPath elements.

Definition WithProperty (path : PropertyPath) (name : gostring) : PropertyPath :=
  mkPath path (Some (PropertyName name)).

Definition WithIndex (path : PropertyPath) (index : Z) : PropertyPath :=
  mkPath path (Some (ArrayIndex index)).

Fixpoint PropertyPath_Len (path : PropertyPath) : nat :=
  match path with
  | nilPath => O
  | mkPath parent _ => S (PropertyPath_Len parent)
  end.

(** The loop of [Elements]: it fills the slice from the leaf back to the
    root, so the values come out in root-to-leaf order. *)
Fixpoint chainValues (path : PropertyPath) : list (option PropertyPathElement) :=
  match path with
  | nilPath => []
  | mkPath parent v => chainValues parent ++ [v]
  end.

Definition Elements (path : PropertyPath) : list (option PropertyPathElement) :=
  match path with
  | nilPath => []
  | mkPath _ None => []
  | mkPath _ (Some _) => chainValues path
  end.

Section Identifiers.
Context `{UnicodeTables}.

Definition isFirstIdentifierChar (c : rune) : bool :=
  IsLetter c || (c =? chr "$") || (c =? chr "_").

Definition isIdentifierChar (c : rune) : bool :=
  IsLetter c || IsDigit c || (c =? chr "$") || (c =? chr "_").

Definition isIdentifier (s : gostring) : bool :=
  match s with
  | [] => false
  | c :: s' => isFirstIdentifierChar c && forallb isIdentifierChar s'
  end.

End Identifiers.

Fixpoint writePropertyName (s : gostring) (name : gostring) : gostring :=
  match name with
  | [] => s
  | c :: name' =>
      let s := if (c =? chr "'") || (c =? chr "\") then s ++ [chr "\"] else s in
      writePropertyName (s ++ [c]) name'
  end.

Section Rendering.
Context `{UnicodeTables}.

(** One turn of the loop of [PropertyPath.String]: [s] is the builder,
    [i] the position of [element]. *)
Definition writeElement (s : gostring) (i : nat) (element : PropertyPathElement)
  : gostring :=
  let name := Element_String element in
  if IsIndex element then s ++ (chr "[" :: name) ++ [chr "]"]
  else if isIdentifier name then
    (if (0 <? i)%nat then s ++ [chr "."] else s) ++ name
  else writePropertyName (s ++ runes "['") name ++ runes "']".

(** Calling [String] on a nil element panics: [None]. *)
Fixpoint writeElements (s : gostring) (i : nat)
  (elements : list (option PropertyPathElement)) : option gostring :=
  match elements with
  | [] => Some s
  | None :: _ => None
  | Some element :: rest => writeElements (writeElement s i element) (S i) rest
  end.

Definition PropertyPath_String (path : PropertyPath) : option gostring :=
  writeElements [] 0 (Elements path).

End Rendering.

(** ** The path parser *)

Inductive parsingState :=
| initialState
| beginIdentifierState
| identifierState
| beginIndexState
| indexState
| bracketedNameState
| endBracketedNameState
| closeBracketState.

Record pathParser := mkParser {
  path : PropertyPath;
  buffer : gostring;
  index : Z;
  pathIndex : Z;
  state : parsingState;
  isEscape : bool
}.

(** [pathParser{}] *)
Definition zeroParser : pathParser :=
  mkParser nilPath [] 0 0 initialState false.

Inductive pathError :=
| pathParsingError (message : gostring) (pathIndex : Z)
| pathParsingCharError (message : gostring) (index pathIndex : Z) (char : rune)
| pathParsingProcessingError (message : gostring) (pathIndex : Z).

(** The segment number an error reports ([#%d] of its text). *)
Definition errorPathIndex (e : pathError) : Z :=
  match e with
  | pathParsingError _ i => i
  | pathParsingCharError _ _ i _ => i
  | pathParsingProcessingError _ i => i
  end.

(** A handler either leaves an updated parser or returns an error. *)
Inductive result (A : Type) :=
| Ok (a : A)
| Err (e : pathError).
Arguments Ok {A} a.
Arguments Err {A} e.

Definition setState (parser : pathParser) (st : parsingState) : pathParser :=
  mkParser (path parser) (buffer parser) (index parser) (pathIndex parser)
    st (isEscape parser).

Definition setIndex (parser : pathParser) (i : Z) : pathParser :=
  mkParser (path parser) (buffer parser) i (pathIndex parser)
    (state parser) (isEscape parser).

Definition setEscape (parser : pathParser) (b : bool) : pathParser :=
  mkParser (path parser) (buffer parser) (index parser) (pathIndex parser)
    (state parser) b.

(** [parser.buffer.WriteRune(c)] *)
Definition writeRune (parser : pathParser) (c : rune) : pathParser :=
  mkParser (path parser) (buffer parser ++ [c]) (index parser)
    (pathIndex parser) (state parser) (isEscape parser).

Definition newError (parser : pathParser) (message : string) : pathError :=
  pathParsingError (runes message) (pathIndex parser).

Definition newCharError (parser : pathParser) (char : rune) (message : string)
  : pathError :=
  pathParsingCharError (runes message) (index parser) (pathIndex parser) char.

Definition newProcessingError (parser : pathParser) (message : gostring)
  : pathError :=
  pathParsingProcessingError message (pathIndex parser).

Definition addProperty (parser : pathParser) : pathParser :=
  mkParser (WithProperty (path parser) (buffer parser)) []
    (index parser) (pathIndex parser + 1) (state parser) (isEscape parser).

Definition addIndex (parser : pathParser) : result pathParser :=
  let s := buffer parser in
  match ParseUint s with
  | inr ErrRange =>
      Err (newProcessingError parser (runes "value out of range: " ++ s))
  | inr ErrSyntax =>
      Err (newProcessingError parser (runes "invalid array index: " ++ s))
  | inl u =>
      if MaxInt <? u then
        Err (newProcessingError parser (runes "value out of range: " ++ s))
      else
        Ok (mkParser (WithIndex (path parser) u) []
              (index parser) (pathIndex parser + 1) (state parser)
              (isEscape parser))
  end.

Definition handleOpenBracket (parser : pathParser) (c : rune) : result pathParser :=
  match state parser with
  | beginIdentifierState | beginIndexState | indexState | endBracketedNameState =>
      Err (newCharError parser c "unexpected char")
  | identifierState =>
      let parser :=
        if (0 <? length (buffer parser))%nat then addProperty parser else parser in
      Ok (setState parser beginIndexState)
  | initialState | closeBracketState => Ok (setState parser beginIndexState)
  | bracketedNameState => Ok (writeRune parser c)
  end.

Definition handleCloseBracket (parser : pathParser) (c : rune) : result pathParser :=
  match state parser with
  | indexState =>
      match addIndex parser with
      | Err e => Err e
      | Ok parser => Ok (setState parser closeBracketState)
      end
  | bracketedNameState => Ok (writeRune parser c)
  | endBracketedNameState => Ok (setState (addProperty parser) closeBracketState)
  | _ => Err (newCharError parser c "unexpected close bracket")
  end.

Definition handleDigit (parser : pathParser) (c : rune) : result pathParser :=
  match state parser with
  | beginIndexState | indexState => Ok (writeRune (setState parser indexState) c)
  | bracketedNameState | identifierState => Ok (writeRune parser c)
  | initialState | beginIdentifierState =>
      Err (newCharError parser c "unexpected identifier character")
  | _ => Err (newCharError parser c "invalid array index")
  end.

Definition handlePoint (parser : pathParser) (c : rune) : result pathParser :=
  match state parser with
  | beginIdentifierState | identifierState =>
      if (length (buffer parser) =? 0)%nat then
        Err (newCharError parser c "unexpected point")
      else Ok (setState (addProperty parser) beginIdentifierState)
  | bracketedNameState => Ok (writeRune parser c)
  | closeBracketState => Ok (setState parser beginIdentifierState)
  | _ => Err (newCharError parser c "unexpected point")
  end.

Definition handleQuote (parser : pathParser) (c : rune) : result pathParser :=
  if isEscape parser then Ok (setEscape (writeRune parser c) false)
  else
    match state parser with
    | beginIndexState => Ok (setState parser bracketedNameState)
    | bracketedNameState => Ok (setState parser endBracketedNameState)
    | _ => Err (newCharError parser c "unexpected quote")
    end.

Definition handleEscape (parser : pathParser) (c : rune) : result pathParser :=
  match state parser with
  | bracketedNameState =>
      if isEscape parser then Ok (setEscape (writeRune parser c) false)
      else Ok (setEscape parser true)
  | _ => Err (newCharError parser c "unexpected backslash")
  end.

Section Parser.
Context `{UnicodeTables}.

Definition handleOther (parser : pathParser) (c : rune) : result pathParser :=
  match state parser with
  | beginIndexState | indexState =>
      Err (newCharError parser c "unexpected array index character")
  | initialState | beginIdentifierState | identifierState =>
      if negb (isFirstIdentifierChar c) then
        Err (newCharError parser c "unexpected identifier char")
      else Ok (writeRune (setState parser identifierState) c)
  | closeBracketState | endBracketedNameState =>
      Err (newCharError parser c "unexpected char")
  | bracketedNameState => Ok (writeRune parser c)
  end.

Definition handleNext (parser : pathParser) (c : rune) : result pathParser :=
  if c =? chr "[" then handleOpenBracket parser c
  else if c =? chr "]" then handleCloseBracket parser c
  else if between (chr "0") (chr "9") c then handleDigit parser c
  else if c =? chr "'" then handleQuote parser c
  else if c =? chr "\" then handleEscape parser c
  else if c =? chr "." then handlePoint parser c
  else handleOther parser c.

Definition finish (parser : pathParser) : result PropertyPath :=
  match state parser with
  | beginIdentifierState | identifierState =>
      if (length (buffer parser) =? 0)%nat then
        Err (newError parser "incomplete property name")
      else Ok (WithProperty (path parser) (buffer parser))
  | beginIndexState | indexState =>
      Err (newError parser "incomplete array index")
  | bracketedNameState | endBracketedNameState =>
      Err (newError parser "incomplete bracketed property name")
  | closeBracketState => Ok (path parser)
  | initialState => Err (newError parser "unexpected parsing state")
  end.

(** The loop of [Parse]: [i] is the byte offset of the next rune. *)
Fixpoint parseLoop (parser : pathParser) (i : Z) (encodedPath : gostring)
  : result pathParser :=
  match encodedPath with
  | [] => Ok parser
  | c :: rest =>
      match handleNext (setIndex parser i) c with
      | Err e => Err e
      | Ok parser => parseLoop parser (i + utf8_RuneLen c) rest
      end
  end.

Definition Parse (parser : pathParser) (encodedPath : gostring)
  : result PropertyPath :=
  match encodedPath with
  | [] => Ok (mkPath nilPath None)
  | _ =>
      match parseLoop parser 0 encodedPath with
      | Err e => Err e
      | Ok parser => finish parser
      end
  end.

(** Parsing a text with a fresh parser, as [UnmarshalText] does. *)
Definition parsePath (text : gostring) : result PropertyPath :=
  Parse zeroParser text.

End Parser.

(** ** Text marshalling *)

Section Marshalling.
Context `{UnicodeTables}.

(** [MarshalText]: the bytes of [String]; its error is always nil. *)
Definition MarshalText (path : PropertyPath) : option gostring :=
  PropertyPath_String path.

(** [UnmarshalText]: the contents of the receiver afterwards and the error
    returned; [None] is the panic of [*path = *p] on a nil receiver. *)
Definition UnmarshalText (path : PropertyPath) (text : gostring)
  : option (PropertyPath * option pathError) :=
  match Parse zeroParser text with
  | Err err => Some (path, Some err)
  | Ok nilPath => Some (path, None)
  | Ok p =>
      match path with
      | nilPath => None
      | mkPath _ _ => Some (p, None)
      end
  end.

End Marshalling.

(** ** The store

    [*ViolationListError] and [*ViolationListElementError] are pointers to
    structures that [Append] and [Join] update in place, and two lists may
    share nodes after a [Join].  Both kinds of object live in a store,
    indexed by location; a nil pointer is [None].  The store is unbounded,
    and so is the [len] counter of a list, which counts nodes of the store. *)

Definition loc := positive.

Record ViolationListError := mkList {
  first : option loc;
  last : option loc;
  len : Z
}.

Record ViolationListElementError (Violation : Type) := mkElement {
  next : option loc;
  violation : Violation
}.
Arguments mkElement {Violation} next violation.
Arguments next {Violation} _.
Arguments violation {Violation} _.

(** ** Errors

    The dynamic types an [error] value can have, as far as [errors.As] tells
    them apart: a value without [Unwrap], a value with [Unwrap() error], a
    value with [Unwrap() []error], a value that implements [Violation]
    (whose [Unwrap] result is kept beside it), and a [*ViolationListError].
    A nil [error] is [None : option error]. *)

Inductive error (Violation : Type) :=
| PlainError (id : N)
| WrapError (id : N) (inner : option (error Violation))
| JoinError (id : N) (inners : list (option (error Violation)))
| ViolationError (v : Violation) (inner : option (error Violation))
| ListError (l : option loc).
Arguments PlainError {Violation} id.
Arguments WrapError {Violation} id inner.
Arguments JoinError {Violation} id inners.
Arguments ViolationError {Violation} v inner.
Arguments ListError {Violation} l.

Section Errors.
Context {Violation : Type}.

(** [errors.As(err, &violation)] with [violation] of interface type
    [Violation]: the first value of the chain (depth-first through
    [Unwrap() []error]) that implements [Violation]. *)
Fixpoint asViolation (err : error Violation) : option Violation :=
  match err with
  | PlainError _ => None
  | WrapError _ None => None
  | WrapError _ (Some inner) => asViolation inner
  | JoinError _ inners =>
      (fix each (errs : list (option (error Violation))) : option Violation :=
         match errs with
         | [] => None
         | None :: rest => each rest
         | Some e :: rest =>
             match asViolation e with
             | Some v => Some v
             | None => each rest
             end
         end) inners
  | ViolationError v _ => Some v
  | ListError _ => None
  end.

(** [errors.As(err, &violations)] with [violations] of type
    [*ViolationListError]. *)
Fixpoint asViolationList (err : error Violation) : option (option loc) :=
  match err with
  | PlainError _ => None
  | WrapError _ None => None
  | WrapError _ (Some inner) => asViolationList inner
  | JoinError _ inners =>
      (fix each (errs : list (option (error Violation))) : option (option loc) :=
         match errs with
         | [] => None
         | None :: rest => each rest
         | Some e :: rest =>
             match asViolationList e with
             | Some l => Some l
             | None => each rest
             end
         end) inners
  | ViolationError _ None => None
  | ViolationError _ (Some inner) => asViolationList inner
  | ListError l => Some l
  end.

(** [UnwrapViolation]: [Some v] stands for [(v, true)]. *)
Definition UnwrapViolation (err : option (error Violation)) : option Violation :=
  match err with
  | None => None
  | Some e => asViolation e
  end.

(** [UnwrapViolationList]: [Some l] stands for [(l, true)]; the pointer [l]
    itself may be nil. *)
Definition UnwrapViolationList (err : option (error Violation))
  : option (option loc) :=
  match err with
  | None => None
  | Some e => asViolationList e
  end.

Definition IsViolation (err : option (error Violation)) : bool :=
  bool_decide (is_Some (UnwrapViolation err)).

Definition IsViolationList (err : option (error Violation)) : bool :=
  bool_decide (is_Some (UnwrapViolationList err)).

End Errors.

(** The one method of the [Violation] interface the list consults. *)
Class ViolationMethods (Violation : Type) := {
  Violation_Is : Violation -> option (error Violation) -> bool
}.

(** ** Stateful computations

    A computation runs in a state made of the store and of whatever the
    caller's closures keep ([user]); it returns a value and a new state,
    panics (a nil dereference, an index out of range), or gives up for want
    of fuel in a loop that follows [next] pointers. *)

Section Model.
Context {Violation : Type} {U : Type}.

Record State := mkState {
  lists : gmap loc ViolationListError;
  elements : gmap loc (ViolationListElementError Violation);
  user : U
}.

Inductive outcome (A : Type) :=
| Return (a : A) (s : State)
| Panic
| OutOfFuel.
Arguments Return {A} a s.
Arguments Panic {A}.
Arguments OutOfFuel {A}.

Definition M (A : Type) := State -> outcome A.

Definition ret {A} (a : A) : M A := fun s => Return a s.

Definition bind {A B} (m : M A) (k : A -> M B) : M B :=
  fun s =>
    match m s with
    | Return a s' => k a s'
    | Panic => Panic
    | OutOfFuel => OutOfFuel
    end.

Definition panic {A} : M A := fun _ => Panic.

Notation "'do' x <- m ; k" := (bind m (fun x => k))
  (at level 10, x name, m at level 100, k at level 200).
Notation "m ;; k" := (bind m (fun _ => k))
  (at level 100, k at level 200, right associativity).

(** [&ViolationListError{...}] *)
Definition newList (l : ViolationListError) : M loc :=
  fun s =>
    let p := fresh (dom (lists s)) in
    Return p (mkState (<[p := l]> (lists s)) (elements s) (user s)).

(** [&ViolationListElementError{...}] *)
Definition newElement (e : ViolationListElementError Violation) : M loc :=
  fun s =>
    let p := fresh (dom (elements s)) in
    Return p (mkState (lists s) (<[p := e]> (elements s)) (user s)).

(** Reading through a pointer; nil panics. *)
Definition loadList (list : option loc) : M ViolationListError :=
  fun s =>
    match list with
    | None => Panic
    | Some p =>
        match lists s !! p with
        | Some l => Return l s
        | None => Panic
        end
    end.

Definition storeList (list : option loc) (l : ViolationListError) : M unit :=
  fun s =>
    match list with
    | None => Panic
    | Some p =>
        match lists s !! p with
        | Some _ => Return tt (mkState (<[p := l]> (lists s)) (elements s) (user s))
        | None => Panic
        end
    end.

Definition loadElement (element : option loc)
  : M (ViolationListElementError Violation) :=
  fun s =>
    match element with
    | None => Panic
    | Some p =>
        match elements s !! p with
        | Some e => Return e s
        | None => Panic
        end
    end.

Definition storeElement (element : option loc)
  (e : ViolationListElementError Violation) : M unit :=
  fun s =>
    match element with
    | None => Panic
    | Some p =>
        match elements s !! p with
        | Some _ => Return tt (mkState (lists s) (<[p := e]> (elements s)) (user s))
        | None => Panic
        end
    end.

(** ** [ViolationListError] *)

Definition Len (lst : option loc) : M Z :=
  match lst with
  | None => ret 0
  | Some _ => do l <- loadList lst; ret (len l)
  end.

(** One turn of the loop of [Append]. *)
Definition appendOne (lst : option loc) (v : Violation) : M unit :=
  do element <- newElement (mkElement None v);
  do l <- loadList lst;
  match first l with
  | None => storeList lst (mkList (Some element) (Some element) (len l))
  | Some _ =>
      do lastElement <- loadElement (last l);
      storeElement (last l) (mkElement (Some element) (violation lastElement));;
      storeList lst (mkList (first l) (Some element) (len l))
  end.

Fixpoint appendEach (lst : option loc) (violations : list Violation) : M unit :=
  match violations with
  | [] => ret tt
  | v :: rest => appendOne lst v;; appendEach lst rest
  end.

Definition Append (lst : option loc) (violations : list Violation) : M unit :=
  appendEach lst violations;;
  do l <- loadList lst;
  storeList lst (mkList (first l) (last l) (len l + Z.of_nat (length violations))).

Definition NewViolationList (violations : list Violation) : M (option loc) :=
  do lst <- newList (mkList None None 0);
  Append (Some lst) violations;;
  ret (Some lst).

Definition Join (lst : option loc) (violations : option loc) : M unit :=
  match violations with
  | None => ret tt
  | Some _ =>
      do vs <- loadList violations;
      if len vs =? 0 then ret tt
      else
        do l <- loadList lst;
        match first l with
        | None => storeList lst (mkList (first vs) (last vs) (len l + len vs))
        | Some _ =>
            do lastElement <- loadElement (last l);
            storeElement (last l) (mkElement (first vs) (violation lastElement));;
            storeList lst (mkList (first l) (last vs) (len l + len vs))
        end
  end.

(** The loop of [ForEach], from element [e] at position [i]; [e.next] is
    read once the callback has returned. *)
Fixpoint forEachFrom (fuel : nat) (f : Z -> Violation -> M (option (error Violation)))
  (e : option loc) (i : Z) : M (option (error Violation)) :=
  match e with
  | None => ret None
  | Some _ =>
      match fuel with
      | O => fun _ => OutOfFuel
      | S fuel' =>
          do element <- loadElement e;
          do err <- f i (violation element);
          match err with
          | Some err => ret (Some err)
          | None =>
              do element <- loadElement e;
              forEachFrom fuel' f (next element) (i + 1)
          end
      end
  end.

Definition ForEach (fuel : nat) (lst : option loc)
  (f : Z -> Violation -> M (option (error Violation)))
  : M (option (error Violation)) :=
  match lst with
  | None => ret None
  | Some _ => do l <- loadList lst; forEachFrom fuel f (first l) 0
  end.

(** The loop of [AsSlice]: [violations[i] = e.violation] panics when [i] is
    out of range. *)
Fixpoint asSliceFrom (fuel : nat) (e : option loc) (i : nat)
  (violations : list (option Violation)) : M (list (option Violation)) :=
  match e with
  | None => ret violations
  | Some _ =>
      match fuel with
      | O => fun _ => OutOfFuel
      | S fuel' =>
          do element <- loadElement e;
          if (i <? length violations)%nat then
            asSliceFrom fuel' (next element) (S i)
              (<[i := Some (violation element)]> violations)
          else panic
      end
  end.

(** [AsSlice]; a slice of interface values starts out all nil. *)
Definition AsSlice (fuel : nat) (lst : option loc) : M (list (option Violation)) :=
  do l <- loadList lst;
  if len l <? 0 then panic
  else asSliceFrom fuel (first l) 0 (replicate (Z.to_nat (len l)) None).

Definition AsError (lst : option loc) : M (option (error Violation)) :=
  match lst with
  | None => ret None
  | Some _ =>
      do l <- loadList lst;
      if len l =? 0 then ret None else ret (Some (ListError lst))
  end.

Definition AppendFromError (lst : option loc) (err : option (error Violation))
  : M (option (error Violation)) :=
  match err with
  | None => ret None
  | Some _ =>
      match UnwrapViolation err with
      | Some violation => Append lst [violation];; ret None
      | None =>
          match UnwrapViolationList err with
          | Some violationList => Join lst violationList;; ret None
          | None => ret err
          end
      end
  end.

Definition unwrapViolationList (err : option (error Violation))
  : M (option loc * option (error Violation)) :=
  do violations <- NewViolationList [];
  do fatal <- AppendFromError violations err;
  match fatal with
  | Some _ => ret (None, fatal)
  | None => ret (violations, None)
  end.

Section Methods.
Context `{!ViolationMethods Violation}.

(** The inner loop of [Filter], over the kinds. *)
Fixpoint filterKinds (filtered : option loc) (v : Violation)
  (errs : list (option (error Violation))) : M unit :=
  match errs with
  | [] => ret tt
  | err :: rest =>
      (if Violation_Is v err then Append filtered [v] else ret tt);;
      filterKinds filtered v rest
  end.

(** The outer loop of [Filter], over the nodes. *)
Fixpoint filterFrom (fuel : nat) (filtered : option loc) (e : option loc)
  (errs : list (option (error Violation))) : M unit :=
  match e with
  | None => ret tt
  | Some _ =>
      match fuel with
      | O => fun _ => OutOfFuel
      | S fuel' =>
          do element <- loadElement e;
          filterKinds filtered (violation element) errs;;
          do element <- loadElement e;
          filterFrom fuel' filtered (next element) errs
      end
  end.

Definition Filter (fuel : nat) (lst : option loc)
  (errs : list (option (error Violation))) : M (option loc) :=
  do filtered <- newList (mkList None None 0);
  do l <- loadList lst;
  filterFrom fuel (Some filtered) (first l) errs;;
  ret (Some filtered).

(** [ViolationListError.Is] *)
Fixpoint isFrom (fuel : nat) (e : option loc) (target : option (error Violation))
  : M bool :=
  match e with
  | None => ret false
  | Some _ =>
      match fuel with
      | O => fun _ => OutOfFuel
      | S fuel' =>
          do element <- loadElement e;
          if Violation_Is (violation element) target then ret true
          else isFrom fuel' (next element) target
      end
  end.

Definition List_Is (fuel : nat) (lst : option loc)
  (target : option (error Violation)) : M bool :=
  do l <- loadList lst; isFrom fuel (first l) target.

End Methods.

(** The loop of the package function [Filter]. *)
Fixpoint validation_FilterLoop (lst : option loc)
  (violations : list (option (error Violation))) : M (option (error Violation)) :=
  match violations with
  | [] => AsError lst
  | violation :: rest =>
      do err <- AppendFromError lst violation;
      match err with
      | Some _ => ret err
      | None => validation_FilterLoop lst rest
      end
  end.

(** The package function [Filter(violations ...error) error], as distinct
    from the method [ViolationListError.Filter]. *)
Definition validation_Filter (violations : list (option (error Violation)))
  : M (option (error Violation)) :=
  do lst <- newList (mkList None None 0);
  validation_FilterLoop (Some lst) violations.

(** ** The text of a list

    The methods of the [Violation] interface that [Error] and [String] of a
    list call. *)

Section Text.
Context `{!UnicodeTables} (Violation_Error Violation_Message : Violation -> gostring)
  (Violation_PropertyPath : Violation -> PropertyPath).

(** The double quote. *)
Definition quote : rune := 34.

(** The loop of [toString]: [s] is the builder. *)
Fixpoint toStringFrom (fuel : nat) (delimiter : gostring) (e : option loc) (i : Z)
  (s : gostring) : M gostring :=
  match e with
  | None => ret s
  | Some _ =>
      match fuel with
      | O => fun _ => OutOfFuel
      | S fuel' =>
          do element <- loadElement e;
          let v := violation element in
          let s := if 0 <? i then s ++ runes ";" else s in
          let s := s ++ delimiter in
          let s := s ++ (chr "#" :: Itoa i) in
          match Violation_PropertyPath v with
          | nilPath =>
              toStringFrom fuel' delimiter (next element) (i + 1)
                (s ++ (runes ": " ++ [quote]) ++ Violation_Message v ++ [quote])
          | mkPath _ _ =>
              match PropertyPath_String (Violation_PropertyPath v) with
              | None => panic
              | Some text =>
                  let s := s ++ (runes " at " ++ [quote]) ++ text ++ [quote] in
                  toStringFrom fuel' delimiter (next element) (i + 1)
                    (s ++ (runes ": " ++ [quote]) ++ Violation_Message v ++ [quote])
              end
          end
      end
  end.

Definition toString (fuel : nat) (lst : option loc) (delimiter : gostring)
  : M gostring :=
  match lst with
  | None => ret []
  | Some _ =>
      do l <- loadList lst;
      if len l =? 0 then ret []
      else if len l =? 1 then
        do element <- loadElement (first l);
        ret (Violation_Error (violation element))
      else toStringFrom fuel delimiter (first l) 0 (runes "violations:")
  end.

(** [ViolationListError.String] *)
Definition List_String (fuel : nat) (lst : option loc) : M gostring :=
  toString fuel lst (runes " ").

(** [ViolationListError.Error] *)
Definition List_Error (fuel : nat) (lst : option loc) : M gostring :=
  match lst with
  | None =>
      ret (runes "the list of violations is empty, it looks like you forgot to use the AsError method somewhere")
  | Some _ =>
      do l <- loadList lst;
      if len l =? 0 then
        ret (runes "the list of violations is empty, it looks like you forgot to use the AsError method somewhere")
      else List_String fuel lst
  end.

End Text.

(** ** Validator *)

Record TemplateParameter := mkTemplateParameter {
  Key : gostring;
  Value : gostring
}.

(** [ViolationFactory.CreateViolation] *)
Definition ViolationFactory : Type :=
  option (error Violation) -> gostring -> list TemplateParameter -> PropertyPath
  -> Violation.

Record Validator := mkValidator {
  propertyPath : PropertyPath;
  violationFactory : ViolationFactory;
  groups : list gostring
}.

Definition DefaultGroup : gostring := runes "default".

(** [slices.Contains] *)
Definition Contains (s : list gostring) (v : gostring) : bool :=
  existsb (fun x => bool_decide (x = v)) s.

Definition At (validator : Validator) (path : list PropertyPathElement)
  : Validator :=
  mkValidator (With (propertyPath validator) path) (violationFactory validator)
    (groups validator).

Definition WithGroups (validator : Validator) (groups : list gostring) : Validator :=
  mkValidator (propertyPath validator) (violationFactory validator) groups.

(** The loop of [IsAppliedForGroups] over the validator's groups. *)
Fixpoint appliedForAny (validatorGroups groups : list gostring) : bool :=
  match validatorGroups with
  | [] => false
  | g1 :: rest =>
      if (length groups =? 0)%nat && bool_decide (g1 = DefaultGroup) then true
      else if Contains groups g1 then true
      else appliedForAny rest groups
  end.

Definition IsAppliedForGroups (validator : Validator) (groups' : list gostring)
  : bool :=
  if (length (groups validator) =? 0)%nat
     && ((length groups' =? 0)%nat || Contains groups' DefaultGroup)
  then true
  else appliedForAny (groups validator) groups'.

Definition IsIgnoredForGroups (validator : Validator) (groups' : list gostring)
  : bool :=
  negb (IsAppliedForGroups validator groups').

(** ** Arguments and [Validate]

    The [context.Context] every closure receives is only handed on, and is
    left out.  [Argument] is the interface with the unexported [setUp]; its
    implementations are the constructors below ([AsyncArgument], which runs
    goroutines, is modelled apart, by its receive loop). *)

Definition ValidateFunc : Type :=
  Validator -> M (option loc * option (error Violation)).

Inductive Argument :=
| ValidatorArgument (validate : ValidateFunc) (path : list PropertyPathElement)
    (isIgnored : bool)
| Checker (err : option (error Violation)) (messageTemplate : gostring)
    (path : list PropertyPathElement) (groups : list gostring)
    (messageParameters : list TemplateParameter) (isIgnored isValid : bool)
| WhenArgument (path : list PropertyPathElement)
    (thenArguments elseArguments : list Argument) (isTrue : bool)
| WhenGroupsArgument (groups : list gostring) (path : list PropertyPathElement)
    (thenArguments elseArguments : list Argument)
| SequentialArgument (path : list PropertyPathElement)
    (arguments : list Argument) (isIgnored : bool)
| AtLeastOneOfArgument (path : list PropertyPathElement)
    (arguments : list Argument) (isIgnored : bool)
| AllArgument (path : list PropertyPathElement)
    (arguments : list Argument) (isIgnored : bool).

(** Modelled from the spec: the [executionContext] of a [Validate] call and
    its [addValidation], which are not among the sources.  The context is
    the ordered sequence of registered closures; a closure registered with a
    path runs under the validator of the call extended by that path. *)
Definition executionContext : Type := list ValidateFunc.

(** Modelled from the spec: [addValidation] appends the closure, to run
    under the validator of the call extended by [path]. *)
Definition addValidation (ctx : executionContext) (validate : ValidateFunc)
  (path : list PropertyPathElement) : executionContext :=
  ctx ++ [fun validator => validate (At validator path)].

(** [setUp], given the method value [arg.validate]. *)
Definition setUpWith (validate : ValidateFunc) (arg : Argument)
  (ctx : executionContext) : executionContext :=
  match arg with
  | ValidatorArgument _ path isIgnored =>
      if negb isIgnored then addValidation ctx validate path else ctx
  | Checker _ _ path _ _ _ _ => addValidation ctx validate path
  | WhenArgument path _ _ _ => addValidation ctx validate path
  | WhenGroupsArgument _ path _ _ => addValidation ctx validate path
  | SequentialArgument path _ _ => addValidation ctx validate path
  | AtLeastOneOfArgument path _ _ => addValidation ctx validate path
  | AllArgument path _ _ => addValidation ctx validate path
  end.

(** The second loop of [Validate], over the registered closures. *)
Fixpoint runValidations (validator : Validator) (violations : option loc)
  (validations : executionContext) : M (option (error Violation)) :=
  match validations with
  | [] => AsError violations
  | validate :: rest =>
      do r <- validate validator;
      match snd r with
      | Some err => ret (Some err)
      | None => Join violations (fst r);; runValidations validator violations rest
      end
  end.

(** [Validate] once its arguments have set up the context. *)
Definition validateContext (validator : Validator) (execContext : executionContext)
  : M (option (error Violation)) :=
  do violations <- newList (mkList None None 0);
  runValidations validator (Some violations) execContext.

Definition Checker_validate (err : option (error Violation))
  (messageTemplate : gostring) (groups' : list gostring)
  (messageParameters : list TemplateParameter) (isIgnored isValid : bool)
  : ValidateFunc :=
  fun validator =>
    if isValid || isIgnored || IsIgnoredForGroups validator groups' then
      do l <- newList (mkList None None 0); ret (Some l, None)
    else
      let violation :=
        violationFactory validator err messageTemplate messageParameters
          (propertyPath validator) in
      do l <- NewViolationList [violation]; ret (l, None).

(** The loop of [SequentialArgument.validate]; [runs] are the calls
    [validator.Validate(ctx, argument)], one per argument. *)
Fixpoint sequentialLoop (violations : option loc)
  (runs : list (M (option (error Violation))))
  : M (option loc * option (error Violation)) :=
  match runs with
  | [] => ret (violations, None)
  | run :: rest =>
      do e <- run;
      do err <- AppendFromError violations e;
      match err with
      | Some _ => ret (None, err)
      | None =>
          do l <- loadList violations;
          if 0 <? len l then ret (violations, None)
          else sequentialLoop violations rest
      end
  end.

(** The loop of [AtLeastOneOfArgument.validate]. *)
Fixpoint atLeastOneOfLoop (violations : option loc)
  (runs : list (M (option (error Violation))))
  : M (option loc * option (error Violation)) :=
  match runs with
  | [] => ret (violations, None)
  | run :: rest =>
      do violation <- run;
      match violation with
      | None => do l <- newList (mkList None None 0); ret (Some l, None)
      | Some _ =>
          do err <- AppendFromError violations violation;
          match err with
          | Some _ => ret (None, err)
          | None => atLeastOneOfLoop violations rest
          end
      end
  end.

(** The loop of [AllArgument.validate]. *)
Fixpoint allLoop (violations : option loc)
  (runs : list (M (option (error Violation))))
  : M (option loc * option (error Violation)) :=
  match runs with
  | [] => ret (violations, None)
  | run :: rest =>
      do e <- run;
      do err <- AppendFromError violations e;
      match err with
      | Some _ => ret (None, err)
      | None => allLoop violations rest
      end
  end.

(** [AsyncArgument.validate] starts one goroutine per argument.  Each sends
    the result of its [validator.Validate(ctx, argument)] on the channel
    [errs], which has no buffer, so that the send returns only when the loop
    below has received the value; only then does the goroutine run its
    deferred [waiter.Done()].  The channel is closed once all of them have.

    The loop [for violation := range errs] is given the values in the order
    in which the channel hands them over.  Beside what [validate] returns,
    the model returns the values the loop has not received: the goroutines
    that hold them are still blocked in their send. *)
Fixpoint asyncLoop (violations : option loc) (errs : list (option (error Violation)))
  : M (option loc * option (error Violation) * list (option (error Violation))) :=
  match errs with
  | [] => ret (violations, None, [])
  | violation :: pending =>
      do err <- AppendFromError violations violation;
      match err with
      | Some _ => ret (None, err, pending)
      | None => asyncLoop violations pending
      end
  end.

(** [AsyncArgument.validate]; switched off, it starts no goroutine. *)
Definition AsyncArgument_validate (isIgnored : bool)
  (errs : list (option (error Violation)))
  : M (option loc * option (error Violation) * list (option (error Violation))) :=
  if isIgnored then do l <- newList (mkList None None 0); ret (Some l, None, [])
  else do violations <- newList (mkList None None 0); asyncLoop (Some violations) errs.

(** A combinator that is switched off returns a new empty list; otherwise
    it starts its loop on one. *)
Definition combinator (isIgnored : bool)
  (loop : option loc -> M (option loc * option (error Violation)))
  : M (option loc * option (error Violation)) :=
  if isIgnored then do l <- newList (mkList None None 0); ret (Some l, None)
  else do violations <- newList (mkList None None 0); loop (Some violations).

(** The method value [arg.validate] of every kind of argument.  The calls
    [validator.Validate(ctx, arguments...)] inside are unfolded into
    [validateContext] over the closures the arguments register. *)
Fixpoint validateOf (arg : Argument) : ValidateFunc :=
  let setUpAll (arguments : list Argument) : executionContext :=
    fold_left (fun ctx argument => setUpWith (validateOf argument) argument ctx)
      arguments [] in
  let runEach (validator : Validator) (arguments : list Argument) :=
    map (fun argument =>
           validateContext validator
             (setUpWith (validateOf argument) argument [])) arguments in
  match arg with
  | ValidatorArgument validate _ _ => validate
  | Checker err messageTemplate _ groups' messageParameters isIgnored isValid =>
      Checker_validate err messageTemplate groups' messageParameters isIgnored
        isValid
  | WhenArgument _ thenArguments elseArguments isTrue =>
      fun validator =>
        do err <- (if isTrue then validateContext validator (setUpAll thenArguments)
                   else validateContext validator (setUpAll elseArguments));
        unwrapViolationList err
  | WhenGroupsArgument groups' _ thenArguments elseArguments =>
      fun validator =>
        do err <- (if IsIgnoredForGroups validator groups'
                   then validateContext validator (setUpAll elseArguments)
                   else validateContext validator (setUpAll thenArguments));
        unwrapViolationList err
  | SequentialArgument _ arguments isIgnored =>
      fun validator =>
        combinator isIgnored
          (fun violations => sequentialLoop violations (runEach validator arguments))
  | AtLeastOneOfArgument _ arguments isIgnored =>
      fun validator =>
        combinator isIgnored
          (fun violations => atLeastOneOfLoop violations (runEach validator arguments))
  | AllArgument _ arguments isIgnored =>
      fun validator =>
        combinator isIgnored
          (fun violations => allLoop violations (runEach validator arguments))
  end.

Definition setUp (arg : Argument) (ctx : executionContext) : executionContext :=
  setUpWith (validateOf arg) arg ctx.

(** [Validator.Validate] *)
Definition Validate (validator : Validator) (arguments : list Argument)
  : M (option (error Violation)) :=
  let execContext := fold_left (fun ctx argument => setUp argument ctx) arguments [] in
  validateContext validator execContext.

(** [NewArgument] *)
Definition NewArgument (validate : ValidateFunc) : Argument :=
  ValidatorArgument validate [] false.

(** [CheckNoViolations] *)
Definition CheckNoViolations (err : option (error Violation)) : Argument :=
  NewArgument (fun _ => unwrapViolationList err).

(** [ValidatorArgument.When] *)
Definition ValidatorArgument_When (validate : ValidateFunc)
  (path : list PropertyPathElement) (isIgnored : bool) (condition : bool)
  : Argument :=
  ValidatorArgument validate path (negb condition).

End Model.

Arguments Return {Violation U A} a s.
Arguments Panic {Violation U A}.
Arguments OutOfFuel {Violation U A}.

(** ** Messages

    [strings.ReplaceAll] on valid UTF-8 text: an occurrence of valid UTF-8
    text begins and ends between runes, so the search can go rune by rune.
    [skip] counts the runes of an occurrence still to pass over. *)

(** [len(s)] of a string: the number of its bytes. *)
Definition stringLen (s : gostring) : Z :=
  fold_right (fun c n => utf8_RuneLen c + n) 0 s.

Fixpoint HasPrefix (s prefix : gostring) : bool :=
  match prefix, s with
  | [], _ => true
  | _ :: _, [] => false
  | p :: prefix', c :: s' => (c =? p) && HasPrefix s' prefix'
  end.

Fixpoint replaceEach (old new : gostring) (s : gostring) (skip : nat) : gostring :=
  match s with
  | [] => []
  | c :: rest =>
      match skip with
      | S skip' => replaceEach old new rest skip'
      | O =>
          if HasPrefix s old then new ++ replaceEach old new rest (length old - 1)
          else c :: replaceEach old new rest 0
      end
  end.

(** An empty [old] matches before every rune and at the end. *)
Definition ReplaceAll (s old new : gostring) : gostring :=
  match old with
  | [] => new ++ flat_map (fun c => c :: new) s
  | _ :: _ => replaceEach old new s 0
  end.

(** [sort.SliceStable] with the order of [renderMessage], longer keys
    first, the length of a key being its number of bytes: the one
    arrangement that is sorted and keeps parameters of equal rank in their
    order. *)
Fixpoint insertByKey (p : TemplateParameter) (sorted : list TemplateParameter)
  : list TemplateParameter :=
  match sorted with
  | [] => [p]
  | q :: rest =>
      if stringLen (Key p) <? stringLen (Key q) then q :: insertByKey p rest
      else p :: q :: rest
  end.

Definition sortByKeyLength (parameters : list TemplateParameter)
  : list TemplateParameter :=
  fold_right insertByKey [] parameters.

(** [renderMessage]; it sorts the slice it is given in place, and the
    second component is that slice afterwards. *)
Definition renderMessage (template : gostring) (parameters : list TemplateParameter)
  : gostring * list TemplateParameter :=
  let parameters := sortByKeyLength parameters in
  (fold_left (fun message p => ReplaceAll message (Key p) (Value p)) parameters
     template,
   parameters).

(** [TemplateParameterList.Prepend] *)
Definition Prepend (params parameters : list TemplateParameter)
  : list TemplateParameter :=
  parameters ++ params.

Section Builtin.
Context {Violation : Type}.

(** [internalViolationError] *)
Record internalViolationError := mkInternalViolation {
  internal_err : option (error Violation);
  internal_propertyPath : PropertyPath;
  internal_message : gostring;
  internal_messageTemplate : gostring;
  internal_parameters : list TemplateParameter
}.

(** [BuiltinViolationFactory.CreateViolation]: the violation keeps the very
    slice [renderMessage] has sorted. *)
Definition BuiltinViolationFactory_CreateViolation (err : option (error Violation))
  (messageTemplate : gostring) (parameters : list TemplateParameter)
  (propertyPath : PropertyPath) : internalViolationError :=
  let rendered := renderMessage messageTemplate parameters in
  mkInternalViolation err propertyPath (fst rendered) messageTemplate (snd rendered).

(** [ViolationBuilder] *)
Record ViolationBuilder := mkViolationBuilder {
  builder_err : option (error Violation);
  builder_violationFactory : @ViolationFactory Violation;
  builder_propertyPath : PropertyPath;
  builder_messageTemplate : gostring;
  builder_parameters : list TemplateParameter
}.

Definition NewViolationBuilder (factory : @ViolationFactory Violation)
  : ViolationBuilder :=
  mkViolationBuilder None factory nilPath [] [].

Definition ViolationBuilder_BuildViolation (b : ViolationBuilder)
  (err : option (error Violation)) (message : gostring) : ViolationBuilder :=
  mkViolationBuilder err (builder_violationFactory b) nilPath message [].

Definition SetPropertyPath (b : ViolationBuilder) (path : PropertyPath)
  : ViolationBuilder :=
  mkViolationBuilder (builder_err b) (builder_violationFactory b) path
    (builder_messageTemplate b) (builder_parameters b).

Definition WithParameters (b : ViolationBuilder) (parameters : list TemplateParameter)
  : ViolationBuilder :=
  mkViolationBuilder (builder_err b) (builder_violationFactory b)
    (builder_propertyPath b) (builder_messageTemplate b) parameters.

Definition WithParameter (b : ViolationBuilder) (name value : gostring)
  : ViolationBuilder :=
  mkViolationBuilder (builder_err b) (builder_violationFactory b)
    (builder_propertyPath b) (builder_messageTemplate b)
    (builder_parameters b ++ [mkTemplateParameter name value]).

Definition ViolationBuilder_At (b : ViolationBuilder)
  (path : list PropertyPathElement) : ViolationBuilder :=
  mkViolationBuilder (builder_err b) (builder_violationFactory b)
    (With (builder_propertyPath b) path) (builder_messageTemplate b)
    (builder_parameters b).

Definition Create (b : ViolationBuilder) : Violation :=
  builder_violationFactory b (builder_err b) (builder_messageTemplate b)
    (builder_parameters b) (builder_propertyPath b).

(** [Validator.BuildViolation] and [Validator.CreateViolation] *)
Definition BuildViolation (validator : @Validator Violation)
  (err : option (error Violation)) (message : gostring) : ViolationBuilder :=
  SetPropertyPath
    (ViolationBuilder_BuildViolation (NewViolationBuilder (violationFactory validator))
       err message)
    (propertyPath validator).

Definition CreateViolation (validator : @Validator Violation)
  (err : option (error Violation)) (message : gostring)
  (path : list PropertyPathElement) : Violation :=
  Create (ViolationBuilder_At (BuildViolation validator err message) path).

(** [ConstraintError] and [Validator.CreateConstraintError] *)
Record ConstraintError := mkConstraintError {
  ConstraintName : gostring;
  Path : PropertyPath;
  Description : gostring
}.

Definition CreateConstraintError (validator : @Validator Violation)
  (constraintName description : gostring) : ConstraintError :=
  mkConstraintError constraintName (propertyPath validator) description.

(** What a constraint returns as its [error]: nil, a [Violation], or a
    [*ConstraintError]. *)
Inductive verdict :=
| Passed
| Violated (v : Violation)
| Failed (e : ConstraintError).

End Builtin.

Arguments internalViolationError Violation : clear implicits.
Arguments ViolationBuilder Violation : clear implicits.
Arguments verdict Violation : clear implicits.

(** The values of the package's error variables, which [NewError] makes
    of the codes of [validation_errors.go] and of the messages of the
    package [message], which is not among the sources: each is the error
    and the text its [Message] returns. *)
Class PackageErrors (Violation : Type) := {
  ErrIsBlank : option (error Violation) * gostring;
  ErrNotBlank : option (error Violation) * gostring;
  ErrNoSuchChoice : option (error Violation) * gostring;
  ErrNotDivisibleCount : option (error Violation) * gostring;
  ErrNotExactCount : option (error Violation) * gostring;
  ErrNotExactLength : option (error Violation) * gostring;
  ErrTooFewElements : option (error Violation) * gostring;
  ErrTooLong : option (error Violation) * gostring;
  ErrTooManyElements : option (error Violation) * gostring;
  ErrTooShort : option (error Violation) * gostring
}.

(** ** Constraints

    A constraint is a structure of settings; its [Validate...] method takes
    the validator and the value, a pointer being [None] when nil, and
    returns a [verdict].  The [context.Context] is left out. *)

Module BaseConstraint.
Section Defs.
Context {Violation : Type}.

Record t := mk {
  Err : option (error Violation);
  MessageTemplate : gostring;
  Groups : list gostring;
  Parameters : list TemplateParameter;
  IsIgnored : bool
}.

Definition When (c : t) (condition : bool) : t :=
  mk (Err c) (MessageTemplate c) (Groups c) (Parameters c) (negb condition).

Definition WhenGroups (c : t) (groups : list gostring) : t :=
  mk (Err c) (MessageTemplate c) groups (Parameters c) (IsIgnored c).

Definition WithError (c : t) (err : option (error Violation)) : t :=
  mk err (MessageTemplate c) (Groups c) (Parameters c) (IsIgnored c).

Definition WithMessage (c : t) (template : gostring)
  (parameters : list TemplateParameter) : t :=
  mk (Err c) template (Groups c) parameters (IsIgnored c).

Definition ShouldSkip (c : t) (validator : @Validator Violation) : bool :=
  IsIgnored c || IsIgnoredForGroups validator (Groups c).

Definition NewViolation (c : t) (validator : @Validator Violation) : Violation :=
  Create (WithParameters (BuildViolation validator (Err c) (MessageTemplate c))
            (Parameters c)).

End Defs.
Arguments t Violation : clear implicits.
End BaseConstraint.

(** [NotBlankConstraint[T]]: [blank] is never assigned, and is the zero
    value of [T]. *)
Module NotBlankConstraint.
Section Defs.
Context {Violation : Type} `{!PackageErrors Violation} {T : Type} `{EqDecision T}.

Record t := mk {
  blank : T;
  base : BaseConstraint.t Violation;
  allowNil : bool
}.



Definition ValidateComparable (c : t) (validator : @Validator Violation)
  (value : option T) : verdict Violation :=
  if BaseConstraint.ShouldSkip (base c) validator then Passed
  else if allowNil c && bool_decide (value = None) then Passed
  else
    match value with
    | Some x =>
        if negb (bool_decide (x = blank c)) then Passed
        else Violated (BaseConstraint.NewViolation (base c) validator)
    | None => Violated (BaseConstraint.NewViolation (base c) validator)
    end.

Definition ValidateCountable (c : t) (validator : @Validator Violation)
  (count : Z) : verdict Violation :=
  if BaseConstraint.ShouldSkip (base c) validator || (0 <? count) then Passed
  else Violated (BaseConstraint.NewViolation (base c) validator).

End Defs.
Arguments t Violation T : clear implicits.

Section Strings.
Context {Violation : Type} `{!PackageErrors Violation}.


Definition ValidateString {T : Type} (c : t Violation T)
  (validator : @Validator Violation) (value : option gostring) : verdict Violation :=
  if BaseConstraint.ShouldSkip (base c) validator then Passed
  else if allowNil c && bool_decide (value = None) then Passed
  else
    match value with
    | Some (_ :: _) => Passed
    | _ => Violated (BaseConstraint.NewViolation (base c) validator)
    end.

Definition ValidateBool {T : Type} (c : t Violation T)
  (validator : @Validator Violation) (value : option bool) : verdict Violation :=
  if BaseConstraint.ShouldSkip (base c) validator then Passed
  else if allowNil c && bool_decide (value = None) then Passed
  else
    match value with
    | Some true => Passed
    | _ => Violated (BaseConstraint.NewViolation (base c) validator)
    end.

End Strings.
End NotBlankConstraint.

Module BlankConstraint.
Section Defs.
Context {Violation : Type} `{!PackageErrors Violation} {T : Type} `{EqDecision T}.

Record t := mk {
  blank : T;
  base : BaseConstraint.t Violation
}.


Definition ValidateComparable (c : t) (validator : @Validator Violation)
  (value : option T) : verdict Violation :=
  if BaseConstraint.ShouldSkip (base c) validator then Passed
  else
    match value with
    | None => Passed
    | Some x =>
        if bool_decide (x = blank c) then Passed
        else Violated (BaseConstraint.NewViolation (base c) validator)
    end.

Definition ValidateCountable (c : t) (validator : @Validator Violation)
  (count : Z) : verdict Violation :=
  if BaseConstraint.ShouldSkip (base c) validator || (count =? 0) then Passed
  else Violated (BaseConstraint.NewViolation (base c) validator).

End Defs.
Arguments t Violation T : clear implicits.

Section Strings.
Context {Violation : Type} `{!PackageErrors Violation}.


Definition ValidateString {T : Type} (c : t Violation T)
  (validator : @Validator Violation) (value : option gostring) : verdict Violation :=
  if BaseConstraint.ShouldSkip (base c) validator then Passed
  else
    match value with
    | Some (_ :: _) => Violated (BaseConstraint.NewViolation (base c) validator)
    | _ => Passed
    end.

Definition ValidateBool {T : Type} (c : t Violation T)
  (validator : @Validator Violation) (value : option bool) : verdict Violation :=
  if BaseConstraint.ShouldSkip (base c) validator then Passed
  else
    match value with
    | Some true => Violated (BaseConstraint.NewViolation (base c) validator)
    | _ => Passed
    end.

End Strings.
End BlankConstraint.

Module CountConstraint.
Section Defs.
Context {Violation : Type} `{!PackageErrors Violation}.

Record t := mk {
  minErr : option (error Violation);
  divisibleErr : option (error Violation);
  exactErr : option (error Violation);
  maxErr : option (error Violation);
  divisibleByMessageTemplate : gostring;
  exactMessageTemplate : gostring;
  maxMessageTemplate : gostring;
  minMessageTemplate : gostring;
  maxMessageParameters : list TemplateParameter;
  groups : list gostring;
  minMessageParameters : list TemplateParameter;
  exactMessageParameters : list TemplateParameter;
  divisibleByMessageParameters : list TemplateParameter;
  divisibleBy : Z;
  max : Z;
  min : Z;
  checkDivisible : bool;
  isIgnored : bool;
  checkMax : bool;
  checkMin : bool
}.

Definition newCountConstraint : t :=
  mk (fst ErrTooFewElements) (fst ErrNotDivisibleCount) (fst ErrNotExactCount)
    (fst ErrTooManyElements) (snd ErrNotDivisibleCount) (snd ErrNotExactCount)
    (snd ErrTooManyElements) (snd ErrTooFewElements) [] [] [] [] [] 0 0 0
    false false false false.

Definition newCountComparison (min' max' : Z) (checkMin' checkMax' : bool) : t :=
  let c := newCountConstraint in
  mk (minErr c) (divisibleErr c) (exactErr c) (maxErr c)
    (divisibleByMessageTemplate c) (exactMessageTemplate c) (maxMessageTemplate c)
    (minMessageTemplate c) (maxMessageParameters c) (groups c)
    (minMessageParameters c) (exactMessageParameters c)
    (divisibleByMessageParameters c) (divisibleBy c) max' min'
    (checkDivisible c) (isIgnored c) checkMax' checkMin'.

Definition HasMinCount (min' : Z) : t := newCountComparison min' 0 true false.

Definition HasMaxCount (max' : Z) : t := newCountComparison 0 max' false true.

Definition HasCountBetween (min' max' : Z) : t :=
  newCountComparison min' max' true true.

Definition HasExactCount (count : Z) : t := newCountComparison count count true true.

Definition HasCountDivisibleBy (divisor : Z) : t :=
  let c := newCountConstraint in
  mk (minErr c) (divisibleErr c) (exactErr c) (maxErr c)
    (divisibleByMessageTemplate c) (exactMessageTemplate c) (maxMessageTemplate c)
    (minMessageTemplate c) (maxMessageParameters c) (groups c)
    (minMessageParameters c) (exactMessageParameters c)
    (divisibleByMessageParameters c) divisor (max c) (min c)
    true (isIgnored c) (checkMax c) (checkMin c).

Definition When (c : t) (condition : bool) : t :=
  mk (minErr c) (divisibleErr c) (exactErr c) (maxErr c)
    (divisibleByMessageTemplate c) (exactMessageTemplate c) (maxMessageTemplate c)
    (minMessageTemplate c) (maxMessageParameters c) (groups c)
    (minMessageParameters c) (exactMessageParameters c)
    (divisibleByMessageParameters c) (divisibleBy c) (max c) (min c)
    (checkDivisible c) (negb condition) (checkMax c) (checkMin c).

Definition WhenGroups (c : t) (groups' : list gostring) : t :=
  mk (minErr c) (divisibleErr c) (exactErr c) (maxErr c)
    (divisibleByMessageTemplate c) (exactMessageTemplate c) (maxMessageTemplate c)
    (minMessageTemplate c) (maxMessageParameters c) groups'
    (minMessageParameters c) (exactMessageParameters c)
    (divisibleByMessageParameters c) (divisibleBy c) (max c) (min c)
    (checkDivisible c) (isIgnored c) (checkMax c) (checkMin c).

Definition newViolation (c : t) (validator : @Validator Violation)
  (count limit : Z) (err : option (error Violation)) (template : gostring)
  (parameters : list TemplateParameter) : Violation :=
  let exact := checkMin c && checkMax c && (min c =? max c) in
  let template := if exact then exactMessageTemplate c else template in
  let parameters := if exact then exactMessageParameters c else parameters in
  let err := if exact then exactErr c else err in
  Create
    (WithParameters (BuildViolation validator err template)
       (Prepend parameters
          [mkTemplateParameter (runes "{{ count }}") (Itoa count);
           mkTemplateParameter (runes "{{ limit }}") (Itoa limit)])).

Definition newNotDivisibleViolation (c : t) (validator : @Validator Violation)
  (count : Z) : Violation :=
  Create
    (WithParameters
       (BuildViolation validator (divisibleErr c) (divisibleByMessageTemplate c))
       (Prepend (divisibleByMessageParameters c)
          [mkTemplateParameter (runes "{{ count }}") (Itoa count);
           mkTemplateParameter (runes "{{ divisibleBy }}") (Itoa (divisibleBy c))])).

(** The checks of [ValidateCountable] after the one of divisibility.  The
    remainder of Go's [%] has the sign of the dividend: [Z.rem]. *)
Definition checkBounds (c : t) (validator : @Validator Violation) (count : Z)
  : verdict Violation :=
  if checkMax c && (max c <? count) then
    Violated (newViolation c validator count (max c) (maxErr c)
                (maxMessageTemplate c) (maxMessageParameters c))
  else if checkMin c && (count <? min c) then
    Violated (newViolation c validator count (min c) (minErr c)
                (minMessageTemplate c) (minMessageParameters c))
  else Passed.

Definition ValidateCountable (c : t) (validator : @Validator Violation) (count : Z)
  : verdict Violation :=
  if isIgnored c || IsIgnoredForGroups validator (groups c) then Passed
  else if checkDivisible c then
    if divisibleBy c <=? 0 then
      Failed (CreateConstraintError validator (runes "CountConstraint")
                (runes "divisibleBy must be greater than zero"))
    else if negb (Z.rem count (divisibleBy c) =? 0) then
      Violated (newNotDivisibleViolation c validator count)
    else checkBounds c validator count
  else checkBounds c validator count.

End Defs.
Arguments t Violation : clear implicits.
End CountConstraint.

(** [LengthConstraint.ValidateString] measures a string that may hold any
    bytes; [utf8.ValidString], [utf8.RuneCountInString] and [strconv.Quote]
    are the functions of the standard library, taken as given. *)
Module LengthConstraint.
Section Defs.
Context {Violation : Type} `{!PackageErrors Violation}
  (ValidString : list Byte.byte -> bool)
  (RuneCountInString : list Byte.byte -> Z)
  (Quote : list Byte.byte -> gostring).

Record t := mk {
  minErr : option (error Violation);
  exactErr : option (error Violation);
  maxErr : option (error Violation);
  minMessageTemplate : gostring;
  maxMessageTemplate : gostring;
  exactMessageTemplate : gostring;
  groups : list gostring;
  minMessageParameters : list TemplateParameter;
  maxMessageParameters : list TemplateParameter;
  exactMessageParameters : list TemplateParameter;
  max : Z;
  min : Z;
  checkMax : bool;
  checkMin : bool;
  isIgnored : bool
}.

Definition newLengthConstraint (min' max' : Z) (checkMin' checkMax' : bool) : t :=
  mk (fst ErrTooShort) (fst ErrNotExactLength) (fst ErrTooLong)
    (snd ErrTooShort) (snd ErrTooLong) (snd ErrNotExactLength) [] [] [] []
    max' min' checkMax' checkMin' false.

Definition HasMinLength (min' : Z) : t := newLengthConstraint min' 0 true false.

Definition HasMaxLength (max' : Z) : t := newLengthConstraint 0 max' false true.

Definition HasLengthBetween (min' max' : Z) : t :=
  newLengthConstraint min' max' true true.

Definition HasExactLength (count : Z) : t := newLengthConstraint count count true true.

Definition When (c : t) (condition : bool) : t :=
  mk (minErr c) (exactErr c) (maxErr c) (minMessageTemplate c)
    (maxMessageTemplate c) (exactMessageTemplate c) (groups c)
    (minMessageParameters c) (maxMessageParameters c) (exactMessageParameters c)
    (max c) (min c) (checkMax c) (checkMin c) (negb condition).

Definition WhenGroups (c : t) (groups' : list gostring) : t :=
  mk (minErr c) (exactErr c) (maxErr c) (minMessageTemplate c)
    (maxMessageTemplate c) (exactMessageTemplate c) groups'
    (minMessageParameters c) (maxMessageParameters c) (exactMessageParameters c)
    (max c) (min c) (checkMax c) (checkMin c) (isIgnored c).

Definition newViolation (c : t) (validator : @Validator Violation)
  (count limit : Z) (value : list Byte.byte) (err : option (error Violation))
  (template : gostring) (parameters : list TemplateParameter) : Violation :=
  let exact := checkMin c && checkMax c && (min c =? max c) in
  let err := if exact then exactErr c else err in
  let template := if exact then exactMessageTemplate c else template in
  let parameters := if exact then exactMessageParameters c else parameters in
  Create
    (WithParameters (BuildViolation validator err template)
       (Prepend parameters
          [mkTemplateParameter (runes "{{ value }}") (Quote value);
           mkTemplateParameter (runes "{{ length }}") (Itoa count);
           mkTemplateParameter (runes "{{ limit }}") (Itoa limit)])).

Definition ValidateString (c : t) (validator : @Validator Violation)
  (value : option (list Byte.byte)) : verdict Violation :=
  if isIgnored c || IsIgnoredForGroups validator (groups c) then Passed
  else
    match value with
    | None => Passed
    | Some text =>
        if bool_decide (text = []) then Passed
        else
          let count :=
            if negb (ValidString text) then RuneCountInString text
            else Z.of_nat (length text) in
          if checkMax c && (max c <? count) then
            Violated (newViolation c validator count (max c) text (maxErr c)
                        (maxMessageTemplate c) (maxMessageParameters c))
          else if checkMin c && (count <? min c) then
            Violated (newViolation c validator count (min c) text (minErr c)
                        (minMessageTemplate c) (minMessageParameters c))
          else Passed
    end.

End Defs.
Arguments t Violation : clear implicits.
End LengthConstraint.

(** [T comparable]: the type brings its [==] along.  It is symmetric and
    transitive, but need not be reflexive: the NaN of a floating-point type
    is not equal to itself.  (An interface type whose [==] can panic is
    left out.) *)
Class Comparable (T : Type) := {
  equals : T -> T -> bool
}.

(** [ChoiceConstraint[T]]: [blank] is never assigned, and is the zero value
    of [T]; [fmt.Sprint] on [T] is taken as given. *)
Module ChoiceConstraint.
Section Defs.
Context {Violation : Type} `{!PackageErrors Violation}
  {T : Type} `{!Comparable T} (Sprint : T -> gostring).

(** A Go [map[T]bool], as the list of its entries: keys are told apart by
    [==], so no two keys of a map are equal. *)
Definition gomap : Type := list (T * bool).

(** [m[k]]: the zero value where no key is equal to [k]. *)
Fixpoint mapIndex (m : gomap) (k : T) : bool :=
  match m with
  | [] => false
  | (k', b) :: m' => if equals k' k then b else mapIndex m' k
  end.

(** [m[k] = b]: the entry of the key equal to [k] gets the value [b]; where
    there is none the map gets one more entry, as it always does for a [k]
    that is not equal to itself. *)
Fixpoint mapAssign (m : gomap) (k : T) (b : bool) : gomap :=
  match m with
  | [] => [(k, b)]
  | (k', b') :: m' =>
      if equals k' k then (k', b) :: m' else (k', b') :: mapAssign m' k b
  end.

Record t := mk {
  blank : T;
  choices : gomap;
  choicesValue : gostring;
  groups : list gostring;
  err : option (error Violation);
  messageTemplate : gostring;
  messageParameters : list TemplateParameter;
  disallowBlank : bool;
  isIgnored : bool
}.

(** The second loop of [IsOneOf], the builder being [s] and the position
    of the next value [i]. *)
Fixpoint writeChoices (s : gostring) (i : nat) (values : list T) : gostring :=
  match values with
  | [] => s
  | value :: rest =>
      let s := if (0 <? i)%nat then s ++ runes ", " else s in
      writeChoices (s ++ Sprint value) (S i) rest
  end.

Definition IsOneOf (zero : T) (values : list T) : t :=
  mk zero (fold_left (fun choices value => mapAssign choices value true) values [])
    (writeChoices [] 0 values) [] (fst ErrNoSuchChoice) (snd ErrNoSuchChoice) []
    false false.

Definition WithoutBlank (c : t) : t :=
  mk (blank c) (choices c) (choicesValue c) (groups c) (err c) (messageTemplate c)
    (messageParameters c) true (isIgnored c).

Definition When (c : t) (condition : bool) : t :=
  mk (blank c) (choices c) (choicesValue c) (groups c) (err c) (messageTemplate c)
    (messageParameters c) (disallowBlank c) (negb condition).

Definition WhenGroups (c : t) (groups' : list gostring) : t :=
  mk (blank c) (choices c) (choicesValue c) groups' (err c) (messageTemplate c)
    (messageParameters c) (disallowBlank c) (isIgnored c).

Definition ValidateComparable (c : t) (validator : @Validator Violation)
  (value : option T) : verdict Violation :=
  if (length (choices c) =? 0)%nat then
    Failed (CreateConstraintError validator (runes "ChoiceConstraint")
              (runes "empty list of choices"))
  else if isIgnored c || IsIgnoredForGroups validator (groups c) then Passed
  else
    match value with
    | None => Passed
    | Some x =>
        if negb (disallowBlank c) && equals x (blank c) then Passed
        else if mapIndex (choices c) x then Passed
        else
          Violated
            (Create
               (WithParameters
                  (BuildViolation validator (err c) (messageTemplate c))
                  (Prepend (messageParameters c)
                     [mkTemplateParameter (runes "{{ value }}") (Sprint x);
                      mkTemplateParameter (runes "{{ choices }}") (choicesValue c)])))
    end.

End Defs.
Arguments t : clear implicits.
End ChoiceConstraint.

(** * Vocabulary of the properties

    The predicates and the functions on plain lists in whose terms the
    properties below are stated, and the sample values of their instances.
    None of this is code of the package. *)

(** ** Decimal numerals *)

Definition isDecimal (s : gostring) : bool :=
  negb (bool_decide (s = [])) && forallb (between 48 57) s.

(** The number a string of digits denotes, continuing from [n]. *)
Definition decimalFrom (n : Z) (s : gostring) : Z :=
  fold_left (fun n c => n * 10 + (c - 48)) s n.

Definition decimalValue (s : gostring) : Z := decimalFrom 0 s.

(** ** Parsing *)

(** An excerpt of the Unicode tables, the Arabic block: letters U+0620 to
    U+064A, decimal digits U+0660 to U+0669. *)
Definition arabicTables : UnicodeTables :=
  {| letterExcludingLatin := between 1568 1610;
     digitExcludingLatin := between 1632 1641 |}.

Definition byteLen (s : gostring) : Z :=
  fold_right (fun c n => utf8_RuneLen c + n) 0 s.

(** The runes [handleNext] does not pass to [handleOther]. *)
Definition special (c : rune) : bool :=
  (c =? 91) || (c =? 93) || between 48 57 c || (c =? 39) || (c =? 92) || (c =? 46).

(** What matters of a parser for what it accepts next. *)
Definition core (parser : pathParser) (st : parsingState) (buf : gostring)
  (pth : PropertyPath) : Prop :=
  state parser = st /\ buffer parser = buf /\ path parser = pth
  /\ isEscape parser = false.

(** The parser after the rendering of the elements [es]. *)
Definition ready (es : list PropertyPathElement) (parser : pathParser) : Prop :=
  (es = [] /\ core parser initialState [] nilPath)
  \/ (es <> [] /\ core parser closeBracketState [] (With nilPath es))
  \/ (exists es' name,
        es = es' ++ [PropertyName name] /\ name <> []
        /\ core parser identifierState name (With nilPath es')).

(** The escaped form [writePropertyName] writes. *)
Definition escaped (name : gostring) : gostring :=
  flat_map (fun c => if (c =? 39) || (c =? 92) then [92; c] else [c]) name.

Section RenderingVocabulary.
Context `{UnicodeTables}.

(** Every decimal digit of the name is an ASCII digit. *)
Definition asciiDigitsOnly (name : gostring) : bool :=
  forallb (fun c => implb (IsDigit c) (between 48 57 c)) name.

(** The elements the codec is expected to give back: an index within the
    range of [int] and not negative, and any name; a name that [String]
    writes bare must keep to ASCII for its digits. *)
Definition roundTrips (e : PropertyPathElement) : Prop :=
  match e with
  | PropertyName name => isIdentifier name = true -> asciiDigitsOnly name = true
  | ArrayIndex i => 0 <= i <= MaxInt
  end.

(** The code points of a Go string that is valid UTF-8 are Unicode scalar
    values: no surrogate, nothing above U+10FFFF. *)
Definition isScalarValue (c : rune) : bool :=
  between 0 55295 c || between 57344 1114111 c.

Definition validUTF8 (s : gostring) : bool := forallb isScalarValue s.

(** The element is an index, or a name that is valid UTF-8. *)
Definition namedInUTF8 (e : PropertyPathElement) : Prop :=
  match e with
  | PropertyName name => validUTF8 name = true
  | ArrayIndex _ => True
  end.

(** The text [String] writes for the elements [es], the first of which is
    at position [i]. *)
Fixpoint renderFrom (i : nat) (es : list PropertyPathElement) : gostring :=
  match es with
  | [] => []
  | e :: es' => writeElement [] i e ++ renderFrom (S i) es'
  end.

End RenderingVocabulary.

(** ** What the parser has read *)

(** An index within the range of a non-negative [int]. *)
Definition indexInRange (e : PropertyPathElement) : Prop :=
  match e with
  | PropertyName _ => True
  | ArrayIndex i => 0 <= i <= MaxInt
  end.

(** The parser holds the path of the elements [es], and counts them. *)
Definition hasRead (es : list PropertyPathElement) (parser : pathParser) : Prop :=
  path parser = With nilPath es
  /\ pathIndex parser = Z.of_nat (length es)
  /\ Forall indexInRange es
  /\ (state parser = closeBracketState -> es <> []).

(** What a parser started from [pathParser{}] keeps beside that: an
    escape is pending only inside a bracketed name, the buffer is empty
    wherever a segment is yet to begin, and inside an index it is a decimal
    numeral. *)
Definition tidy (parser : pathParser) : Prop :=
  (isEscape parser = true -> state parser = bracketedNameState)
  /\ (state parser = initialState \/ state parser = closeBracketState
      \/ state parser = beginIndexState -> buffer parser = [])
  /\ (state parser = indexState -> isDecimal (buffer parser) = true).

(** The runes a path cannot begin with: a digit, a point, a closing
    bracket, a quote, a backslash. *)
Definition cannotBegin (c : rune) : bool :=
  between 48 57 c || (c =? 46) || (c =? 93) || (c =? 39) || (c =? 92).

(** ** Lists in the store *)

Abbreviation lastOf := stdpp.list_basics.list.last.

Section StoreVocabulary.
Context {Violation U : Type}.
Abbreviation Element := (ViolationListElementError Violation).
Abbreviation St := (@State Violation U).
Abbreviation State := (@State Violation U).
Abbreviation Validator := (@Validator Violation).
Abbreviation Argument := (@Argument Violation U).

(** [seg els e locs vs stop]: following [next] from [e] visits the nodes
    [locs], which hold the violations [vs], and ends on [stop]. *)
Fixpoint seg (els : gmap loc Element) (e : option loc) (locs : list loc)
  (vs : list Violation) (stop : option loc) : Prop :=
  match locs, vs with
  | [], [] => e = stop
  | l :: locs', v :: vs' =>
      e = Some l
      /\ exists nxt, els !! l = Some (mkElement nxt v) /\ seg els nxt locs' vs' stop
  | _, _ => False
  end.

(** The list at [p] has the nodes [locs], in this order and without
    repetition, holding [vs]; its counter is [n]. *)
Definition is_list_len (s : State) (p : loc) (locs : list loc)
  (vs : list Violation) (n : Z) : Prop :=
  lists s !! p = Some (mkList (head locs) (lastOf locs) n)
  /\ seg (elements s) (head locs) locs vs None
  /\ NoDup locs.

(** A well-formed list: the counter is the number of nodes. *)
Definition is_list (s : State) (p : loc) (locs : list loc) (vs : list Violation)
  : Prop :=
  is_list_len s p locs vs (Z.of_nat (length vs)).

(** What an update of the list at [p], whose nodes are [locs], may change:
    the header of [p], the nodes [locs], and new nodes. *)
Definition frame (p : loc) (locs : list loc) (s s' : State) : Prop :=
  user s' = user s
  /\ (forall q, q <> p -> lists s' !! q = lists s !! q)
  /\ (forall l, l ∉ locs -> is_Some (elements s !! l) ->
        elements s' !! l = elements s !! l)
  /\ (forall l, is_Some (elements s !! l) -> is_Some (elements s' !! l)).

(** [s'] keeps every list and node of [s] as it is. *)
Definition extends (s s' : State) : Prop :=
  (forall q x, lists s !! q = Some x -> lists s' !! q = Some x)
  /\ (forall l x, elements s !! l = Some x -> elements s' !! l = Some x).

(** Calling [f] on the violations [vs] in order, counting from [i], until
    it returns an error. *)
Fixpoint forEachList (f : Z -> Violation -> M (option (error Violation)))
  (i : Z) (vs : list Violation) : @M Violation U (option (error Violation)) :=
  match vs with
  | [] => ret None
  | v :: vs' =>
      bind (f i v) (fun err =>
        match err with
        | Some err => ret (Some err)
        | None => forEachList f (i + 1) vs'
        end)
  end.

(** A callback that leaves the store alone. *)
Definition keeps_store (f : Z -> Violation -> @M Violation U (option (error Violation)))
  : Prop :=
  forall i v (s : St),
    match f i v s with
    | Return _ s' => lists s' = lists s /\ elements s' = elements s
    | _ => True
    end.

(** ** Runs of arguments *)

(** The calls [validator.Validate(ctx, argument)] a combinator makes. *)
Definition runEach (validator : Validator) (arguments : list Argument)
  : list (@M Violation U (option (error Violation))) :=
  map (fun argument => Validate validator [argument]) arguments.

(** The state once [&ViolationListError{}] is allocated, and its location. *)
Definition newListLoc (s : St) : loc := fresh (dom (lists s)).

Definition withNewList (s : St) : St :=
  mkState (<[newListLoc s := mkList None None 0]> (lists s)) (elements s) (user s).

(** The error [err] carries the violations [ws]: it unwraps to the single
    violation of [ws], or else to a well-formed list that holds [ws] in the
    nodes [locs]. *)
Definition carries (s : St) (err : error Violation) (locs : list loc)
  (ws : list Violation) : Prop :=
  (exists w, UnwrapViolation (Some err) = Some w /\ ws = [w] /\ locs = [])
  \/ (UnwrapViolation (Some err) = None
      /\ exists q, UnwrapViolationList (Some err) = Some (Some q)
                   /\ is_list s q locs ws).

(** A fault: an error that is neither a violation nor a list of them. *)
Definition is_fault (err : error Violation) : Prop :=
  UnwrapViolation (Some err) = None /\ UnwrapViolationList (Some err) = None.

(** The state after [violations.AppendFromError(err)]. *)
Definition afterAppend (p : loc) (err : error Violation) (s : St) : St :=
  match AppendFromError (Some p) (Some err) s with
  | Return _ s' => s'
  | _ => s
  end.

(** [passes v args s s']: validated one after the other from [s], the
    arguments [args] all return nil, and leave the state [s']; none changes
    what was in the store before it ran. *)
Inductive passes (v : Validator) : list Argument -> St -> St -> Prop :=
| passes_nil s : passes v [] s s
| passes_cons a args s s1 s' :
    Validate v [a] s = Return None s1 ->
    extends s s1 ->
    passes v args s1 s' ->
    passes v (a :: args) s s'.

(** [fails v p args s wss s']: validated one after the other from [s], each
    argument of [args] returns an error, not nil, that carries violations
    (a list given as the error may hold none), in nodes of its own making,
    and changes nothing that was in the store before it ran; the caller
    absorbs each error into the list [p] before the next argument runs.
    [wss] are the violations carried, argument by argument, and [s'] is the
    state in the end. *)
Inductive fails (v : Validator) (p : loc)
  : list Argument -> St -> list (list Violation) -> St -> Prop :=
| fails_nil s : fails v p [] s [] s
| fails_cons a args s s1 s' err locs ws wss :
    Validate v [a] s = Return (Some err) s1 ->
    extends s s1 ->
    carries s1 err locs ws ->
    (forall l, l ∈ locs -> elements s !! l = None) ->
    fails v p args (afterAppend p err s1) wss s' ->
    fails v p (a :: args) s (ws :: wss) s'.

(** ** Ownership

    The discipline under which [Join], which splices nodes in place, is
    safe: whatever a closure returns is of its own making. *)

(** The nodes [locs] are not nodes of [s]. *)
Definition fresh_in (s : St) (locs : list loc) : Prop :=
  forall l, l ∈ locs -> elements s !! l = None.

(** The error [e], returned by a run from [s] to [s'], is a fault, or it
    carries violations in nodes made during the run. *)
Definition error_owned (s s' : St) (e : error Violation) : Prop :=
  is_fault e \/ exists locs ws, carries s' e locs ws /\ fresh_in s locs.

(** The same for the pair a [ValidateFunc] returns. *)
Definition result_owned (s s' : St) (r : option loc * option (error Violation))
  : Prop :=
  match snd r, fst r with
  | Some e, _ => error_owned s s' e
  | None, None => True
  | None, Some q => exists locs ws, is_list s' q locs ws /\ fresh_in s locs
  end.

(** The list [p], made after [s0], holds [vs] in nodes made after [s0],
    in a state [s] that keeps all of [s0]. *)
Definition accumulates (s0 s : St) (p : loc) (locs : list loc)
  (vs : list Violation) : Prop :=
  lists s0 !! p = None /\ fresh_in s0 locs /\ extends s0 s /\ is_list s p locs vs.

(** A closure that always returns, changes nothing that was in the store,
    and returns only what it made. *)
Definition owning (g : @ValidateFunc Violation U) : Prop :=
  forall v (s : St),
    exists r s', g v s = Return r s' /\ extends s s' /\ result_owned s s' r.

(** The same for a call of [Validate]. *)
Definition owning_run (m : @M Violation U (option (error Violation))) : Prop :=
  forall s : St,
    exists e s',
      m s = Return e s' /\ extends s s'
      /\ match e with
         | None => True
         | Some e' => error_owned s s' e'
         end.

(** The arguments all of whose closures are [owning]. *)
Inductive owned : Argument -> Prop :=
| owned_ValidatorArgument g path isIgnored :
    owning g -> owned (ValidatorArgument g path isIgnored)
| owned_Checker err messageTemplate path groups' messageParameters isIgnored isValid :
    owned (Checker err messageTemplate path groups' messageParameters isIgnored isValid)
| owned_When path thenArguments elseArguments isTrue :
    Forall owned thenArguments -> Forall owned elseArguments ->
    owned (WhenArgument path thenArguments elseArguments isTrue)
| owned_WhenGroups groups' path thenArguments elseArguments :
    Forall owned thenArguments -> Forall owned elseArguments ->
    owned (WhenGroupsArgument groups' path thenArguments elseArguments)
| owned_Sequential path arguments isIgnored :
    Forall owned arguments -> owned (SequentialArgument path arguments isIgnored)
| owned_AtLeastOneOf path arguments isIgnored :
    Forall owned arguments -> owned (AtLeastOneOfArgument path arguments isIgnored)
| owned_All path arguments isIgnored :
    Forall owned arguments -> owned (AllArgument path arguments isIgnored).

(** The number of arguments in a tree of arguments. *)
Fixpoint size (a : Argument) : nat :=
  match a with
  | ValidatorArgument _ _ _ => 1
  | Checker _ _ _ _ _ _ _ => 1
  | WhenArgument _ thenArguments elseArguments _ =>
      S (list_sum (map size thenArguments) + list_sum (map size elseArguments))
  | WhenGroupsArgument _ _ thenArguments elseArguments =>
      S (list_sum (map size thenArguments) + list_sum (map size elseArguments))
  | SequentialArgument _ arguments _ => S (list_sum (map size arguments))
  | AtLeastOneOfArgument _ arguments _ => S (list_sum (map size arguments))
  | AllArgument _ arguments _ => S (list_sum (map size arguments))
  end.

End StoreVocabulary.

(** ** Runs of closures and of arguments that report *)

Section EngineVocabulary.
Context {Violation U : Type}.
Abbreviation St := (@State Violation U).
Abbreviation Validator := (@Validator Violation).
Abbreviation Argument := (@Argument Violation U).

(** The state after [violations.Join(vs)]. *)
Definition afterJoin (p : loc) (q : option loc) (s : St) : St :=
  match Join (Some p) q s with
  | Return _ s' => s'
  | _ => s
  end.

(** The list pointer [q] is nil, or a well-formed list of [ws] in [locs]. *)
Definition holds (s : St) (q : option loc) (locs : list loc)
  (ws : list Violation) : Prop :=
  match q with
  | None => locs = [] /\ ws = []
  | Some q' => is_list s q' locs ws
  end.

(** [gathers v p gs s wss s']: called one after the other from [s] with the
    validator [v], each closure of [gs] returns no error and a list, nil or
    holding its violations of [wss] in nodes made during the call, and
    changes nothing that was in the store before; the caller joins each
    list to the list [p] before the next call.  [s'] is the state in the
    end. *)
Inductive gathers (v : Validator) (p : loc)
  : list (@ValidateFunc Violation U) -> St -> list (list Violation) -> St -> Prop :=
| gathers_nil s : gathers v p [] s [] s
| gathers_cons g gs s s1 s' q locs ws wss :
    g v s = Return (q, None) s1 ->
    extends s s1 ->
    holds s1 q locs ws ->
    fresh_in s locs ->
    gathers v p gs (afterJoin p q s1) wss s' ->
    gathers v p (g :: gs) s (ws :: wss) s'.

(** [reports v p args s wss s']: validated one after the other from [s],
    each argument of [args] returns nil, or an error that carries its
    violations of [wss] in nodes of its own making, and changes nothing
    that was in the store before it ran; the caller absorbs each error into
    the list [p] before the next argument runs. *)
Inductive reports (v : Validator) (p : loc)
  : list Argument -> St -> list (list Violation) -> St -> Prop :=
| reports_nil s : reports v p [] s [] s
| reports_pass a args s s1 s' wss :
    Validate v [a] s = Return None s1 ->
    extends s s1 ->
    reports v p args s1 wss s' ->
    reports v p (a :: args) s ([] :: wss) s'
| reports_fail a args s s1 s' err locs ws wss :
    Validate v [a] s = Return (Some err) s1 ->
    extends s s1 ->
    carries s1 err locs ws ->
    fresh_in s locs ->
    reports v p args (afterAppend p err s1) wss s' ->
    reports v p (a :: args) s (ws :: wss) s'.

(** [unwraps m r]: the computation [r] is [m] followed by
    [unwrapViolationList]: nil becomes a new empty list, a fault comes back
    with no list, and an error that carries violations becomes a new list
    that holds them. *)
Definition unwraps (m : @M Violation U (option (error Violation)))
  (r : @M Violation U (option loc * option (error Violation))) : Prop :=
  forall s s1 : St,
    (m s = Return None s1 ->
     exists p s2,
       r s = Return (Some p, None) s2 /\ lists s1 !! p = None
       /\ is_list s2 p [] [] /\ extends s1 s2)
    /\ (forall err,
          m s = Return (Some err) s1 ->
          is_fault err ->
          exists s2, r s = Return (None, Some err) s2 /\ extends s1 s2)
    /\ (forall err locs ws,
          m s = Return (Some err) s1 ->
          carries s1 err locs ws ->
          exists p locs' s2,
            r s = Return (Some p, None) s2 /\ lists s1 !! p = None
            /\ is_list s2 p locs' ws).

(** What [AsError] makes of a list that holds [vs]. *)
Definition asErrorOf (p : loc) (vs : list Violation)
  : option (error Violation) :=
  match vs with
  | [] => None
  | _ :: _ => Some (ListError (Some p))
  end.

End EngineVocabulary.

(** ** Errors given together *)

Section ErrorsVocabulary.
Context {Violation U : Type}.
Abbreviation St := (@State Violation U).

(** [carried s errs locss wss]: each error of [errs] is nil, with nothing
    to give, or carries its violations of [wss] in its nodes of [locss]. *)
Inductive carried (s : St)
  : list (option (error Violation)) -> list (list loc) -> list (list Violation)
    -> Prop :=
| carried_nil : carried s [] [] []
| carried_none errs locss wss :
    carried s errs locss wss -> carried s (None :: errs) ([] :: locss) ([] :: wss)
| carried_some e errs locs ws locss wss :
    carries s e locs ws ->
    carried s errs locss wss ->
    carried s (Some e :: errs) (locs :: locss) (ws :: wss).

End ErrorsVocabulary.

(** ** The text of a list *)

Section TextVocabulary.
Context `{!UnicodeTables} {Violation : Type}
  (Violation_Message : Violation -> gostring)
  (Violation_PropertyPath : Violation -> PropertyPath).

(** The path of the violation is nil, or [String] renders it. *)
Definition renders (v : Violation) : Prop :=
  Violation_PropertyPath v = nilPath
  \/ is_Some (PropertyPath_String (Violation_PropertyPath v)).

(** The entry of the violation [v], the [i]-th of a listing. *)
Definition itemText (delimiter : gostring) (i : Z) (v : Violation) : gostring :=
  (if 0 <? i then runes ";" else []) ++ delimiter ++ (chr "#" :: Itoa i)
  ++ match Violation_PropertyPath v with
     | nilPath => []
     | mkPath _ _ =>
         match PropertyPath_String (Violation_PropertyPath v) with
         | Some text => (runes " at " ++ [quote]) ++ text ++ [quote]
         | None => []
         end
     end
  ++ (runes ": " ++ [quote]) ++ Violation_Message v ++ [quote].

Fixpoint listingFrom (delimiter : gostring) (i : Z) (vs : list Violation)
  : gostring :=
  match vs with
  | [] => []
  | v :: vs' => itemText delimiter i v ++ listingFrom delimiter (i + 1) vs'
  end.

End TextVocabulary.

Section FilterVocabulary.
Context {Violation : Type} `{!ViolationMethods Violation}.

(** One copy of [v] for each kind of [errs] that [v] is. *)
Definition matchingKinds (v : Violation) (errs : list (option (error Violation)))
  : list Violation :=
  flat_map (fun err => if Violation_Is v err then [v] else []) errs.

Definition filterList (vs : list Violation) (errs : list (option (error Violation)))
  : list Violation :=
  flat_map (fun v => matchingKinds v errs) vs.

End FilterVocabulary.

(** ** Messages *)

(** The text [old] occurs in [s]. *)
Fixpoint occurs (old s : gostring) : bool :=
  HasPrefix s old
  || match s with
     | [] => false
     | _ :: s' => occurs old s'
     end.

(** No parameter has a longer key than one before it. *)
Fixpoint longerFirst (ps : list TemplateParameter) : Prop :=
  match ps with
  | [] => True
  | p :: rest =>
      Forall (fun q => stringLen (Key q) <= stringLen (Key p)) rest
      /\ longerFirst rest
  end.

(** The parameters whose key has [n] bytes, in their order. *)
Definition ofKeyLength (n : Z) (ps : list TemplateParameter)
  : list TemplateParameter :=
  List.filter (fun p => stringLen (Key p) =? n) ps.

(** ** Samples *)

(** A store with the list [1] holding [10], the list [2] holding [20; 30]
    and the empty list [3]. *)
Definition sampleStore : @State nat unit :=
  mkState
    (<[1%positive := mkList (Some 1%positive) (Some 1%positive) 1]>
       (<[2%positive := mkList (Some 2%positive) (Some 3%positive) 2]>
          (<[3%positive := mkList None None 0]> ∅)))
    (<[1%positive := mkElement None 10%nat]>
       (<[2%positive := mkElement (Some 3%positive) 20%nat]>
          (<[3%positive := mkElement None 30%nat]> ∅)))
    tt.

(** A sample [Is]: the violation [v] is of kind [k] when [k] divides [v]. *)
Definition dividesKinds : ViolationMethods nat :=
  {| Violation_Is v err :=
       match err with
       | Some (PlainError k) => (N.of_nat v mod k =? 0)%N
       | _ => false
       end |}.

(** Closures count their runs in the user state. *)
Definition tick : @M nat nat unit :=
  fun s => Return tt (mkState (lists s) (elements s) (S (user s))).

(** An argument whose closure reports the violations [ws]. *)
Definition reporting (ws : list nat) : @Argument nat nat :=
  ValidatorArgument
    (fun _ => bind tick (fun _ => bind (NewViolationList ws) (fun l => ret (l, None))))
    [] false.

(** An argument whose closure returns a fault. *)
Definition faulting (id : N) : @Argument nat nat :=
  ValidatorArgument
    (fun _ => bind tick (fun _ => ret (None, Some (PlainError id))))
    [] false.

(** An argument whose closure returns, as its error, a new list without
    violations: [return nil, &ViolationListError{}]. *)
Definition emptyListing : @Argument nat nat :=
  ValidatorArgument
    (fun _ =>
       bind tick (fun _ =>
         bind (newList (mkList None None 0)) (fun l =>
           ret (None, Some (ListError (Some l))))))
    [] false.

(** A closure that reports the violations [ws], and one that returns a
    fault. *)
Definition reportingFunc (ws : list nat) : @ValidateFunc nat nat :=
  fun _ => bind tick (fun _ => bind (NewViolationList ws) (fun l => ret (l, None))).

Definition faultingFunc (id : N) : @ValidateFunc nat nat :=
  fun _ => bind tick (fun _ => ret (None, Some (PlainError id))).

(** Sample values of the package's errors: the error of the [k]-th
    variable is [PlainError k], and the messages are words. *)
Definition sampleErrors : PackageErrors nat :=
  {| ErrIsBlank := (Some (PlainError 1), runes "blank");
     ErrNotBlank := (Some (PlainError 2), runes "not blank");
     ErrNoSuchChoice := (Some (PlainError 3), runes "no such choice");
     ErrNotDivisibleCount := (Some (PlainError 4), runes "not divisible");
     ErrNotExactCount := (Some (PlainError 5), runes "not exact count");
     ErrNotExactLength := (Some (PlainError 6), runes "not exact length");
     ErrTooFewElements := (Some (PlainError 7), runes "too few");
     ErrTooLong := (Some (PlainError 8), runes "too long");
     ErrTooManyElements := (Some (PlainError 9), runes "too many");
     ErrTooShort := (Some (PlainError 10), runes "too short") |}.

(** A sample comparable type with a value that is not equal to itself, as
    the NaN of a floating-point type is: [None]. *)
Definition sampleComparable : Comparable (option nat) :=
  {| equals a b :=
       match a, b with
       | Some m, Some n => (m =? n)%nat
       | _, _ => false
       end |}.

Definition sampleValidator : @Validator nat :=
  mkValidator nilPath (fun _ _ _ _ => 0%nat) [].

Definition emptyState : @State nat nat := mkState ∅ ∅ 0%nat.

(** * Properties *)

(** ** Decimal numerals *)

Lemma between_spec lo hi r : between lo hi r = true <-> lo <= r <= hi.
Proof. unfold between. rewrite andb_true_iff, !Z.leb_le. tauto. Qed.

Lemma decimalFrom_ge n s :
  0 <= n -> forallb (between 48 57) s = true -> n <= decimalFrom n s.
Proof.
  revert n. induction s as [|c s IH]; intros n Hn Hall; simpl in *; [lia|].
  apply andb_true_iff in Hall as [Hc Hall]. apply between_spec in Hc.
  etransitivity; [|apply IH]; auto; lia.
Qed.

Ltac uint64_consts :=
  unfold maxUint64 in *;
  change (2 ^ 64) with 18446744073709551616 in *;
  change (18446744073709551616 - 1) with 18446744073709551615 in *;
  change (18446744073709551615 / 10 + 1) with 1844674407370955162 in *.

Lemma parseUintLoop_digits s : forall n,
  0 <= n <= maxUint64 ->
  forallb (between 48 57) s = true ->
  parseUintLoop maxUint64 s n =
    if decimalFrom n s <=? maxUint64 then inl (decimalFrom n s) else inr ErrRange.
Proof.
  induction s as [|c s IH]; intros n Hn Hall; simpl in *.
  - uint64_consts. destruct (Z.leb_spec n 18446744073709551615); [reflexivity|lia].
  - apply andb_true_iff in Hall as [Hc Hall]. rewrite Hc.
    apply between_spec in Hc.
    specialize (IH (n * 10 + (c - 48))).
    pose proof (decimalFrom_ge (n * 10 + (c - 48)) s ltac:(lia) Hall).
    uint64_consts.
    destruct (Z.leb_spec 1844674407370955162 n) as [Hcut|Hcut].
    + destruct (Z.leb_spec (decimalFrom (n * 10 + (c - 48)) s) 18446744073709551615);
        [lia|reflexivity].
    + destruct (Z.leb_spec (n * 10 + (c - 48)) 18446744073709551615) as [Hfit|Hfit].
      * rewrite Z.mod_small by lia.
        destruct (Z.ltb_spec (n * 10 + (c - 48)) (n * 10)); [lia|].
        destruct (Z.ltb_spec 18446744073709551615 (n * 10 + (c - 48))); [lia|].
        simpl. apply IH; [lia|assumption].
      * replace ((n * 10 + (c - 48)) mod 18446744073709551616)
          with (n * 10 + (c - 48) - 18446744073709551616).
        2:{ apply Z.mod_unique with 1; lia. }
        destruct (Z.ltb_spec (n * 10 + (c - 48) - 18446744073709551616) (n * 10));
          [|lia]. simpl.
        destruct (Z.leb_spec (decimalFrom (n * 10 + (c - 48)) s) 18446744073709551615);
          [lia|reflexivity].
Qed.

Lemma parseUintLoop_not_digits maxVal s : forall n,
  forallb (between 48 57) s = false ->
  exists e, parseUintLoop maxVal s n = inr e.
Proof.
  induction s as [|c s IH]; intros n Hall; simpl in *; [discriminate|].
  destruct (between 48 57 c); simpl in *; [|eauto].
  destruct (_ <=? n); [eauto|].
  destruct (_ || _); [eauto|]. apply IH, Hall.
Qed.

(** [ParseUint] accepts exactly the non-empty strings of ASCII digits whose
    value fits 64 bits, and returns that value. *)
Lemma ParseUint_decimal s :
  isDecimal s = true ->
  ParseUint s =
    if decimalValue s <=? maxUint64 then inl (decimalValue s) else inr ErrRange.
Proof.
  unfold isDecimal, ParseUint, decimalValue. intros Hs.
  apply andb_true_iff in Hs as [Hne Hall].
  destruct s as [|c s]; [discriminate|].
  change (2 ^ IntSize - 1) with maxUint64.
  apply parseUintLoop_digits; [unfold maxUint64; lia|assumption].
Qed.

Lemma ParseUint_not_decimal s :
  isDecimal s = false -> exists e, ParseUint s = inr e.
Proof.
  unfold isDecimal, ParseUint. intros Hs.
  destruct s as [|c s]; [eauto|]. simpl in Hs.
  apply (parseUintLoop_not_digits _ (c :: s)), Hs.
Qed.

(** ** The parser loop *)

Section ParserFacts.
Context `{UnicodeTables}.

Lemma parseLoop_app a : forall parser i b,
  parseLoop parser i (a ++ b) =
    match parseLoop parser i a with
    | Err e => Err e
    | Ok parser' => parseLoop parser' (i + byteLen a) b
    end.
Proof.
  induction a as [|c a IH]; intros parser i b; simpl.
  - f_equal. lia.
  - destruct (handleNext (setIndex parser i) c) as [parser'|e]; [|reflexivity].
    rewrite IH. destruct (parseLoop parser' _ a); [|reflexivity].
    f_equal. lia.
Qed.

Lemma addIndex_accepts parser :
  isDecimal (buffer parser) = true ->
  decimalValue (buffer parser) <= MaxInt ->
  addIndex parser =
    Ok (mkParser (WithIndex (path parser) (decimalValue (buffer parser))) []
          (index parser) (pathIndex parser + 1) (state parser) (isEscape parser)).
Proof.
  intros Hdec Hfit. unfold addIndex. rewrite (ParseUint_decimal _ Hdec).
  assert (MaxInt <= maxUint64) by (vm_compute; discriminate).
  destruct (Z.leb_spec (decimalValue (buffer parser)) maxUint64); [|lia].
  destruct (Z.ltb_spec MaxInt (decimalValue (buffer parser))); [lia|reflexivity].
Qed.

Lemma addIndex_rejects parser :
  isDecimal (buffer parser) = false \/ MaxInt < decimalValue (buffer parser) ->
  exists msg,
    addIndex parser = Err (pathParsingProcessingError msg (pathIndex parser)).
Proof.
  unfold addIndex, newProcessingError.
  destruct (isDecimal (buffer parser)) eqn:Hdec.
  - intros [?|Hbig]; [discriminate|].
    rewrite (ParseUint_decimal _ Hdec).
    destruct (_ <=? maxUint64); [|eauto].
    destruct (Z.ltb_spec MaxInt (decimalValue (buffer parser))); [eauto|lia].
  - intros _. destruct (ParseUint_not_decimal _ Hdec) as [e ->].
    destruct e; eauto.
Qed.

(** C7. The parser rejects ["a["] and ["a['b"] with an error that names
    segment 1, the one left incomplete; it accepts ["a.b[3]['c\'d']"], and
    [String] gives that text back. *)
Theorem parser_unterminated_and_verbatim :
  parsePath (runes "a[") = Err (pathParsingError (runes "incomplete array index") 1)
  /\ parsePath (runes "a['b") =
       Err (pathParsingError (runes "incomplete bracketed property name") 1)
  /\ exists p,
       parsePath (runes "a.b[3]['c\'d']") = Ok p
       /\ Elements p = [Some (PropertyName (runes "a")); Some (PropertyName (runes "b"));
                        Some (ArrayIndex 3); Some (PropertyName (runes "c'd"))]
       /\ PropertyPath_String p = Some (runes "a.b[3]['c\'d']").
Proof.
  split; [vm_compute; reflexivity|].
  split; [vm_compute; reflexivity|].
  eexists. split; [vm_compute; reflexivity|].
  split; vm_compute; reflexivity.
Qed.

End ParserFacts.

(** ** Groups *)

Section Groups.
Context {Violation U : Type}.
Abbreviation Validator := (@Validator Violation).
Abbreviation Argument := (@Argument Violation U).

Local Arguments Contains : simpl never.

Lemma Contains_In (s : list gostring) (v : gostring) :
  Contains s v = true <-> In v s.
Proof.
  unfold Contains. rewrite existsb_exists. split.
  - intros (x & Hx & Heq). apply bool_decide_eq_true in Heq. subst. assumption.
  - intros Hin. exists v. split; [assumption|]. apply bool_decide_eq_true. reflexivity.
Qed.

Lemma length_zero_iff {A} (l : list A) : (length l =? 0)%nat = true <-> l = [].
Proof. destruct l; simpl; split; (reflexivity || discriminate). Qed.

Lemma appliedForAny_spec (V G : list gostring) :
  appliedForAny V G = true <->
  exists g, In g V /\ ((G = [] /\ g = DefaultGroup) \/ In g G).
Proof.
  induction V as [|g1 V IH]; simpl.
  - split; [discriminate|]. intros (g & [] & _).
  - destruct ((length G =? 0)%nat && bool_decide (g1 = DefaultGroup)) eqn:Hdefault.
    + apply andb_true_iff in Hdefault as [HG Hg1].
      apply length_zero_iff in HG. apply bool_decide_eq_true in Hg1.
      split; [|reflexivity]. intros _. exists g1. auto.
    + destruct (Contains G g1) eqn:Hin.
      * apply Contains_In in Hin. split; [|reflexivity]. intros _. exists g1. auto.
      * rewrite IH. split.
        -- intros (g & HgV & Hg). exists g. auto.
        -- intros (g & [<-|HgV] & Hg); [|exists g; auto].
           exfalso. destruct Hg as [[HG Hg]|Hg].
           ++ subst G g1.
              rewrite bool_decide_eq_true_2 in Hdefault by reflexivity. discriminate.
           ++ apply Contains_In in Hg. congruence.
Qed.

(** [IsAppliedForGroups] holds exactly when the validator has no groups
    and the caller's list is empty or has the default group, or the
    validator has groups and one of them is in the caller's list, or the
    caller's list is empty and the default group is among the validator's. *)
Lemma IsAppliedForGroups_iff (validator : Validator) (G : list gostring) :
  IsAppliedForGroups validator G = true <->
  (groups validator = [] /\ (G = [] \/ In DefaultGroup G))
  \/ (groups validator <> []
      /\ ((exists g, In g (groups validator) /\ In g G)
          \/ (G = [] /\ In DefaultGroup (groups validator)))).
Proof.
  unfold IsAppliedForGroups.
  destruct (groups validator) as [|g1 V] eqn:HV.
  - simpl. split.
    + intros Hif. left. split; [reflexivity|].
      destruct (length G =? 0)%nat eqn:HG; [left; apply length_zero_iff, HG|].
      destruct (Contains G DefaultGroup) eqn:Hc; [|discriminate].
      right. apply Contains_In, Hc.
    + intros [[_ HG]|[Hne _]]; [|congruence].
      destruct HG as [->|Hin]; [reflexivity|].
      apply Contains_In in Hin. rewrite Hin.
      destruct (length G =? 0)%nat; reflexivity.
  - change ((length (g1 :: V) =? 0)%nat) with false. cbv beta iota.
    rewrite andb_false_l, appliedForAny_spec. split.
    + intros (g & HgV & Hg). right. split; [discriminate|].
      destruct Hg as [[HG ->]|Hg]; [right; auto|left; eauto].
    + intros [[Hnil _]|[_ [(g & HgV & HgG)|[HG Hd]]]]; [discriminate| |].
      * exists g. auto.
      * exists DefaultGroup. auto.
Qed.

End Groups.

(** ** Lists in the store *)

Section ListShape.
Context {Violation U : Type}.
Abbreviation Element := (ViolationListElementError Violation).
Abbreviation State := (@State Violation U).

Lemma seg_length (els : gmap loc Element) locs : forall e vs stop,
  seg els e locs vs stop -> length locs = length vs.
Proof.
  induction locs as [|l locs IH]; intros e [|v vs] stop Hseg; simpl in *;
    try tauto.
  destruct Hseg as (_ & nxt & _ & Hseg). f_equal. eauto.
Qed.

Lemma seg_singleton (els : gmap loc Element) l v stop :
  els !! l = Some (mkElement stop v) -> seg els (Some l) [l] [v] stop.
Proof. intros Hl. simpl. split; [reflexivity|]. exists stop. auto. Qed.

Lemma seg_head (els : gmap loc Element) locs e vs :
  seg els e locs vs None -> e = head locs.
Proof.
  destruct locs, vs; simpl; tauto.
Qed.

Lemma seg_frame (els els' : gmap loc Element) locs : forall e vs stop,
  seg els e locs vs stop ->
  (forall l, l ∈ locs -> els' !! l = els !! l) ->
  seg els' e locs vs stop.
Proof.
  induction locs as [|l locs IH]; intros e [|v vs] stop Hseg Hsame; simpl in *;
    try tauto.
  destruct Hseg as (-> & nxt & Hl & Hseg). split; [reflexivity|].
  exists nxt. split.
  - rewrite Hsame; [assumption|]. left.
  - apply IH; [assumption|]. intros l' Hl'. apply Hsame. right. assumption.
Qed.

Lemma seg_app (els : gmap loc Element) locs1 : forall e vs1 mid locs2 vs2 stop,
  seg els e locs1 vs1 mid ->
  seg els mid locs2 vs2 stop ->
  seg els e (locs1 ++ locs2) (vs1 ++ vs2) stop.
Proof.
  induction locs1 as [|l locs1 IH]; intros e [|v vs1] mid locs2 vs2 stop H1 H2;
    simpl in *; try tauto.
  - subst. assumption.
  - destruct H1 as (-> & nxt & Hl & H1). split; [reflexivity|].
    exists nxt. split; [assumption|]. eapply IH; eassumption.
Qed.

(** Redirecting the [next] of the last node moves the end of the segment. *)
Lemma seg_set_stop (els : gmap loc Element) locs : forall e vs stop stop' ll,
  seg els e locs vs stop ->
  NoDup locs ->
  lastOf locs = Some ll ->
  exists vl,
    els !! ll = Some (mkElement stop vl)
    /\ seg (<[ll := mkElement stop' vl]> els) e locs vs stop'.
Proof.
  induction locs as [|l locs IH]; intros e [|v vs] stop stop' ll Hseg Hnd Hlast;
    simpl in *; try tauto; try discriminate.
  destruct Hseg as (-> & nxt & Hl & Hseg).
  apply NoDup_cons in Hnd as [Hnotin Hnd].
  destruct locs as [|l2 locs].
  - destruct vs; simpl in Hseg; [|tauto]. subst nxt.
    injection Hlast as <-. exists v. split; [assumption|].
    split; [reflexivity|]. exists stop'. split; [apply lookup_insert_eq|reflexivity].
  - rewrite last_cons_cons in Hlast.
    destruct (IH nxt vs stop stop' ll Hseg Hnd Hlast) as (vl & Hll & Hseg').
    exists vl. split; [assumption|]. split; [reflexivity|].
    exists nxt. split; [|assumption].
    rewrite lookup_insert_ne; [assumption|].
    intros <-. apply Hnotin. eapply last_Some_elem_of. eassumption.
Qed.

Lemma seg_nodes_exist (els : gmap loc Element) locs : forall e vs stop l,
  seg els e locs vs stop -> l ∈ locs -> is_Some (els !! l).
Proof.
  induction locs as [|l0 locs IH]; intros e [|v vs] stop l Hseg Hin; simpl in *;
    try tauto; try (apply elem_of_nil in Hin; tauto).
  destruct Hseg as (-> & nxt & Hl & Hseg).
  apply elem_of_cons in Hin as [->|Hin]; [eauto|]. eapply IH; eassumption.
Qed.

Lemma is_list_frame (s s' : State) p locs vs n :
  is_list_len s p locs vs n ->
  lists s' !! p = lists s !! p ->
  (forall l, l ∈ locs -> elements s' !! l = elements s !! l) ->
  is_list_len s' p locs vs n.
Proof.
  intros (Hp & Hseg & Hnd) Hp' Hsame. split; [|split].
  - rewrite Hp'. assumption.
  - eapply seg_frame; eassumption.
  - assumption.
Qed.

Lemma is_list_extends (s s' : State) p locs vs n :
  is_list_len s p locs vs n -> extends s s' -> is_list_len s' p locs vs n.
Proof.
  intros Hlist [Hlists Hels]. pose proof Hlist as (Hp & Hseg & Hnd).
  eapply is_list_frame; [eassumption| |].
  - rewrite Hp. apply Hlists, Hp.
  - intros l Hl. destruct (seg_nodes_exist _ _ _ _ _ _ Hseg Hl) as [x Hx].
    rewrite Hx. apply Hels, Hx.
Qed.

Lemma extends_refl (s : State) : extends s s.
Proof. split; auto. Qed.

Lemma extends_trans (s1 s2 s3 : State) : extends s1 s2 -> extends s2 s3 -> extends s1 s3.
Proof. intros [H1 H2] [H3 H4]. split; auto. Qed.

End ListShape.

(** ** [Append], [Join] and the traversals *)

Section ListOps.
Context {Violation U : Type}.
Abbreviation St := (@State Violation U).

Lemma fresh_element (s : St) : elements s !! fresh (dom (elements s)) = None.
Proof. apply not_elem_of_dom, is_fresh. Qed.

Lemma fresh_list (s : St) : lists s !! fresh (dom (lists s)) = None.
Proof. apply not_elem_of_dom, is_fresh. Qed.

Lemma appendOne_spec (s : St) p locs vs n v :
  is_list_len s p locs vs n ->
  exists l s',
    appendOne (Some p) v s = Return tt s'
    /\ elements s !! l = None
    /\ is_list_len s' p (locs ++ [l]) (vs ++ [v]) n
    /\ frame p locs s s'.
Proof.
  intros (Hp & Hseg & Hnd).
  pose proof (fresh_element s) as Hfresh.
  set (l := fresh (dom (elements s))) in *.
  assert (Hnotin : l ∉ locs).
  { intros Hin. destruct (seg_nodes_exist _ _ _ _ _ _ Hseg Hin) as [x Hx]. congruence. }
  exists l. unfold appendOne, bind, newElement, loadList. simpl. fold l.
  rewrite Hp. simpl.
  destruct locs as [|l0 locs'].
  - destruct vs; simpl in Hseg; [|tauto]. simpl.
    unfold storeList. simpl. rewrite Hp.
    eexists. split; [reflexivity|]. split; [assumption|].
    split; [|split; [|split; [|split]]]; cbn [lists elements user].
    + split; [|split]; cbn [lists elements user].
      * apply lookup_insert_eq.
      * apply seg_singleton, lookup_insert_eq.
      * apply NoDup_singleton.
    + reflexivity.
    + intros q Hq. apply lookup_insert_ne. congruence.
    + intros l' _ [x Hx]. apply lookup_insert_ne. congruence.
    + intros l' [x Hx]. rewrite lookup_insert_ne by congruence. eauto.
  - simpl head. cbv beta iota.
    destruct (lastOf (l0 :: locs')) as [ll|] eqn:Hlast.
    2:{ apply last_None in Hlast. discriminate. }
    assert (Hll_in : ll ∈ l0 :: locs') by (eapply last_Some_elem_of; eassumption).
    assert (Hne : ll <> l) by (intros ->; contradiction).
    assert (Hseg1 : seg (<[l := mkElement None v]> (elements s)) (Some l0)
                      (l0 :: locs') vs None).
    { eapply seg_frame; [exact Hseg|]. intros l' Hl'.
      apply lookup_insert_ne. intros <-. contradiction. }
    destruct (seg_set_stop _ _ _ _ _ (Some l) _ Hseg1 Hnd Hlast) as (vl & Hll & Hseg2).
    unfold loadElement, storeElement, storeList. simpl. rewrite Hll. simpl.
    rewrite Hll. simpl. rewrite Hp.
    eexists. split; [reflexivity|]. split; [assumption|].
    change (l0 :: locs' ++ [l]) with ((l0 :: locs') ++ [l]).
    split; [|split; [|split; [|split]]]; cbn [lists elements user].
    + split; [|split]; cbn [lists elements user].
      * rewrite lookup_insert_eq, last_snoc. reflexivity.
      * eapply seg_app; [exact Hseg2|]. apply seg_singleton.
        rewrite lookup_insert_ne by assumption. apply lookup_insert_eq.
      * apply NoDup_app. split; [assumption|]. split; [|apply NoDup_singleton].
        intros x Hx Hx'. apply list_elem_of_singleton in Hx'. subst. contradiction.
    + reflexivity.
    + intros q Hq. apply lookup_insert_ne. congruence.
    + intros l' Hl' [x Hx]. rewrite !lookup_insert_ne; [reflexivity| |]; congruence.
    + intros l' [x Hx]. destruct (decide (ll = l')) as [->|].
      * rewrite lookup_insert_eq. eauto.
      * rewrite !lookup_insert_ne by congruence. eauto.
Qed.

Lemma frame_trans p locs new (s s1 s2 : St) :
  frame p locs s s1 ->
  frame p (locs ++ new) s1 s2 ->
  (forall l, l ∈ new -> elements s !! l = None) ->
  frame p locs s s2.
Proof.
  intros (Hu1 & Hl1 & He1 & Hm1) (Hu2 & Hl2 & He2 & Hm2) Hnew.
  split; [congruence|]. split; [|split].
  - intros q Hq. rewrite Hl2, Hl1 by assumption. reflexivity.
  - intros l Hl Hsome. rewrite He2, He1; auto.
    intros Hin. apply elem_of_app in Hin as [Hin|Hin]; [contradiction|].
    apply Hnew in Hin. destruct Hsome. congruence.
  - auto.
Qed.

Lemma frame_refl p locs (s : St) : frame p locs s s.
Proof. repeat split; auto. Qed.

Lemma appendEach_spec ws : forall (s : St) p locs vs n,
  is_list_len s p locs vs n ->
  exists new s',
    appendEach (Some p) ws s = Return tt s'
    /\ is_list_len s' p (locs ++ new) (vs ++ ws) n
    /\ (forall l, l ∈ new -> elements s !! l = None)
    /\ frame p locs s s'
    /\ length new = length ws.
Proof.
  induction ws as [|w ws IH]; intros s p locs vs n Hlist.
  - exists [], s. rewrite !app_nil_r. split; [reflexivity|]. split; [assumption|].
    split; [intros l Hl; apply elem_of_nil in Hl; tauto|].
    split; [apply frame_refl|reflexivity].
  - destruct (appendOne_spec s p locs vs n w Hlist) as (l & s1 & Hrun & Hfresh & Hlist1 & Hframe1).
    destruct (IH s1 p _ _ n Hlist1) as (new & s2 & Hrun2 & Hlist2 & Hfresh2 & Hframe2 & Hlen).
    exists (l :: new), s2. simpl. unfold bind. rewrite Hrun.
    rewrite <- !app_assoc in Hlist2. simpl in Hlist2.
    split; [assumption|]. split; [assumption|].
    assert (Hnew : forall l', l' ∈ l :: new -> elements s !! l' = None).
    { intros l' Hl'. apply elem_of_cons in Hl' as [->|Hl']; [assumption|].
      destruct (elements s !! l') eqn:Hx; [|reflexivity].
      destruct Hframe1 as (_ & _ & _ & Hm).
      destruct (Hm l' (ex_intro _ _ Hx)) as [y Hy].
      rewrite (Hfresh2 l' Hl') in Hy. discriminate. }
    split; [assumption|]. split; [|simpl; congruence].
    eapply frame_trans with (new := [l]); [eassumption| |].
    + destruct Hframe2 as (Hu & Hl & He & Hm). repeat split; auto.
    + intros l' Hl'. apply list_elem_of_singleton in Hl'. subst. assumption.
Qed.

(** [Append] adds the violations at the end, in order, in new nodes. *)
Lemma Append_spec (s : St) p locs vs ws :
  is_list s p locs vs ->
  exists new s',
    Append (Some p) ws s = Return tt s'
    /\ is_list s' p (locs ++ new) (vs ++ ws)
    /\ (forall l, l ∈ new -> elements s !! l = None)
    /\ frame p locs s s'
    /\ length new = length ws.
Proof.
  intros Hlist.
  destruct (appendEach_spec ws s p locs vs _ Hlist)
    as (new & s1 & Hrun & (Hp & Hseg & Hnd) & Hfresh & Hframe & Hlen).
  exists new. unfold Append, bind. rewrite Hrun.
  unfold loadList, storeList. rewrite Hp. simpl. rewrite Hp.
  eexists. split; [reflexivity|].
  split; [|split; [assumption|split; [|assumption]]].
  - split; [|split]; cbn [lists elements user]; [|assumption|assumption].
    rewrite lookup_insert_eq, length_app, Nat2Z.inj_add. reflexivity.
  - destruct Hframe as (Hu & Hl & He & Hm).
    repeat split; cbn [lists elements user]; auto.
    intros q Hq. rewrite lookup_insert_ne by congruence. auto.
Qed.

Lemma seg_nil_inv (els : gmap loc (ViolationListElementError Violation)) e locs stop :
  seg els e locs [] stop -> locs = [].
Proof. destruct locs; simpl; tauto. Qed.

(** [Join] splices the nodes of another list, which shares none with the
    receiver, after the receiver's. *)
Lemma Join_spec (s : St) p locs vs q locs2 ws :
  is_list s p locs vs ->
  is_list s q locs2 ws ->
  (forall l, l ∈ locs -> l ∉ locs2) ->
  exists s',
    Join (Some p) (Some q) s = Return tt s'
    /\ is_list s' p (locs ++ locs2) (vs ++ ws)
    /\ frame p locs s s'.
Proof.
  intros (Hp & Hseg & Hnd) (Hq & Hseg2 & Hnd2) Hdisj.
  unfold Join, bind, loadList. rewrite Hq. cbn [len].
  destruct ws as [|w ws].
  - apply seg_nil_inv in Hseg2. subst locs2. simpl. exists s.
    rewrite !app_nil_r. split; [reflexivity|].
    split; [repeat split; assumption|apply frame_refl].
  - destruct (Z.eqb_spec (Z.of_nat (length (w :: ws))) 0) as [Hz|_]; [simpl in Hz; lia|].
    rewrite Hp. cbn [first last len].
    assert (Hlen : Z.of_nat (length vs) + Z.of_nat (length (w :: ws))
                   = Z.of_nat (length (vs ++ w :: ws))).
    { rewrite length_app. lia. }
    destruct locs2 as [|l2 locs2']; [simpl in Hseg2; tauto|].
    destruct locs as [|l0 locs'].
    + destruct vs; [|simpl in Hseg; tauto].
      cbn [hd_error]. unfold storeList. rewrite Hp.
      eexists. split; [reflexivity|]. split.
      * split; [|split]; cbn [lists elements user]; [|assumption|assumption].
        rewrite lookup_insert_eq. reflexivity.
      * repeat split; cbn [lists elements user]; auto.
        intros q' Hq'. apply lookup_insert_ne. congruence.
    + cbn [hd_error].
      destruct (lastOf (l0 :: locs')) as [ll|] eqn:Hlast.
      2:{ apply last_None in Hlast. discriminate. }
      assert (Hll_in : ll ∈ l0 :: locs') by (eapply last_Some_elem_of; eassumption).
      destruct (seg_set_stop _ _ _ _ _ (head (l2 :: locs2')) _ Hseg Hnd Hlast)
        as (vl & Hll & Hseg').
      unfold loadElement, storeElement, storeList. rewrite Hll. cbn [violation].
      cbn [elements lists user]. rewrite Hll. cbn [elements lists user]. rewrite Hp.
      eexists. split; [reflexivity|]. split.
      * split; [|split]; cbn [lists elements user].
        -- rewrite lookup_insert_eq, Hlen. do 2 f_equal.
           rewrite last_app. destruct (lastOf (l2 :: locs2')) eqn:Hl2; [reflexivity|].
           apply last_None in Hl2. discriminate.
        -- eapply seg_app; [exact Hseg'|].
           eapply seg_frame; [exact Hseg2|]. intros l Hl.
           apply lookup_insert_ne. intros <-. eapply Hdisj; eassumption.
        -- apply NoDup_app. split; [assumption|]. split; [|assumption].
           intros x Hx. apply Hdisj, Hx.
      * repeat split; cbn [lists elements user]; auto.
        -- intros q' Hq'. apply lookup_insert_ne. congruence.
        -- intros l Hl Hsome. apply lookup_insert_ne. congruence.
        -- intros l [x Hx]. destruct (decide (ll = l)) as [->|].
           ++ rewrite lookup_insert_eq. eauto.
           ++ rewrite lookup_insert_ne by assumption. eauto.
Qed.

Lemma Len_spec (s : St) p locs vs :
  is_list s p locs vs -> Len (Some p) s = Return (Z.of_nat (length vs)) s.
Proof.
  intros (Hp & _). unfold Len, bind, loadList. rewrite Hp. reflexivity.
Qed.

Lemma asSliceFrom_spec locs : forall fuel e vs i acc (s : St),
  seg (elements s) e locs vs None ->
  length acc = (i + length vs)%nat ->
  (length vs <= fuel)%nat ->
  asSliceFrom fuel e i acc s = Return (take i acc ++ map Some vs) s.
Proof.
  induction locs as [|l locs IH]; intros fuel e [|v vs] i acc s Hseg Hlen Hfuel;
    simpl in Hseg; try tauto.
  - subst e. simpl in Hlen. rewrite take_ge by lia. rewrite app_nil_r.
    destruct fuel; reflexivity.
  - destruct Hseg as (-> & nxt & Hl & Hseg).
    destruct fuel as [|fuel]; [simpl in Hfuel; lia|].
    simpl in Hlen, Hfuel. simpl. unfold bind, loadElement. rewrite Hl.
    cbn [violation next].
    destruct (Nat.ltb_spec i (length acc)) as [Hi|Hi]; [|lia].
    rewrite (IH fuel nxt vs (S i) _ s Hseg).
    + rewrite (take_S_r _ _ (Some v)) by (apply list_lookup_insert_eq; lia).
      rewrite take_insert_ge by lia. rewrite <- app_assoc. reflexivity.
    + rewrite length_insert. lia.
    + lia.
Qed.

(** [AsSlice] returns the violations of a well-formed list, in order. *)
Lemma AsSlice_spec (s : St) p locs vs fuel :
  is_list s p locs vs ->
  (length vs <= fuel)%nat ->
  AsSlice fuel (Some p) s = Return (map Some vs) s.
Proof.
  intros (Hp & Hseg & Hnd) Hfuel. unfold AsSlice, bind, loadList. rewrite Hp.
  cbn [len first].
  destruct (Z.ltb_spec (Z.of_nat (length vs)) 0) as [Hneg|_]; [lia|].
  rewrite Nat2Z.id.
  rewrite (asSliceFrom_spec locs fuel _ vs 0 _ s Hseg); [reflexivity| |assumption].
  rewrite length_replicate. reflexivity.
Qed.

End ListOps.

Section Iteration.
Context {Violation U : Type}.
Abbreviation St := (@State Violation U).

Lemma forEachFrom_spec f locs : forall fuel e vs i (s : St),
  keeps_store f ->
  seg (elements s) e locs vs None ->
  (length vs <= fuel)%nat ->
  forEachFrom fuel f e i s = forEachList f i vs s.
Proof.
  induction locs as [|l locs IH]; intros fuel e [|v vs] i s Hf Hseg Hfuel;
    simpl in Hseg; try tauto.
  - subst e. destruct fuel; reflexivity.
  - destruct Hseg as (-> & nxt & Hl & Hseg).
    destruct fuel as [|fuel]; [simpl in Hfuel; lia|].
    simpl in Hfuel. simpl. unfold bind, loadElement. rewrite Hl.
    cbn [violation next]. pose proof (Hf i v s) as Hkeep.
    destruct (f i v s) as [[err|] s'| |]; try reflexivity.
    destruct Hkeep as [_ Hels]. rewrite Hels, Hl. cbn [next].
    apply IH; [assumption| |lia].
    rewrite Hels. assumption.
Qed.

(** [ForEach] calls back on the violations of a well-formed list in order. *)
Lemma ForEach_spec f (s : St) p locs vs fuel :
  keeps_store f ->
  is_list s p locs vs ->
  (length vs <= fuel)%nat ->
  ForEach fuel (Some p) f s = forEachList f 0 vs s.
Proof.
  intros Hf (Hp & Hseg & Hnd) Hfuel. unfold ForEach, bind, loadList.
  rewrite Hp. cbn [first]. eapply forEachFrom_spec; eassumption.
Qed.

End Iteration.

Section AppendJoin.
Context {Violation U : Type}.
Abbreviation St := (@State Violation U).

(** C9. [Append] of the [N] violations [vs] followed by [Join] with a
    distinct list holding the [M] violations [ws] leaves a list whose [Len]
    is [N+M] more than before, hence [N+M] on a list that was empty, and
    which [AsSlice] and [ForEach] traverse in the order of what the list
    held ([cs]), then [vs], then [ws]. *)
Theorem append_then_join (s : St) p locs cs vs q locs2 ws f fuel :
  is_list s p locs cs ->
  is_list s q locs2 ws ->
  p <> q ->
  (forall l, l ∈ locs -> l ∉ locs2) ->
  keeps_store f ->
  (length (cs ++ vs ++ ws) <= fuel)%nat ->
  exists s1 s2,
    Append (Some p) vs s = Return tt s1
    /\ Join (Some p) (Some q) s1 = Return tt s2
    /\ Len (Some p) s2
       = Return (Z.of_nat (length cs) + Z.of_nat (length vs) + Z.of_nat (length ws)) s2
    /\ (cs = [] ->
        Len (Some p) s2 = Return (Z.of_nat (length vs) + Z.of_nat (length ws)) s2)
    /\ AsSlice fuel (Some p) s2 = Return (map Some (cs ++ vs ++ ws)) s2
    /\ ForEach fuel (Some p) f s2 = forEachList f 0 (cs ++ vs ++ ws) s2.
Proof.
  intros Hp Hq Hne Hdisj Hf Hfuel.
  destruct (Append_spec s p locs cs vs Hp) as (new & s1 & Happ & Hp1 & Hfresh & Hframe & _).
  assert (Hq1 : is_list s1 q locs2 ws).
  { destruct Hframe as (_ & Hl & He & _). pose proof Hq as (_ & Hseg & _).
    eapply is_list_frame; [exact Hq|auto|].
    intros l Hl2. apply He.
    - intros Hin. eapply Hdisj; eassumption.
    - eapply seg_nodes_exist; eassumption. }
  assert (Hdisj1 : forall l, l ∈ locs ++ new -> l ∉ locs2).
  { intros l Hin Hin2. apply elem_of_app in Hin as [Hin|Hin].
    - eapply Hdisj; eassumption.
    - pose proof Hq as (_ & Hseg & _).
      destruct (seg_nodes_exist _ _ _ _ _ _ Hseg Hin2) as [x Hx].
      rewrite (Hfresh l Hin) in Hx. discriminate. }
  destruct (Join_spec s1 p _ _ q locs2 ws Hp1 Hq1 Hdisj1) as (s2 & Hjoin & Hp2 & _).
  rewrite <- (app_assoc cs) in Hp2.
  exists s1, s2. split; [assumption|]. split; [assumption|].
  assert (Hlen : Len (Some p) s2
                 = Return (Z.of_nat (length cs) + Z.of_nat (length vs)
                           + Z.of_nat (length ws)) s2).
  { rewrite (Len_spec s2 p _ _ Hp2). f_equal. rewrite !length_app. lia. }
  split; [exact Hlen|]. split; [|split].
  - intros ->. exact Hlen.
  - eapply AsSlice_spec; eassumption.
  - eapply ForEach_spec; eassumption.
Qed.

End AppendJoin.

Lemma sampleStore_list1 : is_list sampleStore 1%positive [1%positive] [10%nat].
Proof.
  split; [reflexivity|]. split; [apply seg_singleton; reflexivity|apply NoDup_singleton].
Qed.

Lemma sampleStore_list2 :
  is_list sampleStore 2%positive [2%positive; 3%positive] [20%nat; 30%nat].
Proof.
  split; [reflexivity|]. split.
  - simpl. split; [reflexivity|]. eexists. split; [reflexivity|].
    split; [reflexivity|]. eexists. split; reflexivity.
  - compute_done.
Qed.

Lemma sampleStore_list3 : is_list sampleStore 3%positive [] [].
Proof. split; [reflexivity|]. split; [reflexivity|apply NoDup_nil_2]. Qed.

Lemma append_then_join_witness :
  exists s1 s2,
    Append (Some 3%positive) [11%nat; 12%nat] sampleStore = Return tt s1
    /\ Join (Some 3%positive) (Some 2%positive) s1 = Return tt s2
    /\ Len (Some 3%positive) s2 = Return (0 + 2 + 2) s2
    /\ (@nil nat = [] -> Len (Some 3%positive) s2 = Return (2 + 2) s2)
    /\ AsSlice 4 (Some 3%positive) s2
       = Return (map Some ([] ++ [11; 12] ++ [20; 30])%nat) s2
    /\ ForEach 4 (Some 3%positive) (fun _ _ => ret None) s2
       = forEachList (fun _ _ => ret None) 0 ([] ++ [11; 12] ++ [20; 30])%nat s2.
Proof.
  apply (append_then_join sampleStore 3%positive [] [] [11%nat; 12%nat]
           2%positive [2%positive; 3%positive] [20%nat; 30%nat]
           (fun _ _ => ret None) 4%nat).
  - exact sampleStore_list3.
  - exact sampleStore_list2.
  - discriminate.
  - intros l Hl. apply elem_of_nil in Hl. tauto.
  - intros i v s. simpl. auto.
  - simpl. lia.
Defined.

(** ** [Filter] *)

Section FilterFacts.
Context {Violation U : Type} `{!ViolationMethods Violation}.
Abbreviation St := (@State Violation U).

Lemma frame_fresh p locs (s s' : St) l :
  frame p locs s s' -> elements s' !! l = None -> elements s !! l = None.
Proof.
  intros (_ & _ & _ & Hm) Hnone.
  destruct (elements s !! l) eqn:Hx; [|reflexivity].
  destruct (Hm l (ex_intro _ _ Hx)) as [y Hy]. congruence.
Qed.

Lemma filterKinds_spec v errs : forall (s : St) q locs ws,
  is_list s q locs ws ->
  exists new s',
    filterKinds (Some q) v errs s = Return tt s'
    /\ is_list s' q (locs ++ new) (ws ++ matchingKinds v errs)
    /\ (forall l, l ∈ new -> elements s !! l = None)
    /\ frame q locs s s'.
Proof.
  induction errs as [|err errs IH]; intros s q locs ws Hq.
  - exists [], s. simpl. rewrite !app_nil_r.
    split; [reflexivity|]. split; [assumption|].
    split; [intros l Hl; apply elem_of_nil in Hl; tauto|apply frame_refl].
  - simpl. unfold bind. unfold matchingKinds. simpl.
    fold (matchingKinds v errs).
    destruct (Violation_Is v err).
    + destruct (Append_spec s q locs ws [v] Hq) as (new1 & s1 & Hrun & Hq1 & Hfresh1 & Hframe1 & _).
      rewrite Hrun.
      destruct (IH s1 q _ _ Hq1) as (new2 & s2 & Hrun2 & Hq2 & Hfresh2 & Hframe2).
      exists (new1 ++ new2), s2. rewrite Hrun2.
      rewrite <- !app_assoc in Hq2. simpl in Hq2.
      split; [reflexivity|]. split; [rewrite app_assoc at 1; rewrite <- app_assoc; exact Hq2|].
      assert (Hnew : forall l, l ∈ new1 ++ new2 -> elements s !! l = None).
      { intros l Hl. apply elem_of_app in Hl as [Hl|Hl]; [auto|].
        eapply frame_fresh; [exact Hframe1|auto]. }
      split; [assumption|].
      eapply frame_trans; [exact Hframe1|exact Hframe2|].
      intros l Hl. apply Hnew, elem_of_app. left. assumption.
    + simpl. apply IH. assumption.
Qed.

Lemma filterFrom_spec errs locs : forall fuel e vs (s : St) q locs_q ws,
  seg (elements s) e locs vs None ->
  is_list s q locs_q ws ->
  (forall l, l ∈ locs -> l ∉ locs_q) ->
  (length vs <= fuel)%nat ->
  exists new s',
    filterFrom fuel (Some q) e errs s = Return tt s'
    /\ is_list s' q (locs_q ++ new) (ws ++ filterList vs errs)
    /\ (forall l, l ∈ new -> elements s !! l = None)
    /\ frame q locs_q s s'.
Proof.
  induction locs as [|l locs IH]; intros fuel e [|v vs] s q locs_q ws Hseg Hq Hdisj Hfuel;
    simpl in Hseg; try tauto.
  - subst e. exists [], s. rewrite !app_nil_r.
    split; [destruct fuel; reflexivity|]. split; [assumption|].
    split; [intros l Hl; apply elem_of_nil in Hl; tauto|apply frame_refl].
  - destruct Hseg as (-> & nxt & Hl & Hseg).
    destruct fuel as [|fuel]; [simpl in Hfuel; lia|]. simpl in Hfuel.
    simpl. unfold bind at 1. unfold loadElement at 1. rewrite Hl. cbn [violation].
    destruct (filterKinds_spec v errs s q locs_q ws Hq)
      as (new1 & s1 & Hrun & Hq1 & Hfresh1 & Hframe1).
    unfold bind at 1. rewrite Hrun.
    assert (Hsame : forall l', l' ∈ l :: locs -> elements s1 !! l' = elements s !! l').
    { intros l' Hl'. destruct Hframe1 as (_ & _ & He & _). apply He.
      - apply Hdisj, Hl'.
      - apply elem_of_cons in Hl' as [->|Hl']; [eauto|].
        eapply seg_nodes_exist; eassumption. }
    unfold bind at 1. unfold loadElement. rewrite Hsame by left. rewrite Hl.
    cbn [next].
    assert (Hseg1 : seg (elements s1) nxt locs vs None).
    { eapply seg_frame; [exact Hseg|]. intros l' Hl'. apply Hsame. right. assumption. }
    assert (Hdisj1 : forall l', l' ∈ locs -> l' ∉ locs_q ++ new1).
    { intros l' Hl' Hin. apply elem_of_app in Hin as [Hin|Hin].
      - eapply Hdisj; [right; exact Hl'|assumption].
      - destruct (seg_nodes_exist _ _ _ _ _ _ Hseg Hl') as [x Hx].
        rewrite (Hfresh1 l' Hin) in Hx. discriminate. }
    destruct (IH fuel nxt vs s1 q _ _ Hseg1 Hq1 Hdisj1 ltac:(lia))
      as (new2 & s2 & Hrun2 & Hq2 & Hfresh2 & Hframe2).
    exists (new1 ++ new2), s2. rewrite Hrun2.
    split; [reflexivity|].
    split; [rewrite app_assoc; simpl; rewrite app_assoc; exact Hq2|].
    assert (Hnew : forall l', l' ∈ new1 ++ new2 -> elements s !! l' = None).
    { intros l' Hl'. apply elem_of_app in Hl' as [Hl'|Hl']; [auto|].
      eapply frame_fresh; [exact Hframe1|auto]. }
    split; [assumption|].
    eapply frame_trans; [exact Hframe1|exact Hframe2|].
    intros l' Hl'. apply Hnew, elem_of_app. left. assumption.
Qed.

(** C10. [Filter] leaves the receiver as it was and returns a new list
    that holds, in the receiver's order, one copy of each violation for
    each of the given kinds that the violation [Is]: twice for a violation
    that is two of the kinds, and nothing when no kind is given. *)
Theorem Filter_spec :
  (forall (s : St) p locs vs fuel errs,
     is_list s p locs vs ->
     (length vs <= fuel)%nat ->
     exists q locs' s',
       Filter fuel (Some p) errs s = Return (Some q) s'
       /\ lists s !! q = None
       /\ (forall l, l ∈ locs' -> elements s !! l = None)
       /\ is_list s' q locs' (filterList vs errs)
       /\ extends s s' /\ user s' = user s
       /\ is_list s' p locs vs)
  /\ (forall v k1 k2,
        Violation_Is v k1 = true -> Violation_Is v k2 = true ->
        filterList [v] [k1; k2] = [v; v])
  /\ (forall vs, filterList vs [] = []).
Proof.
  split; [|split].
  - intros s p locs vs fuel errs Hp Hfuel.
    pose proof (fresh_list s) as Hfresh.
    set (q := fresh (dom (lists s))) in *.
    set (s0 := mkState (<[q := mkList None None 0]> (lists s)) (elements s) (user s)).
    assert (Hpq : p <> q) by (destruct Hp as (Hp & _); intros ->; congruence).
    assert (Hp0 : is_list s0 p locs vs).
    { eapply is_list_frame; [exact Hp| |reflexivity].
      apply lookup_insert_ne. congruence. }
    assert (Hq0 : is_list s0 q [] []).
    { split; [apply lookup_insert_eq|]. split; [reflexivity|apply NoDup_nil_2]. }
    pose proof Hp0 as (Hhdr & Hseg & _).
    destruct (filterFrom_spec errs locs fuel _ vs s0 q [] [] Hseg Hq0)
      as (locs' & s' & Hrun & Hq' & Hnew & Hframe); [|assumption|].
    { intros l _ Hl. apply elem_of_nil in Hl. tauto. }
    exists q, locs', s'. unfold Filter, bind, newList. fold q. fold s0.
    unfold loadList. rewrite Hhdr. cbn [first]. rewrite Hrun.
    simpl in Hq'. destruct Hframe as (Hu & Hl & He & Hm).
    assert (Hext : extends s s').
    { split.
      - intros q' x Hx. rewrite Hl by (intros ->; congruence).
        unfold s0. cbn [lists]. rewrite lookup_insert_ne by (intros ->; congruence).
        assumption.
      - intros l x Hx. rewrite He; [assumption| |eauto].
        intros Hin. apply elem_of_nil in Hin. tauto. }
    split; [reflexivity|]. split; [assumption|]. split; [assumption|].
    split; [assumption|]. split; [assumption|]. split; [assumption|].
    exact (is_list_extends _ _ _ _ _ _ Hp Hext).
  - intros v k1 k2 H1 H2. unfold filterList, matchingKinds. simpl.
    rewrite H1, H2. reflexivity.
  - intros vs. unfold filterList, matchingKinds. induction vs; simpl; auto.
Qed.

End FilterFacts.

Lemma Filter_spec_witness :
  exists q locs' s',
    @Filter nat unit dividesKinds 2 (Some 2%positive)
      [Some (PlainError 2); Some (PlainError 3)] sampleStore = Return (Some q) s'
    /\ lists sampleStore !! q = None
    /\ (forall l, l ∈ locs' -> elements sampleStore !! l = None)
    /\ is_list s' q locs' [20; 30; 30]%nat
    /\ extends sampleStore s' /\ user s' = user sampleStore
    /\ is_list s' 2%positive [2%positive; 3%positive] [20%nat; 30%nat].
Proof.
  apply (proj1 (@Filter_spec nat unit dividesKinds) sampleStore 2%positive
           [2%positive; 3%positive] [20%nat; 30%nat] 2%nat
           [Some (PlainError 2); Some (PlainError 3)]).
  - exact sampleStore_list2.
  - simpl. lia.
Defined.

(** ** [AppendFromError] *)

Section AppendFromErrorFacts.
Context {Violation U : Type}.
Abbreviation St := (@State Violation U).

(** C1. [AppendFromError] on a nil error changes nothing and returns nil;
    on an error that unwraps to a violation it appends the violation and
    returns nil; failing that, on an error that unwraps to a list it joins
    the list (nothing, for a nil list pointer) and returns nil; on any other
    error it changes nothing and returns the error itself. *)
Theorem AppendFromError_spec :
  (forall (s : St) lst, AppendFromError lst None s = Return None s)
  /\ (forall (s : St) p locs cs err v,
        is_list s p locs cs ->
        UnwrapViolation (Some err) = Some v ->
        exists l s',
          AppendFromError (Some p) (Some err) s = Return None s'
          /\ elements s !! l = None
          /\ is_list s' p (locs ++ [l]) (cs ++ [v])
          /\ frame p locs s s')
  /\ (forall (s : St) p locs cs err q locs2 ws,
        is_list s p locs cs ->
        UnwrapViolation (Some err) = None ->
        UnwrapViolationList (Some err) = Some (Some q) ->
        is_list s q locs2 ws ->
        (forall l, l ∈ locs -> l ∉ locs2) ->
        exists s',
          AppendFromError (Some p) (Some err) s = Return None s'
          /\ is_list s' p (locs ++ locs2) (cs ++ ws)
          /\ frame p locs s s')
  /\ (forall (s : St) lst err,
        UnwrapViolation (Some err) = None ->
        UnwrapViolationList (Some err) = Some None ->
        AppendFromError lst (Some err) s = Return None s)
  /\ (forall (s : St) lst err,
        UnwrapViolation (Some err) = None ->
        UnwrapViolationList (Some err) = None ->
        AppendFromError lst (Some err) s = Return (Some err) s).
Proof.
  split; [reflexivity|]. split; [|split; [|split]].
  - intros s p locs cs err v Hp Hv. unfold AppendFromError. rewrite Hv.
    destruct (Append_spec s p locs cs [v] Hp) as (new & s' & Hrun & Hp' & Hfresh & Hframe & Hlen).
    destruct new as [|l [|? ?]]; try discriminate.
    exists l, s'. unfold bind. rewrite Hrun.
    split; [reflexivity|]. split; [apply Hfresh; left|]. split; assumption.
  - intros s p locs cs err q locs2 ws Hp Hv Hl Hq Hdisj.
    unfold AppendFromError. rewrite Hv, Hl.
    destruct (Join_spec s p locs cs q locs2 ws Hp Hq Hdisj) as (s' & Hrun & Hp' & Hframe).
    exists s'. unfold bind. rewrite Hrun. auto.
  - intros s lst err Hv Hl. unfold AppendFromError. rewrite Hv, Hl. reflexivity.
  - intros s lst err Hv Hl. unfold AppendFromError. rewrite Hv, Hl. reflexivity.
Qed.

End AppendFromErrorFacts.

Lemma AppendFromError_spec_witness :
  (exists l s',
     AppendFromError (Some 1%positive)
       (Some (WrapError 7 (Some (ViolationError 99%nat None)))) sampleStore
     = Return None s'
     /\ elements sampleStore !! l = None
     /\ is_list s' 1%positive ([1%positive] ++ [l]) ([10] ++ [99])%nat
     /\ frame 1%positive [1%positive] sampleStore s')
  /\ (exists s',
        AppendFromError (Some 1%positive)
          (Some (WrapError 8 (Some (ListError (Some 2%positive))))) sampleStore
        = Return None s'
        /\ is_list s' 1%positive ([1%positive] ++ [2%positive; 3%positive])
             ([10] ++ [20; 30])%nat
        /\ frame 1%positive [1%positive] sampleStore s')
  /\ AppendFromError (Some 1%positive) (Some (ListError None)) sampleStore
     = Return None sampleStore
  /\ AppendFromError (Some 1%positive) (Some (JoinError 3 [None; Some (PlainError 5)]))
       sampleStore
     = Return (Some (JoinError 3 [None; Some (PlainError 5)])) sampleStore.
Proof.
  destruct (@AppendFromError_spec nat unit) as (_ & Hviolation & Hlist & Hnil & Hfault).
  split; [|split; [|split]].
  - apply Hviolation; [exact sampleStore_list1|reflexivity].
  - apply (Hlist _ _ _ _ _ 2%positive);
      [exact sampleStore_list1|reflexivity|reflexivity|exact sampleStore_list2|].
    intros l Hl Hl2. apply list_elem_of_singleton in Hl. subst.
    revert Hl2. compute_done.
  - apply Hnil; reflexivity.
  - apply Hfault; reflexivity.
Defined.

(** ** Combinators *)

Section Combinators.
Context {Violation U : Type}.
Abbreviation St := (@State Violation U).
Abbreviation Validator := (@Validator Violation).
Abbreviation Argument := (@Argument Violation U).

Lemma validateOf_Sequential path (arguments : list Argument) isIgnored
  (v : Validator) :
  validateOf (SequentialArgument path arguments isIgnored) v =
  combinator isIgnored (fun violations => sequentialLoop violations (runEach v arguments)).
Proof. reflexivity. Qed.

Lemma validateOf_AtLeastOneOf path (arguments : list Argument) isIgnored
  (v : Validator) :
  validateOf (AtLeastOneOfArgument path arguments isIgnored) v =
  combinator isIgnored (fun violations => atLeastOneOfLoop violations (runEach v arguments)).
Proof. reflexivity. Qed.

Lemma combinator_run loop (s : St) :
  combinator false loop s = loop (Some (newListLoc s)) (withNewList s).
Proof. reflexivity. Qed.

Lemma withNewList_is_list (s : St) : is_list (withNewList s) (newListLoc s) [] [].
Proof.
  split; [apply lookup_insert_eq|]. split; [reflexivity|apply NoDup_nil_2].
Qed.

(** Absorbing an error into a well-formed list that shares no node with it. *)
Lemma absorb_spec (s : St) p locs vs err locs2 ws :
  is_list s p locs vs ->
  carries s err locs2 ws ->
  (forall l, l ∈ locs -> l ∉ locs2) ->
  exists new s',
    AppendFromError (Some p) (Some err) s = Return None s'
    /\ is_list s' p (locs ++ new) (vs ++ ws)
    /\ frame p locs s s'
    /\ (forall l, l ∈ new -> l ∈ locs2 \/ elements s !! l = None).
Proof.
  intros Hp [(w & Hw & -> & ->)|(Hv & q & Hq & Hlist)] Hdisj;
    unfold AppendFromError, bind.
  - rewrite Hw.
    destruct (Append_spec s p locs vs [w] Hp) as (new & s' & Hrun & Hp' & Hfresh & Hframe & _).
    exists new, s'. rewrite Hrun. auto 6.
  - rewrite Hv, Hq.
    destruct (Join_spec s p locs vs q locs2 ws Hp Hlist Hdisj) as (s' & Hrun & Hp' & Hframe).
    exists locs2, s'. rewrite Hrun. auto 6.
Qed.

Lemma sequentialLoop_passes (v : Validator) p tail args : forall (s s' : St),
  is_list s p [] [] ->
  passes v args s s' ->
  sequentialLoop (Some p) (runEach v (args ++ tail)) s
  = sequentialLoop (Some p) (runEach v tail) s'
  /\ is_list s' p [] [].
Proof.
  intros s s' Hp Hpass. induction Hpass as [s|a args s s1 s' Hrun Hext _ IH].
  - auto.
  - assert (Hp1 : is_list s1 p [] []) by exact (is_list_extends _ _ _ _ _ _ Hp Hext).
    destruct (IH Hp1) as [Heq Hp']. split; [|assumption].
    rewrite <- Heq. simpl. unfold bind at 1. rewrite Hrun.
    unfold bind. simpl. unfold loadList. destruct Hp1 as (-> & _). reflexivity.
Qed.

(** C4. [Sequential] validates its arguments in order.  When those before
    [a] return nil and [a] returns an error that carries the violations
    [ws], not empty, the combinator returns a list that holds [ws], in the
    state [a] left but for that list: whatever arguments come after [a],
    none of them has run.  When [a] returns a fault instead, the combinator
    returns no list and the fault, in the state [a] left. *)
Theorem Sequential_stops_at_first_failure (v : Validator) path pre a rest
  (s0 s2 s3 : St) err :
  passes v pre (withNewList s0) s2 ->
  Validate v [a] s2 = Return (Some err) s3 ->
  extends s2 s3 ->
  (forall locs ws,
     carries s3 err locs ws -> ws <> [] ->
     exists locs' s4,
       validateOf (SequentialArgument path (pre ++ a :: rest) false) v s0
       = Return (Some (newListLoc s0), None) s4
       /\ is_list s4 (newListLoc s0) locs' ws
       /\ frame (newListLoc s0) [] s3 s4)
  /\ (is_fault err ->
      validateOf (SequentialArgument path (pre ++ a :: rest) false) v s0
      = Return (None, Some err) s3).
Proof.
  intros Hpass Hrun Hext.
  destruct (sequentialLoop_passes v _ (a :: rest) pre _ _ (withNewList_is_list s0) Hpass)
    as [Hloop Hp2].
  assert (Hp3 : is_list s3 (newListLoc s0) [] [])
    by exact (is_list_extends _ _ _ _ _ _ Hp2 Hext).
  rewrite validateOf_Sequential, combinator_run, Hloop.
  split.
  - intros locs ws Hcarries Hne.
    destruct (absorb_spec s3 _ [] [] err locs ws Hp3 Hcarries)
      as (new & s4 & Happend & Hp4 & Hframe & _).
    { intros l Hl. apply elem_of_nil in Hl. tauto. }
    exists new, s4. simpl. unfold bind at 1. rewrite Hrun.
    unfold bind at 1. rewrite Happend. unfold bind, loadList.
    pose proof Hp4 as (Hhdr & _). rewrite Hhdr. cbn [len].
    destruct (Z.ltb_spec 0 (Z.of_nat (length ([] ++ ws)))) as [_|Hz].
    + auto.
    + destruct ws; [congruence|simpl in Hz; lia].
  - intros [Hv Hl]. simpl. unfold bind at 1. rewrite Hrun.
    unfold bind, AppendFromError. rewrite Hv, Hl. reflexivity.
Qed.

Lemma atLeastOneOfLoop_fails (v : Validator) p tail args :
  forall (s s' : St) wss locs vs,
  is_list s p locs vs ->
  fails v p args s wss s' ->
  atLeastOneOfLoop (Some p) (runEach v (args ++ tail)) s
  = atLeastOneOfLoop (Some p) (runEach v tail) s'
  /\ exists locs', is_list s' p locs' (vs ++ concat wss).
Proof.
  intros s s' wss locs vs Hp Hfails. revert locs vs Hp.
  induction Hfails as [s|a args s s1 s' err locs2 ws wss Hrun Hext Hcarries Hfresh _ IH];
    intros locs vs Hp.
  - simpl. rewrite app_nil_r. eauto.
  - assert (Hp1 : is_list s1 p locs vs) by exact (is_list_extends _ _ _ _ _ _ Hp Hext).
    destruct (absorb_spec s1 p locs vs err locs2 ws Hp1 Hcarries)
      as (new & s2 & Happend & Hp2 & _ & _).
    { intros l Hl Hl2. pose proof Hp as (_ & Hseg & _).
      destruct (seg_nodes_exist _ _ _ _ _ _ Hseg Hl) as [x Hx].
      rewrite (Hfresh l Hl2) in Hx. discriminate. }
    assert (Hafter : afterAppend p err s1 = s2) by (unfold afterAppend; rewrite Happend; reflexivity).
    rewrite Hafter in IH. destruct (IH _ _ Hp2) as [Heq (locs' & Hp')].
    split.
    + rewrite <- Heq. simpl. unfold bind at 1. rewrite Hrun.
      unfold bind at 1. rewrite Happend. reflexivity.
    + exists locs'. simpl. rewrite app_assoc. assumption.
Qed.

(** C5, as the code has it.  [AtLeastOneOf] validates its arguments in
    order, and what counts as success is a nil error.  When those before
    [a] each return an error, not nil, that carries violations (an empty
    list given as the error carries none, and is no success) and [a]
    returns nil, the combinator returns a new empty list in the state [a]
    left: whatever arguments come after [a], none of them has run.  When
    every argument returns an error that carries violations, the
    combinator returns a list that holds all of them, argument after
    argument. *)
Theorem AtLeastOneOf_first_success_or_all (v : Validator) path pre (s0 s2 : St) wss :
  fails v (newListLoc s0) pre (withNewList s0) wss s2 ->
  (forall a rest s3,
     Validate v [a] s2 = Return None s3 ->
     validateOf (AtLeastOneOfArgument path (pre ++ a :: rest) false) v s0
     = Return (Some (newListLoc s3), None) (withNewList s3)
     /\ is_list (withNewList s3) (newListLoc s3) [] [])
  /\ (exists locs,
        validateOf (AtLeastOneOfArgument path pre false) v s0
        = Return (Some (newListLoc s0), None) s2
        /\ is_list s2 (newListLoc s0) locs (concat wss)).
Proof.
  intros Hfails. split.
  - intros a rest s3 Hrun.
    destruct (atLeastOneOfLoop_fails v _ (a :: rest) pre _ _ _ _ _
                (withNewList_is_list s0) Hfails) as [Hloop _].
    rewrite validateOf_AtLeastOneOf, combinator_run, Hloop. simpl.
    unfold bind at 1. rewrite Hrun. split; [reflexivity|apply withNewList_is_list].
  - destruct (atLeastOneOfLoop_fails v _ [] pre _ _ _ _ _
                (withNewList_is_list s0) Hfails) as [Hloop (locs & Hp)].
    exists locs. rewrite app_nil_r in Hloop.
    rewrite validateOf_AtLeastOneOf, combinator_run, Hloop. auto.
Qed.

End Combinators.

(** ** Sample arguments *)

Lemma extends_by_lookup {Violation U : Type} (s s' : @State Violation U) :
  Forall (fun qx => lists s' !! fst qx = Some (snd qx)) (map_to_list (lists s)) ->
  Forall (fun lx => elements s' !! fst lx = Some (snd lx)) (map_to_list (elements s)) ->
  extends s s'.
Proof.
  rewrite !Forall_forall. intros Hlists Hels. split.
  - intros q x Hx. apply (Hlists (q, x)), elem_of_map_to_list, Hx.
  - intros l x Hx. apply (Hels (l, x)), elem_of_map_to_list, Hx.
Qed.

(** Running a closed computation. *)
Ltac run :=
  match goal with
  | |- ?lhs = _ => let r := eval vm_compute in lhs in change lhs with r; reflexivity
  end.

Ltac check_extends :=
  apply extends_by_lookup; vm_compute; repeat constructor.

Ltac check_is_list :=
  split; [vm_compute; reflexivity|];
  split; [simpl; repeat (split || eexists || reflexivity)|compute_done].

Lemma Sequential_stops_at_first_failure_witness :
  (exists locs' s4,
     validateOf (SequentialArgument []
                   ([reporting []] ++ reporting [7; 8]%nat :: [reporting [9%nat]]) false)
       sampleValidator emptyState
     = Return (Some (newListLoc emptyState), None) s4
     /\ is_list s4 (newListLoc emptyState) locs' [7; 8]%nat
     /\ user s4 = 2%nat)
  /\ (exists s3,
        validateOf (SequentialArgument []
                      ([reporting []] ++ faulting 5 :: [reporting [9%nat]]) false)
          sampleValidator emptyState
        = Return (None, Some (PlainError 5)) s3
        /\ user s3 = 2%nat).
Proof.
  split.
  - edestruct (Sequential_stops_at_first_failure sampleValidator []
                 [reporting []] (reporting [7; 8]%nat) [reporting [9%nat]] emptyState)
      as [Hstop _].
    + eapply passes_cons; [run|check_extends|apply passes_nil].
    + run.
    + check_extends.
    + destruct (Hstop [1%positive; 2%positive] [7; 8]%nat) as (locs' & s4 & Hrun & Hlist & Hframe).
      * right. split; [reflexivity|]. exists 4%positive. split; [reflexivity|].
        check_is_list.
      * discriminate.
      * exists locs', s4. split; [exact Hrun|]. split; [exact Hlist|].
        destruct Hframe as (-> & _). reflexivity.
  - edestruct (Sequential_stops_at_first_failure sampleValidator []
                 [reporting []] (faulting 5) [reporting [9%nat]] emptyState)
      as [_ Hfault].
    + eapply passes_cons; [run|check_extends|apply passes_nil].
    + run.
    + check_extends.
    + eexists. split; [apply Hfault; split; reflexivity|reflexivity].
Defined.

Lemma AtLeastOneOf_first_success_or_all_witness :
  (validateOf (AtLeastOneOfArgument []
                 ([reporting [1%nat]] ++ reporting [] :: [reporting [9%nat]]) false)
     sampleValidator emptyState
   = Return (Some 6%positive, None)
       (mkState
          (<[6%positive := mkList None None 0]>
             (<[5%positive := mkList None None 0]>
                (<[4%positive := mkList None None 0]>
                   (<[3%positive := mkList (Some 1%positive) (Some 1%positive) 1]>
                      (<[2%positive := mkList (Some 1%positive) (Some 1%positive) 1]>
                         (<[1%positive := mkList (Some 1%positive) (Some 1%positive) 1]>
                            ∅))))))
          (<[1%positive := mkElement None 1%nat]> ∅)
          2%nat))
  /\ (exists locs s2,
        validateOf (AtLeastOneOfArgument []
                      [reporting [1%nat]; emptyListing; reporting [7; 8]%nat;
                       reporting [9%nat]] false)
          sampleValidator emptyState
        = Return (Some (newListLoc emptyState), None) s2
        /\ is_list s2 (newListLoc emptyState) locs
             (concat [[1]; []; [7; 8]; [9]]%nat)).
Proof.
  split.
  - edestruct (AtLeastOneOf_first_success_or_all sampleValidator []
                 [reporting [1%nat]] emptyState) as [Hfirst _].
    + eapply (fails_cons _ _ _ _ _ _ _ _ [1%positive] [1%nat]);
        [run|check_extends| | |apply fails_nil].
      * right. split; [reflexivity|]. eexists. split; [reflexivity|].
        check_is_list.
      * intros l Hl. apply list_elem_of_singleton in Hl. subst. reflexivity.
    + edestruct (Hfirst (reporting []) [reporting [9%nat]]) as [Hrun _]; [run|].
      rewrite Hrun. vm_compute. reflexivity.
  - edestruct (AtLeastOneOf_first_success_or_all sampleValidator []
                 [reporting [1%nat]; emptyListing; reporting [7; 8]%nat;
                  reporting [9%nat]] emptyState)
      as [_ (locs & Hrun & Hlist)].
    + eapply (fails_cons _ _ _ _ _ _ _ _ [1%positive] [1%nat]);
        [run|check_extends| | |].
      * right. split; [reflexivity|]. eexists. split; [reflexivity|].
        check_is_list.
      * intros l Hl. apply list_elem_of_singleton in Hl. subst. reflexivity.
      * eapply (fails_cons _ _ _ _ _ _ _ _ [] []);
          [run|check_extends| | |].
        -- right. split; [reflexivity|]. eexists. split; [reflexivity|].
           check_is_list.
        -- intros l Hl. apply elem_of_nil in Hl. tauto.
        -- eapply (fails_cons _ _ _ _ _ _ _ _ [2%positive; 3%positive] [7; 8]%nat);
             [run|check_extends| | |].
           ++ right. split; [reflexivity|]. eexists. split; [reflexivity|].
              check_is_list.
           ++ intros l Hl. revert Hl. rewrite !elem_of_cons, elem_of_nil.
              intros [->|[->|[]]]; reflexivity.
           ++ eapply (fails_cons _ _ _ _ _ _ _ _ [4%positive] [9%nat]);
                [run|check_extends| | |apply fails_nil].
              ** right. split; [reflexivity|]. eexists. split; [reflexivity|].
                 check_is_list.
              ** intros l Hl. apply list_elem_of_singleton in Hl. subst. reflexivity.
    + exists locs. eexists. split; [exact Hrun|exact Hlist].
Defined.

(** C5 as the claim has it does not hold of a sub-argument whose closure
    returns an empty list as its error.  That sub-argument yields no
    violation, but its error is not nil: the combinator goes on, runs the
    next closure, and returns the violation that one reports. *)
Lemma AtLeastOneOf_goes_on_after_empty_list :
  (exists q s1,
     Validate sampleValidator [emptyListing] emptyState
     = Return (Some (ListError (Some q))) s1
     /\ is_list s1 q [] [])
  /\ (exists locs s2,
        validateOf (AtLeastOneOfArgument [] [emptyListing; reporting [9%nat]] false)
          sampleValidator emptyState
        = Return (Some (newListLoc emptyState), None) s2
        /\ is_list s2 (newListLoc emptyState) locs [9%nat]
        /\ user s2 = 2%nat).
Proof.
  split.
  - eexists _, _. split; [run|]. check_is_list.
  - exists [1%positive]. eexists. split; [run|]. split; [check_is_list|reflexivity].
Qed.

(** ** Rendering and parsing back *)

(** C2, at the input on which the code falls short of it.  The name
    ["a"] followed by U+0663 (ARABIC-INDIC DIGIT THREE) is an identifier
    for [String], which writes it bare, but the parser refuses a decimal
    digit above ASCII inside an identifier. *)
Theorem round_trip_fails_on_unicode_digit :
  let elements := [PropertyName [chr "a"; 1635]] in
  @isIdentifier arabicTables [chr "a"; 1635] = true
  /\ @PropertyPath_String arabicTables (NewPropertyPath elements)
     = Some [chr "a"; 1635]
  /\ @parsePath arabicTables [chr "a"; 1635]
     = Err (pathParsingCharError (runes "unexpected identifier char") 1 0 1635).
Proof. repeat split; vm_compute; reflexivity. Qed.

(** *** Decimal numerals written by [Itoa] *)

Lemma decimalFrom_app m ds1 ds2 :
  decimalFrom m (ds1 ++ ds2) = decimalFrom (decimalFrom m ds1) ds2.
Proof. unfold decimalFrom. apply fold_left_app. Qed.

Lemma formatBits_spec fuel : forall u acc,
  0 <= u < 10 ^ Z.of_nat (S fuel) ->
  exists ds,
    formatBits (S fuel) u acc = ds ++ acc
    /\ ds <> []
    /\ forallb (between 48 57) ds = true
    /\ forall m, decimalFrom m ds = m * 10 ^ Z.of_nat (length ds) + u.
Proof.
  induction fuel as [|fuel IH]; intros u acc Hu.
  - change (10 ^ Z.of_nat 1) with 10 in Hu. simpl.
    destruct (Z.ltb_spec u 10); [|lia].
    exists [48 + u]. split; [reflexivity|]. split; [discriminate|]. split.
    + simpl. rewrite andb_true_r. apply between_spec. lia.
    + intros m. simpl. change (10 ^ Z.of_nat 1) with 10. lia.
  - change (formatBits (S (S fuel)) u acc)
      with (if u <? 10 then (48 + u) :: acc
            else formatBits (S fuel) (u / 10) ((48 + u mod 10) :: acc)).
    destruct (Z.ltb_spec u 10).
    + exists [48 + u]. split; [reflexivity|]. split; [discriminate|]. split.
      * simpl. rewrite andb_true_r. apply between_spec. lia.
      * intros m. simpl. change (10 ^ Z.of_nat 1) with 10. lia.
    + assert (Hdiv : 0 <= u / 10 < 10 ^ Z.of_nat (S fuel)).
      { split; [apply Z.div_pos; lia|].
        apply Z.div_lt_upper_bound; [lia|].
        rewrite (Nat2Z.inj_succ (S fuel)), Z.pow_succ_r in Hu by lia. lia. }
      destruct (IH (u / 10) ((48 + u mod 10) :: acc) Hdiv) as (ds & Heq & Hne & Hall & Hval).
      exists (ds ++ [48 + u mod 10]). rewrite Heq, <- app_assoc.
      split; [reflexivity|]. split; [destruct ds; discriminate|]. split.
      * rewrite forallb_app, Hall. simpl. rewrite andb_true_r.
        apply between_spec. pose proof (Z.mod_pos_bound u 10). lia.
      * intros m. rewrite decimalFrom_app, Hval. simpl.
        rewrite length_app, Nat2Z.inj_add. simpl length.
        change (Z.of_nat 1) with 1. rewrite Z.pow_add_r by lia.
        change (10 ^ 1) with 10.
        pose proof (Z.div_mod u 10). lia.
Qed.

(** [Itoa] of a non-negative [int] is a decimal numeral [ParseUint] reads
    back. *)
Lemma Itoa_decimal i :
  0 <= i <= MaxInt ->
  isDecimal (Itoa i) = true /\ decimalValue (Itoa i) = i
  /\ forallb (between 48 57) (Itoa i) = true.
Proof.
  intros Hi. unfold Itoa. destruct (Z.ltb_spec i 0); [lia|].
  destruct (formatBits_spec 19 i []) as (ds & Heq & Hne & Hall & Hval).
  { split; [lia|]. eapply Z.le_lt_trans; [apply Hi|]. vm_compute. reflexivity. }
  rewrite Heq, app_nil_r. split; [|split; [|assumption]].
  - unfold isDecimal. rewrite Hall, andb_true_r.
    destruct ds; [congruence|reflexivity].
  - unfold decimalValue. rewrite Hval. lia.
Qed.

(** *** The parser on rendered text *)

Ltac chr_values :=
  change (chr "[") with 91 in *; change (chr "]") with 93 in *;
  change (chr "0") with 48 in *; change (chr "9") with 57 in *;
  change (chr "'") with 39 in *; change (chr "\") with 92 in *;
  change (chr ".") with 46 in *; change (chr "$") with 36 in *;
  change (chr "_") with 95 in *.

Section RoundTrip.
Context `{UnicodeTables}.

Lemma handleNext_other parser c :
  special c = false -> handleNext parser c = handleOther parser c.
Proof.
  unfold special, handleNext. chr_values. intros Hc.
  repeat (apply orb_false_iff in Hc as [Hc ?]).
  rewrite Hc. repeat match goal with Heq : _ = false |- _ => rewrite Heq; clear Heq end.
  reflexivity.
Qed.

Lemma handleNext_digit parser c :
  between 48 57 c = true -> handleNext parser c = handleDigit parser c.
Proof.
  unfold handleNext. chr_values. intros Hc. rewrite Hc.
  apply between_spec in Hc.
  destruct (Z.eqb_spec c 91); [lia|]. destruct (Z.eqb_spec c 93); [lia|]. reflexivity.
Qed.

Lemma first_char_not_special c :
  isFirstIdentifierChar c = true -> special c = false.
Proof.
  intros Hc. unfold special.
  destruct (Z.eqb_spec c 91) as [->|_]; [vm_compute in Hc; discriminate|].
  destruct (Z.eqb_spec c 93) as [->|_]; [vm_compute in Hc; discriminate|].
  destruct (Z.eqb_spec c 39) as [->|_]; [vm_compute in Hc; discriminate|].
  destruct (Z.eqb_spec c 92) as [->|_]; [vm_compute in Hc; discriminate|].
  destruct (Z.eqb_spec c 46) as [->|_]; [vm_compute in Hc; discriminate|].
  destruct (between 48 57 c) eqn:Hd; [|reflexivity].
  apply between_spec in Hd.
  assert (Hcases : c = 48 \/ c = 49 \/ c = 50 \/ c = 51 \/ c = 52 \/ c = 53
                   \/ c = 54 \/ c = 55 \/ c = 56 \/ c = 57) by lia.
  repeat (destruct Hcases as [->|Hcases]; [vm_compute in Hc; discriminate|]).
  subst. vm_compute in Hc. discriminate.
Qed.

Lemma With_snoc p es e : With p (es ++ [e]) = mkPath (With p es) (Some e).
Proof. unfold With. rewrite fold_left_app. reflexivity. Qed.

Lemma core_setIndex parser i st buf pth :
  core parser st buf pth -> core (setIndex parser i) st buf pth.
Proof. intros H0. exact H0. Qed.

Lemma open_bracket_ready es parser i :
  ready es parser ->
  exists parser',
    handleNext (setIndex parser i) 91 = Ok parser'
    /\ core parser' beginIndexState [] (With nilPath es).
Proof.
  destruct parser as [pth buf idx pidx st esc]. unfold ready, core. simpl.
  intros [(-> & -> & -> & -> & ->)|[(Hne & -> & -> & -> & ->)|
          (es' & name & -> & Hne & -> & -> & -> & ->)]].
  - eexists. split; [reflexivity|]. repeat split.
  - eexists. split; [reflexivity|]. repeat split.
  - destruct name as [|c name]; [congruence|].
    eexists. split; [reflexivity|]. simpl. rewrite With_snoc. repeat split.
Qed.

Lemma point_ready es parser i :
  es <> [] ->
  ready es parser ->
  exists parser',
    handleNext (setIndex parser i) 46 = Ok parser'
    /\ core parser' beginIdentifierState [] (With nilPath es).
Proof.
  destruct parser as [pth buf idx pidx st esc]. unfold ready, core. simpl.
  intros Hes [(-> & _)|[(Hne & -> & -> & -> & ->)|
          (es' & name & -> & Hne & -> & -> & -> & ->)]].
  - congruence.
  - eexists. split; [reflexivity|]. repeat split.
  - destruct name as [|c name]; [congruence|].
    eexists. split; [reflexivity|]. simpl. rewrite With_snoc. repeat split.
Qed.

Lemma scan_digits ds : forall parser i st buf pth,
  forallb (between 48 57) ds = true ->
  core parser st buf pth ->
  st = beginIndexState \/ st = indexState ->
  exists parser',
    parseLoop parser i ds = Ok parser'
    /\ core parser' (match ds with [] => st | _ => indexState end) (buf ++ ds) pth.
Proof.
  induction ds as [|c ds IH]; intros parser i st buf pth Hall Hcore Hst.
  - exists parser. rewrite app_nil_r. auto.
  - simpl in Hall. apply andb_true_iff in Hall as [Hc Hall].
    simpl. rewrite handleNext_digit by assumption.
    destruct parser as [pth0 buf0 idx pidx st0 esc].
    destruct Hcore as (Hs & Hb & Hp & He). simpl in Hs, Hb, Hp, He. subst.
    assert (Hstep : handleDigit (setIndex (mkParser pth buf idx pidx st false) i) c
                    = Ok (mkParser pth (buf ++ [c]) i pidx indexState false)).
    { destruct Hst as [->| ->]; reflexivity. }
    rewrite Hstep.
    destruct (IH (mkParser pth (buf ++ [c]) i pidx indexState false)
                (i + utf8_RuneLen c) indexState (buf ++ [c]) pth Hall)
      as (parser' & Hrun & Hcore'); [repeat split|auto|].
    exists parser'. split; [assumption|].
    rewrite <- app_assoc in Hcore'. simpl in Hcore'.
    destruct ds; assumption.
Qed.

Lemma scan_identifier cs : forall parser i buf pth,
  forallb (fun c => isFirstIdentifierChar c || between 48 57 c) cs = true ->
  core parser identifierState buf pth ->
  exists parser',
    parseLoop parser i cs = Ok parser'
    /\ core parser' identifierState (buf ++ cs) pth.
Proof.
  induction cs as [|c cs IH]; intros parser i buf pth Hall Hcore.
  - exists parser. rewrite app_nil_r. auto.
  - simpl in Hall. apply andb_true_iff in Hall as [Hc Hall].
    destruct parser as [pth0 buf0 idx pidx st0 esc].
    destruct Hcore as (Hs & Hb & Hp & He). simpl in Hs, Hb, Hp, He. subst.
    assert (Hstep : handleNext (setIndex (mkParser pth buf idx pidx identifierState false) i) c
                    = Ok (mkParser pth (buf ++ [c]) i pidx identifierState false)).
    { destruct (between 48 57 c) eqn:Hd.
      - rewrite handleNext_digit by assumption. reflexivity.
      - rewrite orb_false_r in Hc.
        rewrite handleNext_other by (apply first_char_not_special; assumption).
        unfold handleOther. simpl. rewrite Hc. reflexivity. }
    simpl. rewrite Hstep.
    destruct (IH (mkParser pth (buf ++ [c]) i pidx identifierState false)
                (i + utf8_RuneLen c) (buf ++ [c]) pth Hall)
      as (parser' & Hrun & Hcore'); [repeat split|].
    exists parser'. split; [assumption|].
    rewrite <- app_assoc in Hcore'. assumption.
Qed.

Lemma bracketed_char parser c :
  state parser = bracketedNameState -> c <> 39 -> c <> 92 ->
  handleNext parser c = Ok (writeRune parser c).
Proof.
  intros Hst H39 H92. unfold handleNext. chr_values.
  destruct (Z.eqb_spec c 91); [unfold handleOpenBracket; rewrite Hst; reflexivity|].
  destruct (Z.eqb_spec c 93); [unfold handleCloseBracket; rewrite Hst; reflexivity|].
  destruct (between 48 57 c); [unfold handleDigit; rewrite Hst; reflexivity|].
  destruct (Z.eqb_spec c 39); [contradiction|].
  destruct (Z.eqb_spec c 92); [contradiction|].
  destruct (Z.eqb_spec c 46); [unfold handlePoint; rewrite Hst; reflexivity|].
  unfold handleOther. rewrite Hst. reflexivity.
Qed.

Lemma scan_escaped name : forall parser i buf pth,
  core parser bracketedNameState buf pth ->
  exists parser',
    parseLoop parser i (escaped name) = Ok parser'
    /\ core parser' bracketedNameState (buf ++ name) pth.
Proof.
  induction name as [|c name IH]; intros parser i buf pth Hcore.
  - exists parser. rewrite app_nil_r. auto.
  - destruct parser as [pth0 buf0 idx pidx st0 esc].
    destruct Hcore as (Hs & Hb & Hp & He). simpl in Hs, Hb, Hp, He. subst.
    change (escaped (c :: name))
      with ((if (c =? 39) || (c =? 92) then [92; c] else [c]) ++ escaped name).
    rewrite parseLoop_app.
    assert (Hfinish : forall j k,
              exists parser',
                parseLoop (mkParser pth (buf ++ [c]) j pidx bracketedNameState false) k
                  (escaped name) = Ok parser'
                /\ core parser' bracketedNameState (buf ++ c :: name) pth).
    { intros j k.
      destruct (IH (mkParser pth (buf ++ [c]) j pidx bracketedNameState false) k
                  (buf ++ [c]) pth) as (parser' & Hrun & Hcore'); [repeat split|].
      exists parser'. split; [assumption|].
      rewrite <- app_assoc in Hcore'. assumption. }
    destruct (Z.eqb_spec c 39) as [->|H39]; [apply Hfinish|].
    destruct (Z.eqb_spec c 92) as [->|H92]; [apply Hfinish|].
    simpl. rewrite bracketed_char by (assumption || reflexivity).
    apply Hfinish.
Qed.

Lemma writePropertyName_escaped name : forall s,
  writePropertyName s name = s ++ escaped name.
Proof.
  induction name as [|c name IH]; intros s; simpl.
  - rewrite app_nil_r. reflexivity.
  - chr_values. rewrite IH.
    destruct ((c =? 39) || (c =? 92)); rewrite <- !app_assoc; reflexivity.
Qed.

Lemma writeElement_app s i e : writeElement s i e = s ++ writeElement [] i e.
Proof.
  unfold writeElement. destruct (IsIndex e); [reflexivity|].
  destruct (isIdentifier (Element_String e)).
  - destruct (0 <? i)%nat; [rewrite <- app_assoc|]; reflexivity.
  - rewrite !writePropertyName_escaped, <- !app_assoc. reflexivity.
Qed.

Lemma writeElements_render es : forall s i,
  writeElements s i (map Some es) = Some (s ++ renderFrom i es).
Proof.
  induction es as [|e es IH]; intros s i; simpl.
  - rewrite app_nil_r. reflexivity.
  - rewrite IH, (writeElement_app s), <- app_assoc. reflexivity.
Qed.

Lemma chainValues_With es : forall p,
  chainValues (With p es) = chainValues p ++ map Some es.
Proof.
  induction es as [|e es IH]; intros p; simpl.
  - rewrite app_nil_r. reflexivity.
  - unfold With in *. simpl. rewrite IH. simpl. rewrite <- app_assoc. reflexivity.
Qed.

Lemma Elements_With es : Elements (With nilPath es) = map Some es.
Proof.
  destruct es as [|e es] using rev_ind; [reflexivity|].
  rewrite With_snoc. unfold Elements.
  rewrite <- With_snoc. apply (chainValues_With _ nilPath).
Qed.

Lemma parseLoop_cons parser i c rest :
  parseLoop parser i (c :: rest) =
    match handleNext (setIndex parser i) c with
    | Err e => Err e
    | Ok parser' => parseLoop parser' (i + utf8_RuneLen c) rest
    end.
Proof. reflexivity. Qed.

Lemma parse_element es e parser i0 :
  ready es parser ->
  roundTrips e ->
  exists parser',
    parseLoop parser i0 (writeElement [] (length es) e) = Ok parser'
    /\ ready (es ++ [e]) parser'.
Proof.
  intros Hready He. destruct e as [name|i]; unfold writeElement; simpl.
  - destruct (isIdentifier name) eqn:Hid.
    + (* a bare identifier *)
      simpl in He. specialize (He Hid). destruct name as [|c0 cs]; [discriminate|].
      simpl in Hid. apply andb_true_iff in Hid as [Hc0 Hcs].
      simpl in He. apply andb_true_iff in He as [_ Hascii].
      unfold asciiDigitsOnly in Hascii.
      assert (Hok : forallb (fun c => isFirstIdentifierChar c || between 48 57 c) cs = true).
      { apply forallb_forall. intros c Hc.
        rewrite forallb_forall in Hcs. rewrite forallb_forall in Hascii.
        specialize (Hcs c Hc). specialize (Hascii c Hc).
        unfold isIdentifierChar in Hcs. unfold isFirstIdentifierChar.
        destruct (IsDigit c); simpl in Hascii.
        - rewrite Hascii, orb_true_r. reflexivity.
        - rewrite orb_false_r in Hcs. rewrite Hcs. reflexivity. }
      assert (Hfirst : forall parser1 pth,
                core parser1 initialState [] pth \/ core parser1 beginIdentifierState [] pth ->
                forall j, exists parser',
                  parseLoop parser1 j (c0 :: cs) = Ok parser'
                  /\ core parser' identifierState (c0 :: cs) pth).
      { intros parser1 pth Hcore j.
        destruct parser1 as [pth1 buf1 idx pidx st1 esc].
        assert (Hstep : handleNext (setIndex (mkParser pth1 buf1 idx pidx st1 esc) j) c0
                        = Ok (mkParser pth [c0] j pidx identifierState false)).
        { rewrite handleNext_other by (apply first_char_not_special; assumption).
          unfold handleOther.
          destruct Hcore as [(Hs & Hb & Hp & Hesc)|(Hs & Hb & Hp & Hesc)];
            simpl in Hs, Hb, Hp, Hesc; subst; simpl; rewrite Hc0; reflexivity. }
        simpl. rewrite Hstep.
        apply (scan_identifier cs _ _ [c0] pth Hok). repeat split. }
      destruct es as [|e0 es0].
      * destruct Hready as [(_ & Hcore)|[(Hne & _)|(es' & n & Habs & _)]];
          [|congruence|destruct es'; discriminate].
        destruct (Hfirst parser nilPath (or_introl Hcore) i0) as (parser' & Hrun & Hcore').
        exists parser'. split; [exact Hrun|].
        right. right. exists [], (c0 :: cs). repeat split; [discriminate|apply Hcore'..].
      * change (0 <? length (e0 :: es0))%nat with true. cbv beta iota.
        chr_values. simpl app.
        destruct (point_ready (e0 :: es0) parser i0 ltac:(discriminate) Hready)
          as (parser1 & Hstep & Hcore1).
        rewrite parseLoop_cons, Hstep.
        destruct (Hfirst parser1 _ (or_intror Hcore1) (i0 + utf8_RuneLen 46))
          as (parser' & Hrun & Hcore').
        exists parser'. split; [exact Hrun|].
        right. right. exists (e0 :: es0), (c0 :: cs).
        repeat split; [discriminate|apply Hcore'..].
    + (* a bracketed name *)
      rewrite writePropertyName_escaped. simpl app. chr_values.
      destruct (open_bracket_ready es parser i0 Hready) as (parser1 & Hstep & Hcore1).
      rewrite parseLoop_cons, Hstep.
      destruct parser1 as [pth1 buf1 idx1 pidx1 st1 esc1].
      destruct Hcore1 as (Hs & Hb & Hp & Hesc). simpl in Hs, Hb, Hp, Hesc. subst.
      simpl parseLoop at 1. rewrite parseLoop_app.
      match goal with
      | |- context [parseLoop ?p ?j (escaped name)] =>
          destruct (scan_escaped name p j [] (With nilPath es))
            as (parser2 & Hrun2 & Hcore2); [repeat split|]
      end.
      rewrite Hrun2.
      destruct parser2 as [pth2 buf2 idx2 pidx2 st2 esc2].
      destruct Hcore2 as (Hs & Hb & Hp & Hesc). simpl in Hs, Hb, Hp, Hesc. subst.
      eexists. split; [reflexivity|].
      right. left. split; [destruct es; discriminate|].
      simpl. rewrite With_snoc. repeat split.
  - (* an index *)
    destruct (Itoa_decimal i He) as (Hdec & Hval & Hdigits).
    destruct (open_bracket_ready es parser i0 Hready) as (parser1 & Hstep & Hcore1).
    chr_values. rewrite Hstep, parseLoop_app.
    destruct (scan_digits (Itoa i) parser1 (i0 + utf8_RuneLen 91) _ _ _ Hdigits Hcore1
                (or_introl eq_refl)) as (parser2 & Hrun2 & Hcore2).
    rewrite Hrun2.
    assert (Hcore2' : core parser2 indexState (Itoa i) (With nilPath es)).
    { destruct (Itoa i); [discriminate|exact Hcore2]. }
    destruct parser2 as [pth2 buf2 idx2 pidx2 st2 esc2].
    destruct Hcore2' as (Hs & Hb & Hp & Hesc). simpl in Hs, Hb, Hp, Hesc. subst.
    simpl parseLoop. unfold handleNext. chr_values. simpl. unfold handleCloseBracket.
    unfold setIndex. cbn [state path buffer pathIndex isEscape index].
    rewrite addIndex_accepts; [|exact Hdec|simpl; rewrite Hval; apply He].
    cbn [state path buffer pathIndex isEscape index]. rewrite Hval.
    eexists. split; [reflexivity|].
    right. left. split; [destruct es; discriminate|].
    rewrite With_snoc. repeat split.
Qed.

Lemma parse_rendered es : forall done parser i0,
  ready done parser ->
  Forall roundTrips es ->
  exists parser',
    parseLoop parser i0 (renderFrom (length done) es) = Ok parser'
    /\ ready (done ++ es) parser'.
Proof.
  induction es as [|e es IH]; intros done parser i0 Hready Hall.
  - exists parser. rewrite app_nil_r. auto.
  - apply Forall_cons in Hall as [He Hall]. simpl. rewrite parseLoop_app.
    destruct (parse_element done e parser i0 Hready He) as (parser1 & Hrun & Hready1).
    rewrite Hrun.
    destruct (IH (done ++ [e]) parser1 (i0 + byteLen (writeElement [] (length done) e))
                Hready1 Hall) as (parser' & Hrun' & Hready').
    rewrite length_app, Nat.add_comm in Hrun'. simpl in Hrun'.
    exists parser'. split; [exact Hrun'|].
    rewrite <- app_assoc in Hready'. exact Hready'.
Qed.

Lemma writeElement_not_empty i e : writeElement [] i e <> [].
Proof.
  unfold writeElement. destruct e as [name|n]; simpl; [|discriminate].
  destruct (isIdentifier name) eqn:Hid.
  - destruct name; [discriminate|]. destruct (0 <? i)%nat; discriminate.
  - rewrite writePropertyName_escaped. discriminate.
Qed.

(** The round trip, on the elements of [roundTrips]: rendering a path built
    from them and parsing the text gives a path with the same elements. *)
Lemma round_trip_ascii_digits (es : list PropertyPathElement) :
  Forall roundTrips es ->
  exists text p,
    PropertyPath_String (NewPropertyPath es) = Some text
    /\ parsePath text = Ok p
    /\ Elements p = map Some es.
Proof.
  intros Hall. exists (renderFrom 0 es).
  unfold PropertyPath_String, NewPropertyPath.
  rewrite Elements_With, writeElements_render. simpl app.
  destruct es as [|e es].
  - exists (mkPath nilPath None). repeat split.
  - destruct (parse_rendered (e :: es) [] zeroParser 0) as (parser & Hrun & Hready);
      [left; repeat split|assumption|].
    simpl length in Hrun. simpl app in Hready.
    unfold parsePath, Parse. rewrite Hrun.
    destruct (renderFrom 0 (e :: es)) eqn:Htext.
    { simpl in Htext. apply app_eq_nil in Htext as [Habs _].
      apply writeElement_not_empty in Habs. contradiction. }
    destruct parser as [pth buf idx pidx st esc].
    destruct Hready as [(Habs & _)|[(_ & Hs & Hb & Hp & He)|
                        (es' & name & Heq & Hne & Hs & Hb & Hp & He)]];
      [discriminate| |]; cbn [state buffer path isEscape] in Hs, Hb, Hp, He; subst.
    + eexists. split; [reflexivity|]. split; [reflexivity|].
      exact (Elements_With (e :: es)).
    + destruct name as [|c name]; [congruence|].
      eexists. split; [reflexivity|]. split; [reflexivity|].
      rewrite Heq.
      change (Elements (mkPath (With nilPath es') (Some (PropertyName (c :: name))))
              = map Some (es' ++ [PropertyName (c :: name)])).
      rewrite <- With_snoc. apply Elements_With.
Qed.

End RoundTrip.

(** ** Ownership is kept by the engine *)

Section Ownership.
Context {Violation U : Type}.
Abbreviation St := (@State Violation U).
Abbreviation Validator := (@Validator Violation).
Abbreviation Argument := (@Argument Violation U).

Lemma fresh_in_extends (s0 s : St) locs :
  extends s0 s -> fresh_in s locs -> fresh_in s0 locs.
Proof.
  intros [_ Hels] Hfresh l Hl.
  destruct (elements s0 !! l) eqn:Hx; [|reflexivity].
  apply Hels in Hx. rewrite (Hfresh l Hl) in Hx. discriminate.
Qed.

Lemma error_owned_extends (s0 s s1 : St) e :
  extends s0 s -> error_owned s s1 e -> error_owned s0 s1 e.
Proof.
  intros Hext [Hfault|(locs & ws & Hcarries & Hfresh)]; [left; assumption|].
  right. exists locs, ws. split; [assumption|]. eapply fresh_in_extends; eassumption.
Qed.

Lemma frame_extends (s0 s1 s2 : St) p locs :
  lists s0 !! p = None ->
  fresh_in s0 locs ->
  extends s0 s1 ->
  frame p locs s1 s2 ->
  extends s0 s2.
Proof.
  intros Hp Hfresh [Hlists Hels] (_ & Hl & He & _). split.
  - intros q x Hx. rewrite Hl by (intros ->; congruence). auto.
  - intros l x Hx. rewrite He; [auto| |eauto].
    intros Hin. rewrite (Hfresh l Hin) in Hx. discriminate.
Qed.

Lemma accumulates_new (s : St) : accumulates s (withNewList s) (newListLoc s) [] [].
Proof.
  split; [apply fresh_list|]. split; [intros l Hl; apply elem_of_nil in Hl; tauto|].
  split; [|apply withNewList_is_list].
  split; [|auto]. intros q x Hx. cbn [withNewList lists].
  rewrite lookup_insert_ne; [assumption|].
  intros <-. unfold newListLoc in Hx. rewrite fresh_list in Hx. discriminate.
Qed.

Lemma accumulates_extends (s0 s s1 : St) p locs vs :
  accumulates s0 s p locs vs -> extends s s1 -> accumulates s0 s1 p locs vs.
Proof.
  intros (Hp & Hfresh & Hext & Hlist) Hext1.
  split; [assumption|]. split; [assumption|].
  split; [eapply extends_trans; eassumption|].
  exact (is_list_extends _ _ _ _ _ _ Hlist Hext1).
Qed.

(** The run of an owning call under an accumulating list. *)
Lemma run_step (s0 s : St) p locs vs m :
  accumulates s0 s p locs vs ->
  owning_run m ->
  exists e s1,
    m s = Return e s1
    /\ accumulates s0 s1 p locs vs
    /\ match e with
       | None => True
       | Some e' => error_owned s s1 e'
       end.
Proof.
  intros Hacc Hm. destruct (Hm s) as (e & s1 & Hrun & Hext & He).
  exists e, s1. split; [assumption|]. split; [|assumption].
  eapply accumulates_extends; eassumption.
Qed.

(** Absorbing the error of an owning call: it is a fault and comes back, or
    its violations go to the end of the accumulating list. *)
Lemma absorb_accumulates (s0 s s1 : St) p locs vs e :
  accumulates s0 s p locs vs ->
  accumulates s0 s1 p locs vs ->
  error_owned s s1 e ->
  (AppendFromError (Some p) (Some e) s1 = Return (Some e) s1 /\ error_owned s0 s1 e)
  \/ (exists locs' ws s2,
        AppendFromError (Some p) (Some e) s1 = Return None s2
        /\ accumulates s0 s2 p locs' (vs ++ ws)).
Proof.
  intros (_ & _ & Hext0 & Hlist) (Hp & Hfresh & Hext1 & Hlist1)
    [[Hv Hl]|(locs2 & ws & Hcarries & Hfresh2)].
  - left. split; [|left; split; assumption].
    unfold AppendFromError. rewrite Hv, Hl. reflexivity.
  - right.
    destruct (absorb_spec s1 p locs vs e locs2 ws Hlist1 Hcarries)
      as (new & s2 & Hrun & Hlist2 & Hframe & Hnew).
    { intros l Hl Hl2. pose proof Hlist as (_ & Hseg & _).
      destruct (seg_nodes_exist _ _ _ _ _ _ Hseg Hl) as [x Hx].
      rewrite (Hfresh2 l Hl2) in Hx. discriminate. }
    exists (locs ++ new), ws, s2. split; [assumption|].
    split; [assumption|]. split; [|split; [|assumption]].
    + intros l Hl. apply elem_of_app in Hl as [Hl|Hl]; [auto|].
      destruct (Hnew l Hl) as [Hl2|Hnone].
      * eapply fresh_in_extends; [exact Hext0|exact Hfresh2|exact Hl2].
      * destruct (elements s0 !! l) eqn:Hx; [|reflexivity].
        destruct Hext1 as [_ Hels]. apply Hels in Hx. congruence.
    + eapply frame_extends; eassumption.
Qed.

Lemma accumulates_result (s0 s : St) p locs vs :
  accumulates s0 s p locs vs ->
  extends s0 s /\ result_owned s0 s (Some p, None).
Proof.
  intros (_ & Hfresh & Hext & Hlist). split; [assumption|].
  exists locs, vs. auto.
Qed.

Lemma accumulates_header (s0 s : St) p locs vs :
  accumulates s0 s p locs vs ->
  loadList (Some p) s = Return (mkList (head locs) (lastOf locs) (Z.of_nat (length vs))) s.
Proof.
  intros (_ & _ & _ & Hhdr & _). unfold loadList. rewrite Hhdr. reflexivity.
Qed.

Lemma sequentialLoop_owned runs :
  Forall owning_run runs ->
  forall (s0 s : St) p locs vs,
    accumulates s0 s p locs vs ->
    exists r s',
      sequentialLoop (Some p) runs s = Return r s'
      /\ extends s0 s' /\ result_owned s0 s' r.
Proof.
  induction 1 as [|m runs Hm _ IH]; intros s0 s p locs vs Hacc.
  - exists (Some p, None), s. split; [reflexivity|]. eapply accumulates_result, Hacc.
  - destruct (run_step s0 s p locs vs m Hacc Hm) as (e & s1 & Hrun & Hacc1 & He).
    assert (Hnext : forall (s2 : St) locs' vs',
              accumulates s0 s2 p locs' vs' ->
              exists r s',
                bind (loadList (Some p)) (fun l =>
                  if 0 <? len l then ret (Some p, None)
                  else sequentialLoop (Some p) runs) s2 = Return r s'
                /\ extends s0 s' /\ result_owned s0 s' r).
    { intros s2 locs' vs' Hacc2. unfold bind.
      rewrite (accumulates_header _ _ _ _ _ Hacc2). cbn [len].
      destruct (0 <? Z.of_nat (length vs')); [|eapply IH, Hacc2].
      exists (Some p, None), s2. split; [reflexivity|].
      eapply accumulates_result, Hacc2. }
    simpl. unfold bind at 1. rewrite Hrun. destruct e as [e'|].
    + destruct (absorb_accumulates s0 s s1 p locs vs e' Hacc Hacc1 He)
        as [[Happ Hown]|(locs' & ws & s2 & Happ & Hacc2)];
        unfold bind at 1; rewrite Happ.
      * exists (None, Some e'), s1. split; [reflexivity|].
        destruct Hacc1 as (_ & _ & Hext & _). auto.
      * eapply Hnext, Hacc2.
    + unfold bind at 1. simpl. eapply Hnext, Hacc1.
Qed.

Lemma atLeastOneOfLoop_owned runs :
  Forall owning_run runs ->
  forall (s0 s : St) p locs vs,
    accumulates s0 s p locs vs ->
    exists r s',
      atLeastOneOfLoop (Some p) runs s = Return r s'
      /\ extends s0 s' /\ result_owned s0 s' r.
Proof.
  induction 1 as [|m runs Hm _ IH]; intros s0 s p locs vs Hacc.
  - exists (Some p, None), s. split; [reflexivity|]. eapply accumulates_result, Hacc.
  - destruct (run_step s0 s p locs vs m Hacc Hm) as (e & s1 & Hrun & Hacc1 & He).
    simpl. unfold bind at 1. rewrite Hrun. destruct e as [e'|].
    + destruct (absorb_accumulates s0 s s1 p locs vs e' Hacc Hacc1 He)
        as [[Happ Hown]|(locs' & ws & s2 & Happ & Hacc2)];
        unfold bind at 1; rewrite Happ.
      * exists (None, Some e'), s1. split; [reflexivity|].
        destruct Hacc1 as (_ & _ & Hext & _). auto.
      * eapply IH, Hacc2.
    + destruct Hacc1 as (_ & _ & Hext & _).
      destruct (accumulates_new s1) as (_ & _ & Hext1 & Hlist1).
      exists (Some (newListLoc s1), None), (withNewList s1).
      split; [reflexivity|]. split; [eapply extends_trans; eassumption|].
      exists [], []. split; [assumption|].
      intros l Hl. apply elem_of_nil in Hl. tauto.
Qed.

Lemma allLoop_owned runs :
  Forall owning_run runs ->
  forall (s0 s : St) p locs vs,
    accumulates s0 s p locs vs ->
    exists r s',
      allLoop (Some p) runs s = Return r s'
      /\ extends s0 s' /\ result_owned s0 s' r.
Proof.
  induction 1 as [|m runs Hm _ IH]; intros s0 s p locs vs Hacc.
  - exists (Some p, None), s. split; [reflexivity|]. eapply accumulates_result, Hacc.
  - destruct (run_step s0 s p locs vs m Hacc Hm) as (e & s1 & Hrun & Hacc1 & He).
    simpl. unfold bind at 1. rewrite Hrun. destruct e as [e'|].
    + destruct (absorb_accumulates s0 s s1 p locs vs e' Hacc Hacc1 He)
        as [[Happ Hown]|(locs' & ws & s2 & Happ & Hacc2)];
        unfold bind at 1; rewrite Happ.
      * exists (None, Some e'), s1. split; [reflexivity|].
        destruct Hacc1 as (_ & _ & Hext & _). auto.
      * eapply IH, Hacc2.
    + unfold bind at 1. simpl. eapply IH, Hacc1.
Qed.

Lemma combinator_owned isIgnored
  (loop : option loc -> @M Violation U (option loc * option (error Violation))) :
  (forall (s0 s : St) p,
     accumulates s0 s p [] [] ->
     exists r s', loop (Some p) s = Return r s' /\ extends s0 s' /\ result_owned s0 s' r) ->
  forall s : St,
    exists r s',
      combinator isIgnored loop s = Return r s' /\ extends s s' /\ result_owned s s' r.
Proof.
  intros Hloop s. destruct isIgnored.
  - exists (Some (newListLoc s), None), (withNewList s). split; [reflexivity|].
    eapply accumulates_result, accumulates_new.
  - rewrite combinator_run. eapply Hloop, accumulates_new.
Qed.

Lemma runValidations_owned (v : Validator) (ctx : @executionContext Violation U) :
  Forall owning ctx ->
  forall (s0 s : St) p locs vs,
    accumulates s0 s p locs vs ->
    exists e s',
      runValidations v (Some p) ctx s = Return e s'
      /\ extends s0 s'
      /\ match e with
         | None => True
         | Some e' => error_owned s0 s' e'
         end.
Proof.
  induction 1 as [|g ctx Hg _ IH]; intros s0 s p locs vs Hacc.
  - cbn [runValidations AsError]. unfold bind.
    rewrite (accumulates_header _ _ _ _ _ Hacc). cbn [len].
    destruct Hacc as (_ & Hfresh & Hext & Hlist).
    destruct (Z.of_nat (length vs) =? 0).
    + exists None, s. auto.
    + exists (Some (ListError (Some p))), s. split; [reflexivity|].
      split; [assumption|]. right. exists locs, vs. split; [|assumption].
      right. split; [reflexivity|]. exists p. split; [reflexivity|assumption].
  - destruct (Hg v s) as ([q e] & s1 & Hrun & Hext & Hr).
    pose proof (accumulates_extends _ _ _ _ _ _ Hacc Hext) as Hacc1.
    cbn [runValidations]. unfold bind at 1. rewrite Hrun. cbn [fst snd].
    unfold result_owned in Hr. cbn [fst snd] in Hr.
    destruct e as [err|].
    + exists (Some err), s1. split; [reflexivity|].
      destruct Hacc as (_ & _ & Hext0 & _).
      split; [eapply extends_trans; eassumption|].
      eapply error_owned_extends; eassumption.
    + destruct q as [q|].
      * destruct Hr as (locs2 & ws & Hq & Hfresh2).
        pose proof Hacc as (Hp & Hfresh & Hext0 & (_ & Hseg & _)).
        pose proof Hacc1 as (_ & _ & Hext1 & Hlist1).
        destruct (Join_spec s1 p locs vs q locs2 ws Hlist1 Hq) as (s2 & Hjoin & Hlist2 & Hframe).
        { intros l Hl Hl2.
          destruct (seg_nodes_exist _ _ _ _ _ _ Hseg Hl) as [x Hx].
          rewrite (Hfresh2 l Hl2) in Hx. discriminate. }
        unfold bind at 1. rewrite Hjoin.
        apply (IH s0 s2 p (locs ++ locs2) (vs ++ ws)).
        split; [assumption|]. split; [|split; [|assumption]].
        -- intros l Hl. apply elem_of_app in Hl as [Hl|Hl]; [auto|].
           eapply fresh_in_extends; [exact Hext0|exact Hfresh2|exact Hl].
        -- eapply frame_extends; eassumption.
      * unfold bind at 1. cbn [Join]. eapply IH, Hacc1.
Qed.

Lemma validateContext_owned (v : Validator) (ctx : @executionContext Violation U) :
  Forall owning ctx -> owning_run (validateContext v ctx).
Proof.
  intros Hctx s.
  change (validateContext v ctx s)
    with (runValidations v (Some (newListLoc s)) ctx (withNewList s)).
  eapply runValidations_owned; [assumption|apply accumulates_new].
Qed.

Lemma setUpWith_owned g (a : Argument) (ctx : @executionContext Violation U) :
  owning g -> Forall owning ctx -> Forall owning (setUpWith g a ctx).
Proof.
  intros Hg Hctx.
  assert (Hadd : forall path, Forall owning (addValidation ctx g path)).
  { intros path. apply Forall_app. split; [assumption|].
    constructor; [|constructor]. intros v s. apply Hg. }
  destruct a; cbn [setUpWith]; try apply Hadd.
  destruct (negb isIgnored); [apply Hadd|assumption].
Qed.

Lemma setUpAll_owned (arguments : list Argument) :
  Forall (fun a => owning (validateOf a)) arguments ->
  forall ctx,
    Forall owning ctx ->
    Forall owning (fold_left (fun ctx a => setUp a ctx) arguments ctx).
Proof.
  induction 1 as [|a arguments Ha _ IH]; intros ctx Hctx; [assumption|].
  cbn [fold_left]. apply IH, setUpWith_owned; assumption.
Qed.

Lemma Validate_of_owning (v : Validator) (arguments : list Argument) :
  Forall (fun a => owning (validateOf a)) arguments ->
  owning_run (Validate v arguments).
Proof.
  intros Hargs. apply validateContext_owned, setUpAll_owned; [assumption|constructor].
Qed.

Lemma runEach_owned (v : Validator) (arguments : list Argument) :
  Forall (fun a => owning (validateOf a)) arguments ->
  Forall owning_run (runEach v arguments).
Proof.
  induction 1 as [|a arguments Ha _ IH]; [constructor|].
  constructor; [|exact IH].
  apply (Validate_of_owning v [a]). constructor; [assumption|constructor].
Qed.

Lemma NewViolationList_owned ws (s : St) :
  exists p locs s',
    NewViolationList ws s = Return (Some p) s'
    /\ accumulates s s' p locs ws.
Proof.
  destruct (accumulates_new s) as (Hp & _ & Hext & Hlist).
  destruct (Append_spec _ _ _ _ ws Hlist) as (new & s' & Hrun & Hlist' & Hnew & Hframe & _).
  exists (newListLoc s), new, s'. split.
  - change (NewViolationList ws s)
      with (bind (Append (Some (newListLoc s)) ws)
              (fun _ => ret (Some (newListLoc s))) (withNewList s)).
    unfold bind. rewrite Hrun. reflexivity.
  - split; [assumption|]. split; [exact Hnew|]. split; [|exact Hlist'].
    eapply frame_extends; [exact Hp| |exact Hext|exact Hframe].
    intros l Hl. apply elem_of_nil in Hl. tauto.
Qed.

Lemma carries_extends (s s' : St) e locs ws :
  carries s e locs ws -> extends s s' -> carries s' e locs ws.
Proof.
  intros [Hw|(Hv & q & Hq & Hlist)] Hext; [left; assumption|].
  right. split; [assumption|]. exists q. split; [assumption|].
  exact (is_list_extends _ _ _ _ _ _ Hlist Hext).
Qed.

Lemma unwrapViolationList_owned (m : @M Violation U (option (error Violation))) :
  owning_run m ->
  forall s : St,
    exists r s',
      bind m unwrapViolationList s = Return r s'
      /\ extends s s' /\ result_owned s s' r.
Proof.
  intros Hm s. destruct (Hm s) as (e & s1 & Hrun & Hext & He).
  destruct (NewViolationList_owned [] s1) as (p & locs & s2 & Hnew & Hacc).
  pose proof Hacc as (Hp & _ & Hext2 & Hlist).
  pose proof Hlist as (_ & Hseg & _). apply seg_nil_inv in Hseg. subst locs.
  assert (Hp0 : lists s !! p = None).
  { destruct (lists s !! p) eqn:Hx; [|reflexivity].
    destruct Hext as [Hlists _]. apply Hlists in Hx. congruence. }
  assert (Hext02 : extends s s2) by (eapply extends_trans; eassumption).
  unfold bind at 1. rewrite Hrun. unfold unwrapViolationList.
  unfold bind at 1. rewrite Hnew. destruct e as [e'|].
  - destruct He as [[Hv Hl]|(locs2 & ws & Hcarries & Hfresh2)].
    + exists (None, Some e'), s2. split.
      * unfold bind, AppendFromError. rewrite Hv, Hl. reflexivity.
      * split; [assumption|]. left. split; assumption.
    + destruct (absorb_spec s2 p [] [] e' locs2 ws Hlist
                  (carries_extends _ _ _ _ _ Hcarries Hext2))
        as (new & s3 & Happ & Hlist3 & Hframe & Hnew3).
      { intros l Hl. apply elem_of_nil in Hl. tauto. }
      exists (Some p, None), s3. split; [unfold bind; rewrite Happ; reflexivity|].
      split.
      * eapply frame_extends; [exact Hp0| |exact Hext02|exact Hframe].
        intros l Hl. apply elem_of_nil in Hl. tauto.
      * exists ([] ++ new), ([] ++ ws). split; [assumption|].
        intros l Hl. cbn [app] in Hl. destruct (Hnew3 l Hl) as [Hl2|Hnone].
        -- apply Hfresh2, Hl2.
        -- eapply fresh_in_extends with (locs := [l]); [exact Hext02| |apply list_elem_of_singleton; reflexivity].
           intros l' Hl'. apply list_elem_of_singleton in Hl'. subst l'. assumption.
  - exists (Some p, None), s2. split; [reflexivity|]. split; [assumption|].
    exists [], []. split; [assumption|].
    intros l Hl. apply elem_of_nil in Hl. tauto.
Qed.

Lemma Checker_owned err messageTemplate groups' messageParameters isIgnored isValid :
  owning (@Checker_validate Violation U err messageTemplate groups'
            messageParameters isIgnored isValid).
Proof.
  intros v s. unfold Checker_validate.
  destruct (isValid || isIgnored || IsIgnoredForGroups v groups').
  - exists (Some (newListLoc s), None), (withNewList s). split; [reflexivity|].
    eapply accumulates_result, accumulates_new.
  - match goal with |- context [NewViolationList ?ws] =>
      destruct (NewViolationList_owned ws s) as (p & locs & s' & Hnew & Hacc)
    end.
    exists (Some p, None), s'. split; [unfold bind; rewrite Hnew; reflexivity|].
    eapply accumulates_result, Hacc.
Qed.

Lemma owned_arguments_by_size (n : nat) (arguments : list Argument) :
  (forall a : Argument, (size a <= n)%nat -> owned a -> owning (validateOf a)) ->
  (list_sum (map size arguments) <= n)%nat ->
  Forall owned arguments ->
  Forall (fun a => owning (validateOf a)) arguments.
Proof.
  intros IH Hsz Hown. induction Hown as [|a arguments Ha _ IHargs]; [constructor|].
  change (size a + list_sum (map size arguments) <= n)%nat in Hsz. constructor.
  - apply IH; [lia|assumption].
  - apply IHargs. lia.
Qed.

Lemma owned_by_size (n : nat) :
  forall a : Argument, (size a <= n)%nat -> owned a -> owning (validateOf a).
Proof.
  induction n as [|n IH]; intros a Hsz Ha; [destruct a; simpl in Hsz; lia|].
  destruct Ha as [g path isIgnored Hg| |path th el isTrue Hth Hel
                 |groups' path th el Hth Hel|path args isIgnored Hargs
                 |path args isIgnored Hargs|path args isIgnored Hargs];
    cbn [size] in Hsz.
  - exact Hg.
  - apply Checker_owned.
  - apply (owned_arguments_by_size n _ IH) in Hth; [|lia].
    apply (owned_arguments_by_size n _ IH) in Hel; [|lia].
    intros v s.
    change (validateOf (WhenArgument path th el isTrue) v s)
      with (bind (if isTrue then Validate v th else Validate v el)
              unwrapViolationList s).
    apply unwrapViolationList_owned.
    destruct isTrue; apply Validate_of_owning; assumption.
  - apply (owned_arguments_by_size n _ IH) in Hth; [|lia].
    apply (owned_arguments_by_size n _ IH) in Hel; [|lia].
    intros v s.
    change (validateOf (WhenGroupsArgument groups' path th el) v s)
      with (bind (if IsIgnoredForGroups v groups' then Validate v el
                  else Validate v th)
              unwrapViolationList s).
    apply unwrapViolationList_owned.
    destruct (IsIgnoredForGroups v groups'); apply Validate_of_owning; assumption.
  - apply (owned_arguments_by_size n _ IH) in Hargs; [|lia].
    intros v s. rewrite validateOf_Sequential. apply combinator_owned.
    intros s0 s1 p Hacc.
    eapply sequentialLoop_owned; [apply runEach_owned; assumption|exact Hacc].
  - apply (owned_arguments_by_size n _ IH) in Hargs; [|lia].
    intros v s. rewrite validateOf_AtLeastOneOf. apply combinator_owned.
    intros s0 s1 p Hacc.
    eapply atLeastOneOfLoop_owned; [apply runEach_owned; assumption|exact Hacc].
  - apply (owned_arguments_by_size n _ IH) in Hargs; [|lia].
    intros v s.
    change (validateOf (AllArgument path args isIgnored) v s)
      with (combinator isIgnored
              (fun violations => allLoop violations (runEach v args)) s).
    apply combinator_owned.
    intros s0 s1 p Hacc.
    eapply allLoop_owned; [apply runEach_owned; assumption|exact Hacc].
Qed.

(** Every argument built from owning closures validates by an owning
    closure: it returns, keeps all that was in the store, and returns
    nothing but a fault or violations in nodes of its own making. *)
Theorem owned_validateOf (a : Argument) : owned a -> owning (validateOf a).
Proof. apply (owned_by_size (size a)). lia. Qed.

(** X20. [Validate] over arguments all of whose closures return, keep
    what was in the store and return only lists and errors of their own
    making, does the same: it always returns, without panic, keeps all that
    was in the store, and its error is a fault or carries violations in
    nodes made during the call. *)
Theorem Validate_owned (v : Validator) (arguments : list Argument) :
  Forall owned arguments -> owning_run (Validate v arguments).
Proof.
  intros Hargs. apply Validate_of_owning.
  eapply Forall_impl; [exact Hargs|]. intros a. apply owned_validateOf.
Qed.

End Ownership.

(** * Further properties *)

(** ** Paths and their text *)

Lemma With_app p a b : With (With p a) b = With p (a ++ b).
Proof. unfold With. rewrite fold_left_app. reflexivity. Qed.

Lemma Len_With a : forall p,
  PropertyPath_Len (With p a) = (PropertyPath_Len p + length a)%nat.
Proof.
  induction a as [|e a IH]; intros p; [simpl; lia|].
  change (With p (e :: a)) with (With (mkPath p (Some e)) a).
  rewrite IH. simpl. lia.
Qed.

(** X1. Extending a path twice is extending it once by both sequences;
    every element adds one to [Len]; [WithProperty] and [WithIndex] are
    [With] of one element; and [Elements] of a path built from nil gives
    back the elements in the order they were added. *)
Theorem With_composes (p : PropertyPath) (a b : list PropertyPathElement)
  (name : gostring) (i : Z) :
  With (With p a) b = With p (a ++ b)
  /\ PropertyPath_Len (With p a) = (PropertyPath_Len p + length a)%nat
  /\ WithProperty p name = With p [PropertyName name]
  /\ WithIndex p i = With p [ArrayIndex i]
  /\ Elements (With (NewPropertyPath a) b) = map Some (a ++ b).
Proof.
  split; [apply With_app|]. split; [apply Len_With|].
  split; [reflexivity|]. split; [reflexivity|].
  unfold NewPropertyPath. rewrite With_app. apply Elements_With.
Qed.

Lemma snoc_not_nil {A} (l : list A) (x : A) : l ++ [x] <> [].
Proof. destruct l; discriminate. Qed.

Section ParsedPaths.
Context `{UnicodeTables}.

Lemma addIndex_Ok parser parser' :
  addIndex parser = Ok parser' ->
  exists u,
    0 <= u <= MaxInt
    /\ parser' = mkParser (WithIndex (path parser) u) [] (index parser)
                   (pathIndex parser + 1) (state parser) (isEscape parser).
Proof.
  unfold addIndex. destruct (isDecimal (buffer parser)) eqn:Hdec.
  - rewrite (ParseUint_decimal _ Hdec).
    destruct (_ <=? maxUint64); [|discriminate].
    destruct (Z.ltb_spec MaxInt (decimalValue (buffer parser))) as [|Hfit];
      [discriminate|].
    intros [= <-]. exists (decimalValue (buffer parser)).
    split; [|reflexivity]. split; [|assumption].
    unfold isDecimal in Hdec. apply andb_true_iff in Hdec as [_ Hall].
    apply (decimalFrom_ge 0 _ ltac:(lia) Hall).
  - destruct (ParseUint_not_decimal _ Hdec) as [e ->]. destruct e; discriminate.
Qed.

Lemma hasRead_same es parser parser' :
  hasRead es parser ->
  path parser' = path parser ->
  pathIndex parser' = pathIndex parser ->
  (state parser' = closeBracketState -> state parser = closeBracketState) ->
  hasRead es parser'.
Proof.
  intros (Hp & Hn & Hr & Hc) Hp' Hn' Hs.
  split; [congruence|]. split; [congruence|]. split; [assumption|].
  intros Hst. auto.
Qed.

Lemma hasRead_more es e parser parser' :
  hasRead es parser ->
  indexInRange e ->
  path parser' = mkPath (path parser) (Some e) ->
  pathIndex parser' = pathIndex parser + 1 ->
  hasRead (es ++ [e]) parser'.
Proof.
  intros (Hp & Hn & Hr & _) He Hp' Hn'.
  split; [rewrite With_snoc; congruence|].
  split; [rewrite length_app; simpl; lia|].
  split; [apply Forall_app; split; [assumption|repeat constructor; assumption]|].
  intros _. apply snoc_not_nil.
Qed.

(** Every handler keeps the parser's path and counter in step. *)
Lemma hasRead_next es parser c parser' :
  hasRead es parser ->
  handleNext parser c = Ok parser' ->
  exists es', hasRead es' parser'.
Proof.
  intros Hread Hstep. destruct parser as [pth buf idx pidx st esc].
  unfold handleNext in Hstep.
  repeat match type of Hstep with
         | (if ?b then _ else _) = _ => destruct b
         end;
    [unfold handleOpenBracket in Hstep|unfold handleCloseBracket in Hstep
    |unfold handleDigit in Hstep|unfold handleQuote in Hstep
    |unfold handleEscape in Hstep|unfold handlePoint in Hstep
    |unfold handleOther in Hstep];
    cbn [state buffer isEscape] in Hstep;
    destruct st; try discriminate;
    repeat match type of Hstep with
           | context [if ?b then _ else _] => destruct b
           end;
    try discriminate;
    try (injection Hstep as <-;
         first
           [ exists es; eapply hasRead_same;
             [exact Hread|reflexivity|reflexivity
             |first [discriminate|intros _; reflexivity]]
           | exists (es ++ [PropertyName buf]);
             eapply (hasRead_more es (PropertyName buf)); [exact Hread|exact I|reflexivity|reflexivity] ]).
  destruct (addIndex _) as [parser1|e] eqn:Hadd; [|discriminate].
  injection Hstep as <-. apply addIndex_Ok in Hadd as (u & Hu & ->).
  exists (es ++ [ArrayIndex u]).
  eapply (hasRead_more es (ArrayIndex u)); [exact Hread|exact Hu|reflexivity|reflexivity].
Qed.

Lemma hasRead_setIndex es parser i :
  hasRead es parser -> hasRead es (setIndex parser i).
Proof. intros Hread. exact Hread. Qed.

Lemma hasRead_parseLoop text : forall es parser i parser',
  hasRead es parser ->
  parseLoop parser i text = Ok parser' ->
  exists es', hasRead es' parser'.
Proof.
  induction text as [|c text IH]; intros es parser i parser' Hread Hrun.
  - injection Hrun as <-. eauto.
  - rewrite parseLoop_cons in Hrun.
    destruct (handleNext (setIndex parser i) c) as [parser1|e] eqn:Hstep;
      [|discriminate].
    destruct (hasRead_next es _ c parser1 (hasRead_setIndex _ _ i Hread) Hstep)
      as [es1 Hread1].
    eapply IH; eassumption.
Qed.

Lemma hasRead_zero : hasRead [] zeroParser.
Proof. repeat split; [constructor|discriminate]. Qed.

Lemma hasRead_finish es parser p :
  hasRead es parser ->
  finish parser = Ok p ->
  exists es', es' <> [] /\ p = With nilPath es' /\ Forall indexInRange es'.
Proof.
  intros (Hp & Hn & Hr & Hc) Hfin. unfold finish in Hfin.
  assert (Hname : forall buf, Ok (WithProperty (path parser) buf) = Ok p ->
            exists es', es' <> [] /\ p = With nilPath es' /\ Forall indexInRange es').
  { intros buf [= <-]. exists (es ++ [PropertyName buf]).
    split; [apply snoc_not_nil|]. split; [rewrite With_snoc, Hp; reflexivity|].
    apply Forall_app. split; [assumption|repeat constructor]. }
  destruct (state parser); try discriminate;
    try (destruct (_ =? _)%nat; [discriminate|eapply Hname; eassumption]).
  injection Hfin as <-. exists es. auto.
Qed.

(** X2. A path parsed from a text that is not empty is one that
    [NewPropertyPath] builds from at least one element: no element is nil,
    every index lies in the range of a non-negative [int], [Elements] and
    [Len] agree on them, and [String] renders the path without panic. *)
Theorem parsed_path_is_built (text : gostring) (p : PropertyPath) :
  text <> [] ->
  parsePath text = Ok p ->
  exists es,
    es <> []
    /\ p = NewPropertyPath es
    /\ Forall indexInRange es
    /\ Elements p = map Some es
    /\ PropertyPath_Len p = length es
    /\ PropertyPath_String p = Some (renderFrom 0 es).
Proof.
  intros Hne Hparse. unfold parsePath, Parse in Hparse.
  destruct text as [|c text]; [congruence|].
  destruct (parseLoop zeroParser 0 (c :: text)) as [parser|e] eqn:Hrun;
    [|discriminate].
  destruct (hasRead_parseLoop _ _ _ _ _ hasRead_zero Hrun) as [es0 Hread].
  destruct (hasRead_finish _ _ _ Hread Hparse) as (es & Hes & -> & Hr).
  exists es. split; [assumption|]. split; [reflexivity|]. split; [assumption|].
  split; [apply Elements_With|]. split; [apply (Len_With es nilPath)|].
  unfold PropertyPath_String. rewrite Elements_With, writeElements_render.
  reflexivity.
Qed.

End ParsedPaths.

Lemma parsed_path_is_built_witness :
  exists es,
    es <> []
    /\ mkPath (mkPath nilPath (Some (PropertyName (runes "a")))) (Some (ArrayIndex 7))
       = NewPropertyPath es
    /\ Forall indexInRange es
    /\ Elements (mkPath (mkPath nilPath (Some (PropertyName (runes "a"))))
                   (Some (ArrayIndex 7))) = map Some es
    /\ PropertyPath_Len (mkPath (mkPath nilPath (Some (PropertyName (runes "a"))))
                           (Some (ArrayIndex 7))) = length es
    /\ @PropertyPath_String arabicTables
         (mkPath (mkPath nilPath (Some (PropertyName (runes "a")))) (Some (ArrayIndex 7)))
       = Some (@renderFrom arabicTables 0 es).
Proof.
  apply (@parsed_path_is_built arabicTables (runes "a[7]")).
  - discriminate.
  - vm_compute. reflexivity.
Defined.

Section ParseErrors.
Context `{UnicodeTables}.

Lemma addIndex_Err parser e :
  addIndex parser = Err e -> exists msg pidx, e = pathParsingProcessingError msg pidx.
Proof.
  unfold addIndex, newProcessingError.
  destruct (ParseUint (buffer parser)) as [u|[|]]; [destruct (MaxInt <? u)|..];
    intros [= <-]; eauto.
Qed.

(** A character error names the rune the handler was given, and the
    position and segment the parser is at. *)
Lemma handleNext_char_error parser c msg idx pidx c' :
  handleNext parser c = Err (pathParsingCharError msg idx pidx c') ->
  c' = c /\ idx = index parser /\ pidx = pathIndex parser.
Proof.
  intros Hstep. destruct parser as [pth buf i0 n0 st esc].
  unfold handleNext in Hstep.
  repeat match type of Hstep with
         | (if ?b then _ else _) = _ => destruct b
         end;
    [unfold handleOpenBracket in Hstep|unfold handleCloseBracket in Hstep
    |unfold handleDigit in Hstep|unfold handleQuote in Hstep
    |unfold handleEscape in Hstep|unfold handlePoint in Hstep
    |unfold handleOther in Hstep];
    cbn [state buffer isEscape] in Hstep;
    destruct st; try discriminate;
    repeat match type of Hstep with
           | context [if ?b then _ else _] => destruct b
           end;
    try discriminate;
    try (injection Hstep as <- <- <- <-; auto).
  destruct (addIndex _) as [parser1|e] eqn:Hadd; [discriminate|].
  apply addIndex_Err in Hadd as (m & n & ->). discriminate.
Qed.

(** X3. A character error of the parser points into the text: the rune it
    names stands in the text at the byte offset it reports, the text before
    that rune was accepted, and the segment number is the count of the
    elements read from it. *)
Theorem char_error_position (text msg : gostring) (idx pidx : Z) (c : rune) :
  parsePath text = Err (pathParsingCharError msg idx pidx c) ->
  exists pre post parser es,
    text = pre ++ c :: post
    /\ idx = byteLen pre
    /\ parseLoop zeroParser 0 pre = Ok parser
    /\ hasRead es parser
    /\ pidx = Z.of_nat (length es).
Proof.
  intros Hparse. unfold parsePath, Parse in Hparse.
  destruct text as [|c0 text]; [discriminate|].
  destruct (parseLoop zeroParser 0 (c0 :: text)) as [parser|e] eqn:Hrun.
  { unfold finish, newError in Hparse.
    destruct (state parser); try discriminate;
      destruct (_ =? _)%nat; discriminate. }
  injection Hparse as ->.
  assert (Hgen : forall text parser0 i es0,
            hasRead es0 parser0 ->
            parseLoop parser0 i text = Err (pathParsingCharError msg idx pidx c) ->
            exists pre post parser es,
              text = pre ++ c :: post
              /\ idx = i + byteLen pre
              /\ parseLoop parser0 i pre = Ok parser
              /\ hasRead es parser
              /\ pidx = Z.of_nat (length es)).
  { clear. induction text as [|c1 text IH]; intros parser0 i es0 Hread Hrun;
      [discriminate|].
    rewrite parseLoop_cons in Hrun.
    destruct (handleNext (setIndex parser0 i) c1) as [parser1|e] eqn:Hstep.
    - destruct (hasRead_next es0 _ c1 parser1 (hasRead_setIndex _ _ i Hread) Hstep)
        as [es1 Hread1].
      destruct (IH _ _ _ Hread1 Hrun) as (pre & post & parser & es & -> & -> & Hpre & Hes & ->).
      exists (c1 :: pre), post, parser, es.
      split; [reflexivity|]. split; [simpl; lia|].
      split; [rewrite parseLoop_cons, Hstep; exact Hpre|]. auto.
    - injection Hrun as ->.
      apply handleNext_char_error in Hstep as (-> & -> & ->).
      exists [], text, parser0, es0.
      split; [reflexivity|]. split; [simpl; lia|]. split; [reflexivity|].
      split; [assumption|]. destruct Hread as (_ & Hn & _). exact Hn. }
  destruct (Hgen _ _ _ _ hasRead_zero Hrun)
    as (pre & post & parser & es & Htext & Hidx & Hpre & Hes & Hn).
  exists pre, post, parser, es. auto 6.
Qed.

End ParseErrors.

Lemma char_error_position_witness :
  exists pre post parser es,
    runes "ab[1]x" = pre ++ chr "x" :: post
    /\ 5 = byteLen pre
    /\ @parseLoop arabicTables zeroParser 0 pre = Ok parser
    /\ hasRead es parser
    /\ 2 = Z.of_nat (length es).
Proof.
  apply (@char_error_position arabicTables (runes "ab[1]x") (runes "unexpected char")).
  vm_compute. reflexivity.
Defined.

(** ** Indices in brackets *)

Section IndexBrackets.
Context `{UnicodeTables}.

Lemma isDecimal_snoc buf c :
  buf = [] \/ isDecimal buf = true ->
  between 48 57 c = true ->
  isDecimal (buf ++ [c]) = true.
Proof.
  intros Hbuf Hc. unfold isDecimal.
  rewrite bool_decide_eq_false_2 by apply snoc_not_nil.
  rewrite forallb_app. cbn [forallb negb andb]. rewrite Hc.
  destruct Hbuf as [->|Hdec]; [reflexivity|].
  apply andb_true_iff in Hdec as [_ ->]. reflexivity.
Qed.

Lemma tidy_next parser c parser' :
  tidy parser -> handleNext parser c = Ok parser' -> tidy parser'.
Proof.
  intros (Hesc & Hbuf & Hdec) Hstep. destruct parser as [pth buf idx pidx st esc].
  cbn [isEscape state buffer] in Hesc, Hbuf, Hdec.
  unfold handleNext in Hstep. chr_values.
  destruct (between 48 57 c) eqn:Hdigit;
  repeat match type of Hstep with
         | (if ?b then _ else _) = _ => destruct b
         end;
    try match type of Hstep with handleOpenBracket _ _ = _ =>
          unfold handleOpenBracket in Hstep end;
    try match type of Hstep with handleCloseBracket _ _ = _ =>
          unfold handleCloseBracket in Hstep end;
    try match type of Hstep with handleDigit _ _ = _ =>
          unfold handleDigit in Hstep end;
    try match type of Hstep with handleQuote _ _ = _ =>
          unfold handleQuote in Hstep end;
    try match type of Hstep with handleEscape _ _ = _ =>
          unfold handleEscape in Hstep end;
    try match type of Hstep with handlePoint _ _ = _ =>
          unfold handlePoint in Hstep end;
    try match type of Hstep with handleOther _ _ = _ =>
          unfold handleOther in Hstep end;
    cbn [state buffer isEscape] in Hstep;
    destruct st; try discriminate;
    destruct esc; try (specialize (Hesc eq_refl); discriminate);
    try (destruct (addIndex _) as [parser1|e] eqn:Hadd; [|discriminate];
         apply addIndex_Ok in Hadd as (u & _ & ->));
    try (destruct buf; cbn in Hstep);
    repeat match type of Hstep with
           | context [if ?b then _ else _] => destruct b
           end;
    try discriminate;
    injection Hstep as <-; (split; [|split]); cbn; intros Hx;
    try reflexivity; try discriminate;
    try (destruct Hx as [Hx|[Hx|Hx]]; discriminate);
    try (apply Hbuf; auto; fail);
    try (apply (isDecimal_snoc []); [left; reflexivity|assumption]);
    try (apply (isDecimal_snoc (_ :: _)); [right; apply Hdec; reflexivity|assumption]);
    try (specialize (Hbuf ltac:(auto)); discriminate).
Qed.

Lemma tidy_parseLoop text : forall parser i parser',
  tidy parser -> parseLoop parser i text = Ok parser' -> tidy parser'.
Proof.
  induction text as [|c text IH]; intros parser i parser' Htidy Hrun.
  - injection Hrun as <-. assumption.
  - rewrite parseLoop_cons in Hrun.
    destruct (handleNext (setIndex parser i) c) as [parser1|e] eqn:Hstep;
      [|discriminate].
    eapply IH; [|exact Hrun]. eapply tidy_next; [|exact Hstep]. exact Htidy.
Qed.

Lemma tidy_zero : tidy zeroParser.
Proof. split; [discriminate|]. split; [reflexivity|discriminate]. Qed.

(** Digits read inside brackets leave the segment counter alone. *)
Lemma scan_digits_pathIndex ds : forall parser i parser',
  forallb (between 48 57) ds = true ->
  state parser = beginIndexState \/ state parser = indexState ->
  parseLoop parser i ds = Ok parser' ->
  pathIndex parser' = pathIndex parser.
Proof.
  induction ds as [|c ds IH]; intros parser i parser' Hall Hst Hrun.
  - injection Hrun as <-. reflexivity.
  - simpl in Hall. apply andb_true_iff in Hall as [Hc Hall].
    rewrite parseLoop_cons, handleNext_digit in Hrun by assumption.
    destruct parser as [pth buf idx pidx st esc]. cbn [state] in Hst.
    assert (Hstep : handleDigit (setIndex (mkParser pth buf idx pidx st esc) i) c
                    = Ok (mkParser pth (buf ++ [c]) i pidx indexState esc))
      by (destruct Hst as [->| ->]; reflexivity).
    rewrite Hstep in Hrun. apply IH in Hrun; [exact Hrun|assumption|right; reflexivity].
Qed.

(** A rune that is no digit and does not close the index is refused where
    an index has begun. *)
Lemma index_refuses parser c :
  between 48 57 c = false ->
  isEscape parser = false ->
  (state parser = beginIndexState /\ c <> chr "'")
  \/ (state parser = indexState /\ c <> chr "]") ->
  exists msg,
    handleNext parser c
    = Err (pathParsingCharError msg (index parser) (pathIndex parser) c).
Proof.
  intros Hc Hesc Hst. destruct parser as [pth buf idx pidx st esc].
  cbn [isEscape state index pathIndex] in *. subst esc.
  unfold handleNext. chr_values. rewrite Hc.
  destruct Hst as [[-> Hq]|[-> Hb]].
  - destruct (Z.eqb_spec c 91); [eexists; reflexivity|].
    destruct (Z.eqb_spec c 93); [eexists; reflexivity|].
    destruct (Z.eqb_spec c 39); [congruence|].
    destruct (Z.eqb_spec c 92); [eexists; reflexivity|].
    destruct (Z.eqb_spec c 46); eexists; reflexivity.
  - destruct (Z.eqb_spec c 91); [eexists; reflexivity|].
    destruct (Z.eqb_spec c 93); [congruence|].
    destruct (Z.eqb_spec c 39); [eexists; reflexivity|].
    destruct (Z.eqb_spec c 92); [eexists; reflexivity|].
    destruct (Z.eqb_spec c 46); eexists; reflexivity.
Qed.

(** C8. Where ['['] has opened an index after the text [pre], of which the
    elements [es] were read, the runes up to the closing [']'] must be a
    decimal numeral whose value fits the signed index range: then that
    value is appended to the path as an [ArrayIndex].  A numeral above the
    range makes the whole parse fail at the [']'] with a processing error
    that names the segment.  Content that is no numeral (nothing at all, or
    a rune that is no ASCII digit and, in the first place, no quote) never
    reaches the conversion: the whole parse fails at the first such rune
    with a character error that names the segment, the rune and its
    offset.  The conversion would refuse a buffer that is no numeral with a
    processing error as well, but whatever the text, the buffer of an index
    is a numeral. *)
Theorem close_bracket_checks_index (pre : gostring) (parser : pathParser) :
  parseLoop zeroParser 0 (pre ++ [chr "["]) = Ok parser ->
  state parser = beginIndexState ->
  exists es,
    hasRead es parser
    /\ (forall ds,
          isDecimal ds = true -> decimalValue ds <= MaxInt ->
          exists parser',
            parseLoop zeroParser 0 (pre ++ [chr "["] ++ ds ++ [chr "]"]) = Ok parser'
            /\ hasRead (es ++ [ArrayIndex (decimalValue ds)]) parser'
            /\ state parser' = closeBracketState
            /\ buffer parser' = [])
    /\ (forall ds post,
          isDecimal ds = true -> MaxInt < decimalValue ds ->
          exists msg,
            parsePath (pre ++ [chr "["] ++ ds ++ chr "]" :: post)
            = Err (pathParsingProcessingError msg (Z.of_nat (length es))))
    /\ (forall ds c post,
          forallb (between 48 57) ds = true ->
          between 48 57 c = false ->
          (ds = [] -> c <> chr "'") ->
          (ds <> [] -> c <> chr "]") ->
          exists msg,
            parsePath (pre ++ [chr "["] ++ ds ++ c :: post)
            = Err (pathParsingCharError msg (byteLen (pre ++ [chr "["] ++ ds))
                     (Z.of_nat (length es)) c))
    /\ (forall parser',
          state parser' = indexState ->
          isDecimal (buffer parser') = false ->
          exists msg,
            handleNext parser' (chr "]")
            = Err (pathParsingProcessingError msg (pathIndex parser')))
    /\ (forall text parser',
          parseLoop zeroParser 0 text = Ok parser' ->
          state parser' = indexState ->
          isDecimal (buffer parser') = true).
Proof.
  intros Hpre Hst.
  destruct (hasRead_parseLoop _ _ _ _ _ hasRead_zero Hpre) as [es Hread].
  pose proof (tidy_parseLoop _ _ _ _ tidy_zero Hpre) as (Hesc & Hbuf & _).
  assert (Hcore : core parser beginIndexState [] (path parser)).
  { split; [assumption|]. split; [auto|]. split; [reflexivity|].
    destruct (isEscape parser); [|reflexivity].
    rewrite Hesc in Hst by reflexivity. discriminate. }
  assert (Hscan : forall ds,
            forallb (between 48 57) ds = true ->
            exists parser1,
              parseLoop zeroParser 0 (pre ++ [chr "["] ++ ds) = Ok parser1
              /\ core parser1 (match ds with [] => beginIndexState | _ => indexState end)
                   ds (path parser)
              /\ pathIndex parser1 = Z.of_nat (length es)).
  { intros ds Hds.
    destruct (scan_digits ds parser (0 + byteLen (pre ++ [chr "["])) _ _ _ Hds Hcore)
      as (parser1 & Hrun & Hcore1); [auto|].
    exists parser1. rewrite app_assoc, parseLoop_app, Hpre.
    split; [exact Hrun|]. split; [exact Hcore1|].
    rewrite (scan_digits_pathIndex _ _ _ _ Hds (or_introl Hst) Hrun).
    apply Hread. }
  exists es. split; [exact Hread|]. split; [|split; [|split; [|split]]].
  - intros ds Hdec Hfit. pose proof Hdec as Hds.
    apply andb_true_iff in Hds as [Hne Hds].
    destruct (Hscan ds Hds) as (parser1 & Hrun & (Hs1 & Hb1 & Hp1 & He1) & Hn1).
    assert (Hs : state parser1 = indexState)
      by (destruct ds; [discriminate|exact Hs1]).
    rewrite !app_assoc, parseLoop_app, <- !app_assoc, Hrun.
    rewrite parseLoop_cons. unfold handleNext. chr_values. cbn [Z.eqb Pos.eqb].
    unfold handleCloseBracket. cbn [state setIndex]. rewrite Hs.
    rewrite (addIndex_accepts (setIndex parser1 _))
      by (cbn [buffer setIndex]; rewrite Hb1; assumption).
    cbn [parseLoop]. eexists. split; [reflexivity|].
    cbn [buffer setIndex state setState]. rewrite Hb1.
    split; [|split; reflexivity].
    eapply (hasRead_more es (ArrayIndex (decimalValue ds)) parser).
    + exact Hread.
    + split; [|assumption]. apply (decimalFrom_ge 0 _ ltac:(lia) Hds).
    + cbn. rewrite Hp1. reflexivity.
    + cbn. rewrite Hn1. symmetry. f_equal. apply Hread.
  - intros ds post Hdec Hbig. pose proof Hdec as Hds.
    apply andb_true_iff in Hds as [Hne Hds].
    destruct (Hscan ds Hds) as (parser1 & Hrun & (Hs1 & Hb1 & Hp1 & He1) & Hn1).
    assert (Hs : state parser1 = indexState)
      by (destruct ds; [discriminate|exact Hs1]).
    destruct (addIndex_rejects
                (setIndex parser1 (0 + byteLen (pre ++ [chr "["] ++ ds))))
      as [msg Hmsg].
    { right. cbn [buffer setIndex]. rewrite Hb1. assumption. }
    exists msg. unfold parsePath, Parse.
    destruct (pre ++ [chr "["] ++ ds ++ chr "]" :: post) eqn:Htext;
      [destruct pre; discriminate|].
    rewrite <- Htext, !app_assoc, parseLoop_app, <- !app_assoc, Hrun.
    rewrite parseLoop_cons. unfold handleNext. chr_values. cbn [Z.eqb Pos.eqb].
    unfold handleCloseBracket. cbn [state setIndex]. rewrite Hs, Hmsg.
    cbn [pathIndex setIndex]. rewrite Hn1. reflexivity.
  - intros ds c post Hds Hc Hquote Hclose.
    destruct (Hscan ds Hds) as (parser1 & Hrun & (Hs1 & Hb1 & Hp1 & He1) & Hn1).
    destruct (index_refuses
                (setIndex parser1 (0 + byteLen (pre ++ [chr "["] ++ ds))) c Hc)
      as [msg Hmsg].
    { exact He1. }
    { cbn [state setIndex].
      destruct ds; [left|right]; (split; [assumption|]);
        [apply Hquote; reflexivity|apply Hclose; discriminate]. }
    exists msg. unfold parsePath, Parse.
    destruct (pre ++ [chr "["] ++ ds ++ c :: post) eqn:Htext;
      [destruct pre; discriminate|].
    rewrite <- Htext, !app_assoc, parseLoop_app, <- !app_assoc, Hrun.
    rewrite parseLoop_cons, Hmsg. cbn [index pathIndex setIndex].
    rewrite Hn1. reflexivity.
  - intros parser' Hs Hdec.
    destruct (addIndex_rejects parser' (or_introl Hdec)) as [msg Hmsg].
    exists msg. unfold handleNext. chr_values. cbn [Z.eqb Pos.eqb].
    unfold handleCloseBracket. rewrite Hs, Hmsg. reflexivity.
  - intros text parser' Hrun Hs.
    apply (tidy_parseLoop _ _ _ _ tidy_zero Hrun), Hs.
Qed.

End IndexBrackets.

Lemma close_bracket_checks_index_witness :
  exists es,
    hasRead es
      (mkParser (mkPath nilPath (Some (PropertyName (runes "a")))) [] 1 1
         beginIndexState false)
    /\ (exists parser',
          @parseLoop arabicTables zeroParser 0 (runes "a[12]") = Ok parser'
          /\ hasRead (es ++ [ArrayIndex 12]) parser'
          /\ state parser' = closeBracketState
          /\ buffer parser' = [])
    /\ (exists msg,
          @parsePath arabicTables (runes "a[9223372036854775808].b")
          = Err (pathParsingProcessingError msg (Z.of_nat (length es))))
    /\ (exists msg,
          @parsePath arabicTables (runes "a[x]")
          = Err (pathParsingCharError msg 2 (Z.of_nat (length es)) (chr "x")))
    /\ (exists msg,
          @parsePath arabicTables (runes "a[]")
          = Err (pathParsingCharError msg 2 (Z.of_nat (length es)) (chr "]")))
    /\ (exists msg,
          @parsePath arabicTables (runes "a[1x]")
          = Err (pathParsingCharError msg 3 (Z.of_nat (length es)) (chr "x"))).
Proof.
  destruct (@close_bracket_checks_index arabicTables (runes "a")
              (mkParser (mkPath nilPath (Some (PropertyName (runes "a")))) [] 1 1
                 beginIndexState false))
    as (es & Hread & Hfit & Hbig & Hbad & _).
  - vm_compute. reflexivity.
  - reflexivity.
  - exists es. split; [exact Hread|].
    split; [apply (Hfit (runes "12")); [reflexivity|vm_compute; discriminate]|].
    split; [apply (Hbig (runes "9223372036854775808") (runes ".b"));
            [reflexivity|vm_compute; reflexivity]|].
    split; [apply (Hbad [] (chr "x") (runes "]")); [reflexivity|reflexivity| |];
            intros; [discriminate|congruence]|].
    split; [apply (Hbad [] (chr "]") []); [reflexivity|reflexivity| |];
            intros; [discriminate|congruence]|].
    apply (Hbad (runes "1") (chr "x") (runes "]")); [reflexivity|reflexivity| |];
      intros; [discriminate|discriminate].
Defined.

Section EdgesOfParsing.
Context `{UnicodeTables}.

(** X4. The empty text parses to the zero path: it has no elements though
    its [Len] is 1, and [String] gives the empty text back.  [UnmarshalText]
    of the empty text resets a receiver to it.  Extended by any elements,
    the zero path cannot be rendered: [String] panics on its nil value. *)
Theorem empty_text_path :
  parsePath [] = Ok (mkPath nilPath None)
  /\ PropertyPath_Len (mkPath nilPath None) = 1%nat
  /\ Elements (mkPath nilPath None) = []
  /\ PropertyPath_String (mkPath nilPath None) = Some []
  /\ (forall parent value,
        UnmarshalText (mkPath parent value) [] = Some (mkPath nilPath None, None))
  /\ (forall e es,
        PropertyPath_String (With (mkPath nilPath None) (e :: es)) = None).
Proof.
  repeat split. intros e es.
  destruct (exists_last (l := e :: es) ltac:(discriminate)) as (es' & x & ->).
  rewrite With_snoc. unfold PropertyPath_String, Elements.
  cbn [chainValues]. rewrite chainValues_With. reflexivity.
Qed.

(** X5. No path begins with a digit, a point, a closing bracket, a quote or
    a backslash: whatever follows, the parser rejects the text at its first
    rune, as part of element 0. *)
Theorem path_cannot_begin (c : rune) (rest : gostring) :
  cannotBegin c = true ->
  exists msg, parsePath (c :: rest) = Err (pathParsingCharError msg 0 0 c).
Proof.
  unfold cannotBegin, parsePath, Parse. intros Hc. rewrite parseLoop_cons.
  unfold handleNext. chr_values.
  destruct (Z.eqb_spec c 91) as [->|_]; [discriminate|].
  destruct (Z.eqb_spec c 93) as [->|_]; [eexists; reflexivity|].
  destruct (between 48 57 c); [eexists; reflexivity|].
  destruct (Z.eqb_spec c 39) as [->|_]; [eexists; reflexivity|].
  destruct (Z.eqb_spec c 92) as [->|_]; [eexists; reflexivity|].
  destruct (Z.eqb_spec c 46) as [->|_]; [eexists; reflexivity|].
  discriminate.
Qed.

End EdgesOfParsing.

Lemma path_cannot_begin_witness :
  exists msg,
    @parsePath arabicTables (chr "7" :: runes "a.b")
    = Err (pathParsingCharError msg 0 0 (chr "7")).
Proof.
  apply (@path_cannot_begin arabicTables (chr "7") (runes "a.b")).
  vm_compute. reflexivity.
Defined.

Section MarshalRoundTrip.
Context `{UnicodeTables}.

(** X6. Marshalling a path built from at least one element, each an index
    that is not negative or a name that is valid UTF-8 and whose digits are
    ASCII where [String] writes it bare, and unmarshalling the text into a
    receiver that is not nil, leaves the receiver equal to the path.  (A
    name that is not valid UTF-8 is not a sequence of code points; the
    codec reads and writes U+FFFD in place of its stray bytes.) *)
Theorem marshal_unmarshal (es : list PropertyPathElement) (parent : PropertyPath)
  (value : option PropertyPathElement) :
  es <> [] ->
  Forall namedInUTF8 es ->
  Forall roundTrips es ->
  exists text,
    MarshalText (NewPropertyPath es) = Some text
    /\ UnmarshalText (mkPath parent value) text = Some (NewPropertyPath es, None).
Proof.
  intros Hne _ Hall. exists (renderFrom 0 es). split.
  - unfold MarshalText, PropertyPath_String, NewPropertyPath.
    rewrite Elements_With, writeElements_render. reflexivity.
  - destruct (parse_rendered es [] zeroParser 0) as (parser & Hrun & Hready);
      [left; repeat split|assumption|].
    simpl length in Hrun. simpl app in Hready.
    unfold UnmarshalText, Parse. rewrite Hrun.
    destruct (renderFrom 0 es) eqn:Htext.
    { destruct es as [|e es]; [congruence|]. simpl in Htext.
      apply app_eq_nil in Htext as [Habs _].
      apply writeElement_not_empty in Habs. contradiction. }
    destruct parser as [pth buf idx pidx st esc].
    destruct Hready as [(Habs & _)|[(_ & Hs & Hb & Hp & He)|
                        (es' & name & Heq & Hnm & Hs & Hb & Hp & He)]];
      [congruence| |]; cbn [state buffer path isEscape] in Hs, Hb, Hp, He; subst.
    + unfold finish. cbn [state path]. unfold NewPropertyPath.
      destruct (exists_last Hne) as (es' & x & ->). rewrite With_snoc. reflexivity.
    + destruct name as [|c name]; [congruence|].
      unfold finish. cbn [state path buffer length Nat.eqb].
      unfold NewPropertyPath, WithProperty. rewrite With_snoc. reflexivity.
Qed.

End MarshalRoundTrip.

Lemma marshal_unmarshal_witness :
  exists text,
    @MarshalText arabicTables
      (NewPropertyPath [PropertyName (runes "user"); ArrayIndex 3;
                        PropertyName (runes "it's")]) = Some text
    /\ @UnmarshalText arabicTables (mkPath nilPath None) text
       = Some (NewPropertyPath [PropertyName (runes "user"); ArrayIndex 3;
                                PropertyName (runes "it's")], None).
Proof.
  apply (@marshal_unmarshal arabicTables
           [PropertyName (runes "user"); ArrayIndex 3; PropertyName (runes "it's")]
           nilPath None).
  - discriminate.
  - repeat constructor.
  - repeat constructor; vm_compute; congruence.
Defined.

(** ** More on lists in the store *)

Section ListIs.
Context {Violation U : Type} `{!ViolationMethods Violation}.
Abbreviation St := (@State Violation U).

Lemma isFrom_spec target locs : forall fuel e vs (s : St),
  seg (elements s) e locs vs None ->
  (length vs <= fuel)%nat ->
  isFrom fuel e target s = Return (existsb (fun v => Violation_Is v target) vs) s.
Proof.
  induction locs as [|l locs IH]; intros fuel e [|v vs] s Hseg Hfuel;
    simpl in Hseg; try tauto.
  - subst e. destruct fuel; reflexivity.
  - destruct Hseg as (-> & nxt & Hl & Hseg).
    destruct fuel as [|fuel]; [simpl in Hfuel; lia|].
    simpl in Hfuel. simpl. unfold bind, loadElement. rewrite Hl.
    cbn [violation next]. destruct (Violation_Is v target); [reflexivity|].
    apply IH; [assumption|lia].
Qed.

(** X7. [Is] of a well-formed list tells whether some violation of the
    list is the target, by that violation's own [Is]; on a list without
    violations it is false.  The store is left as it was. *)
Theorem List_Is_spec (s : St) p locs vs target fuel :
  is_list s p locs vs ->
  (length vs <= fuel)%nat ->
  List_Is fuel (Some p) target s
  = Return (existsb (fun v => Violation_Is v target) vs) s.
Proof.
  intros (Hp & Hseg & _) Hfuel. unfold List_Is, bind, loadList. rewrite Hp.
  cbn [first]. eapply isFrom_spec; eassumption.
Qed.

End ListIs.

Lemma List_Is_spec_witness :
  @List_Is nat unit dividesKinds 2 (Some 2%positive) (Some (PlainError 15%N)) sampleStore
  = Return (existsb (fun v => @Violation_Is nat dividesKinds v (Some (PlainError 15%N)))
              [20%nat; 30%nat]) sampleStore.
Proof.
  apply (@List_Is_spec nat unit dividesKinds sampleStore 2%positive
           [2%positive; 3%positive] [20%nat; 30%nat]).
  - exact sampleStore_list2.
  - simpl. lia.
Defined.

Section Sharing.
Context {Violation U : Type}.
Abbreviation St := (@State Violation U).

Lemma seg_split (els : gmap loc (ViolationListElementError Violation)) locs1 :
  forall e locs2 vs stop,
    seg els e (locs1 ++ locs2) vs stop ->
    exists vs1 vs2 mid,
      vs = vs1 ++ vs2
      /\ seg els e locs1 vs1 mid
      /\ seg els mid locs2 vs2 stop.
Proof.
  induction locs1 as [|l locs1 IH]; intros e locs2 vs stop Hseg.
  - exists [], vs, e. split; [reflexivity|]. split; [reflexivity|exact Hseg].
  - destruct vs as [|v vs]; simpl in Hseg; [tauto|].
    destruct Hseg as (-> & nxt & Hl & Hseg).
    destruct (IH nxt locs2 vs stop Hseg) as (vs1 & vs2 & mid & -> & H1 & H2).
    exists (v :: vs1), vs2, mid. split; [reflexivity|]. split; [|assumption].
    simpl. split; [reflexivity|]. exists nxt. auto.
Qed.

(** A chain with more nodes than the slice has room for: the assignment
    past the end panics. *)
Lemma asSliceFrom_overrun locs : forall fuel e vs i acc (s : St),
  seg (elements s) e locs vs None ->
  (i <= length acc)%nat ->
  (length acc < i + length vs)%nat ->
  (length vs <= fuel)%nat ->
  asSliceFrom fuel e i acc s = Panic.
Proof.
  induction locs as [|l locs IH]; intros fuel e [|v vs] i acc s Hseg Hi Hlen Hfuel;
    simpl in Hseg; try tauto.
  - simpl in Hlen. lia.
  - destruct Hseg as (-> & nxt & Hl & Hseg).
    destruct fuel as [|fuel]; [simpl in Hfuel; lia|].
    simpl in Hlen, Hfuel. simpl. unfold bind, loadElement. rewrite Hl.
    cbn [violation next].
    destruct (Nat.ltb_spec i (length acc)) as [Hlt|Hge]; [|reflexivity].
    apply (IH fuel nxt vs (S i)); [assumption| | |lia];
      rewrite length_insert; lia.
Qed.

(** X8. [Join] shares the nodes of the joined list.  After [p.Join(q)] with
    a [q] that holds violations, [q.Append(v)] also lengthens the chain of
    [p]: [ForEach] on [p] visits the new violation too, while [Len] of [p]
    still counts the violations there were at the [Join], and [AsSlice] of
    [p], whose slice has room for that many, panics. *)
Theorem join_shares_nodes (s : St) p locs vs q locs2 ws v f fuel :
  is_list s p locs vs ->
  is_list s q locs2 ws ->
  ws <> [] ->
  p <> q ->
  (forall l, l ∈ locs -> l ∉ locs2) ->
  keeps_store f ->
  (length (vs ++ ws ++ [v]) <= fuel)%nat ->
  exists s1 s2,
    Join (Some p) (Some q) s = Return tt s1
    /\ Append (Some q) [v] s1 = Return tt s2
    /\ Len (Some p) s2 = Return (Z.of_nat (length vs) + Z.of_nat (length ws)) s2
    /\ ForEach fuel (Some p) f s2 = forEachList f 0 (vs ++ ws ++ [v]) s2
    /\ AsSlice fuel (Some p) s2 = Panic.
Proof.
  intros Hp Hq Hws Hne Hdisj Hf Hfuel.
  destruct (Join_spec s p locs vs q locs2 ws Hp Hq Hdisj) as (s1 & Hjoin & Hp1 & Hframe1).
  assert (Hq1 : is_list s1 q locs2 ws).
  { destruct Hframe1 as (_ & Hl & He & _). pose proof Hq as (_ & Hseg & _).
    eapply is_list_frame; [exact Hq|apply Hl; congruence|].
    intros l Hl2. apply He.
    - intros Hin. eapply Hdisj; eassumption.
    - eapply seg_nodes_exist; eassumption. }
  destruct (Append_spec s1 q locs2 ws [v] Hq1)
    as (new & s2 & Happ & Hq2 & Hfresh & Hframe2 & Hlen).
  exists s1, s2. split; [assumption|]. split; [assumption|].
  destruct Hp1 as (Hhdr1 & Hseg1 & Hnd1).
  destruct Hframe2 as (_ & Hl2 & He2 & _).
  assert (Hhdr2 : lists s2 !! p
                  = Some (mkList (head (locs ++ locs2)) (lastOf (locs ++ locs2))
                            (Z.of_nat (length (vs ++ ws))))).
  { rewrite Hl2 by congruence. exact Hhdr1. }
  (* the chain of [p] in the last state *)
  destruct (seg_split _ _ _ _ _ _ Hseg1) as (vs1 & vs2 & mid & Heq & Hs1 & Hs2).
  assert (Hvs1 : vs1 = vs /\ vs2 = ws).
  { pose proof Hp as (_ & Hseg & _).
    apply seg_length in Hseg. apply seg_length in Hs1.
    apply app_inj_1 in Heq as [? ?]; [auto|congruence]. }
  destruct Hvs1 as [-> ->].
  assert (Hmid : mid = head locs2) by (eapply seg_head; eassumption).
  assert (Hchain : seg (elements s2) (head (locs ++ locs2)) (locs ++ locs2 ++ new)
                     (vs ++ ws ++ [v]) None).
  { eapply seg_app.
    - eapply seg_frame; [exact Hs1|]. intros l Hl. apply He2.
      + intros Hin. eapply Hdisj; eassumption.
      + exact (seg_nodes_exist _ _ _ _ _ _ Hs1 Hl).
    - destruct Hq2 as (_ & Hseg2 & _). rewrite Hmid.
      replace (head locs2) with (head (locs2 ++ new)); [exact Hseg2|].
      destruct locs2; [|reflexivity].
      destruct Hq as (_ & Hseg & _). destruct ws; [congruence|simpl in Hseg; tauto]. }
  split; [|split].
  - unfold Len, bind, loadList. rewrite Hhdr2. cbn [len].
    rewrite length_app, Nat2Z.inj_add. reflexivity.
  - unfold ForEach, bind, loadList. rewrite Hhdr2. cbn [first].
    eapply forEachFrom_spec; eassumption.
  - unfold AsSlice, bind, loadList. rewrite Hhdr2. cbn [len first].
    destruct (Z.ltb_spec (Z.of_nat (length (vs ++ ws))) 0) as [Hneg|_]; [lia|].
    rewrite Nat2Z.id.
    eapply asSliceFrom_overrun; [exact Hchain|lia| |assumption].
    rewrite length_replicate, !length_app. simpl. lia.
Qed.

End Sharing.

Lemma join_shares_nodes_witness :
  exists s1 s2,
    Join (Some 1%positive) (Some 2%positive) sampleStore = Return tt s1
    /\ Append (Some 2%positive) [40%nat] s1 = Return tt s2
    /\ Len (Some 1%positive) s2 = Return (Z.of_nat 1 + Z.of_nat 2) s2
    /\ ForEach 4 (Some 1%positive) (fun _ _ => ret None) s2
       = forEachList (fun _ _ => ret None) 0 ([10] ++ [20; 30] ++ [40])%nat s2
    /\ AsSlice 4 (Some 1%positive) s2 = Panic.
Proof.
  apply (join_shares_nodes sampleStore 1%positive [1%positive] [10%nat]
           2%positive [2%positive; 3%positive] [20%nat; 30%nat] 40%nat
           (fun _ _ => ret None) 4%nat).
  - exact sampleStore_list1.
  - exact sampleStore_list2.
  - discriminate.
  - discriminate.
  - intros l Hl Hl2. apply list_elem_of_singleton in Hl. subst l.
    revert Hl2. compute_done.
  - intros i w s. simpl. auto.
  - simpl. lia.
Defined.

(** ** The package function [Filter] *)

Section PackageFilter.
Context {Violation U : Type}.
Abbreviation St := (@State Violation U).

Lemma carried_nodes_exist (s : St) errs locss wss :
  carried s errs locss wss ->
  forall l, l ∈ concat locss -> is_Some (elements s !! l).
Proof.
  induction 1 as [|errs locss wss _ IH|e errs locs ws locss wss Hc _ IH];
    intros l Hl; simpl in Hl.
  - apply elem_of_nil in Hl. tauto.
  - auto.
  - apply elem_of_app in Hl as [Hl|Hl]; [|auto].
    destruct Hc as [(w & _ & _ & ->)|(_ & q & _ & (_ & Hseg & _))].
    + apply elem_of_nil in Hl. tauto.
    + eapply seg_nodes_exist; eassumption.
Qed.

Lemma carried_frame (s s' : St) p locs errs locss wss :
  carried s errs locss wss ->
  frame p locs s s' ->
  Forall (fun err => UnwrapViolation err = None ->
                     UnwrapViolationList err <> Some (Some p)) errs ->
  (forall l, l ∈ concat locss -> l ∉ locs) ->
  carried s' errs locss wss.
Proof.
  intros Hc (_ & Hl & He & _).
  induction Hc as [|errs locss wss _ IH|e errs locs2 ws locss wss Hc _ IH];
    intros Hnp Hdisj.
  - constructor.
  - constructor. apply IH; [eapply Forall_inv_tail; eassumption|exact Hdisj].
  - apply Forall_cons in Hnp as [Hq Hnp]. constructor.
    + destruct Hc as [Hw|(Hv & q & Hul & Hlist)]; [left; assumption|].
      right. split; [assumption|]. exists q. split; [assumption|].
      pose proof Hlist as (_ & Hseg & _).
      eapply is_list_frame; [exact Hlist|apply Hl; specialize (Hq Hv); congruence|].
      intros l Hin. apply He.
      * apply Hdisj. simpl. apply elem_of_app. left. assumption.
      * eapply seg_nodes_exist; eassumption.
    + apply IH; [assumption|]. intros l Hin. apply Hdisj. simpl.
      apply elem_of_app. right. assumption.
Qed.

(** The loop over errors that carry violations: they all go to the list. *)
Lemma validation_FilterLoop_absorbs errs : forall (s : St) p locs vs locss wss rest,
  is_list s p locs vs ->
  carried s errs locss wss ->
  NoDup (locs ++ concat locss) ->
  Forall (fun err => UnwrapViolation err = None ->
                     UnwrapViolationList err <> Some (Some p)) errs ->
  exists locs' s',
    is_list s' p locs' (vs ++ concat wss)
    /\ validation_FilterLoop (Some p) (errs ++ rest) s
       = validation_FilterLoop (Some p) rest s'.
Proof.
  induction errs as [|err errs IH]; intros s p locs vs locss wss rest Hp Hc Hnd Hnp.
  - inversion Hc; subst. exists locs, s. simpl. rewrite app_nil_r. auto.
  - apply Forall_cons in Hnp as [Hq Hnp].
    inversion Hc as [|errs' locss' wss' Hc'|e errs' locs2 ws locss' wss' Hcar Hc'];
      subst; cbn [app validation_FilterLoop concat].
    + unfold bind at 1. cbn [AppendFromError]. unfold ret at 1.
      apply (IH s p locs vs locss' wss' rest); assumption.
    + simpl in Hnd. apply NoDup_app in Hnd as (Hnd1 & Hdisj & Hnd2).
      apply NoDup_app in Hnd2 as (Hnd2 & Hdisj2 & Hnd3).
      destruct (absorb_spec s p locs vs e locs2 ws Hp Hcar)
        as (new & s1 & Hrun & Hp1 & Hframe & Hnew).
      { intros l Hl Hl2. eapply Hdisj; [exact Hl|].
        apply elem_of_app. left. assumption. }
      unfold bind at 1. rewrite Hrun.
      destruct (IH s1 p (locs ++ new) (vs ++ ws) locss' wss' rest Hp1)
        as (locs' & s' & Hp' & Heq).
      * eapply carried_frame; [exact Hc'|exact Hframe|exact Hnp|].
        intros l Hl Hin. eapply Hdisj; [exact Hin|].
        apply elem_of_app. right. assumption.
      * apply NoDup_app. split; [apply Hp1|]. split; [|assumption].
        intros l Hl Hin. apply elem_of_app in Hl as [Hl|Hl].
        -- eapply Hdisj; [exact Hl|]. apply elem_of_app. right. assumption.
        -- destruct (Hnew l Hl) as [Hl2|Hfresh].
           ++ eapply Hdisj2; eassumption.
           ++ destruct (carried_nodes_exist _ _ _ _ Hc' l Hin) as [x Hx]. congruence.
      * assumption.
      * exists locs', s'. rewrite <- app_assoc in Hp'. auto.
Qed.

Lemma carried_not_new (s : St) errs locss wss :
  carried s errs locss wss ->
  Forall (fun err => UnwrapViolation err = None ->
                     UnwrapViolationList err <> Some (Some (newListLoc s))) errs.
Proof.
  induction 1 as [|errs locss wss _ IH|e errs locs ws locss wss Hc _ IH];
    constructor; try assumption; [discriminate|].
  destruct Hc as [(w & Hw & _)|(_ & q & Hq & (Hhdr & _))].
  - intros Habs. congruence.
  - rewrite Hq. intros _ [= ->]. unfold newListLoc in Hhdr.
    rewrite fresh_list in Hhdr. discriminate.
Qed.

End PackageFilter.

Section PackageFilterFacts.
Context {Violation U : Type}.
Abbreviation St := (@State Violation U).

Lemma carried_extends (s s' : St) errs locss wss :
  carried s errs locss wss -> extends s s' -> carried s' errs locss wss.
Proof.
  intros Hc Hext. induction Hc; constructor; try assumption.
  eapply carries_extends; eassumption.
Qed.

Lemma validation_Filter_run (s : St) errs locss wss rest :
  carried s errs locss wss ->
  NoDup (concat locss) ->
  exists locs s',
    lists s !! newListLoc s = None
    /\ is_list s' (newListLoc s) locs (concat wss)
    /\ validation_Filter (errs ++ rest) s
       = validation_FilterLoop (Some (newListLoc s)) rest s'.
Proof.
  intros Hc Hnd. destruct (accumulates_new s) as (Hp & _ & Hext & Hlist).
  destruct (validation_FilterLoop_absorbs errs (withNewList s) (newListLoc s) [] []
              locss wss rest Hlist)
    as (locs & s' & Hp' & Heq).
  - eapply carried_extends; eassumption.
  - exact Hnd.
  - eapply carried_not_new; eassumption.
  - exists locs, s'. auto.
Qed.

(** X9. The package function [Filter], given errors each of which is nil or
    carries violations, in nodes that no two of them share, returns nil
    when there is no violation among them, and otherwise a new list that
    holds the violations of all of them, in the order given. *)
Theorem validation_Filter_collects (s : St) errs locss wss :
  carried s errs locss wss ->
  NoDup (concat locss) ->
  exists s',
    (concat wss = [] /\ validation_Filter errs s = Return None s')
    \/ (concat wss <> []
        /\ exists p locs,
             validation_Filter errs s = Return (Some (ListError (Some p))) s'
             /\ lists s !! p = None
             /\ is_list s' p locs (concat wss)).
Proof.
  intros Hc Hnd.
  destruct (validation_Filter_run s errs locss wss [] Hc Hnd)
    as (locs & s' & Hp & Hlist & Heq).
  rewrite app_nil_r in Heq. exists s'. rewrite Heq.
  cbn [validation_FilterLoop AsError]. unfold bind, loadList.
  pose proof Hlist as (Hhdr & _). rewrite Hhdr. cbn [len].
  destruct (concat wss) as [|w ws] eqn:Hws.
  - left. auto.
  - right. split; [discriminate|]. exists (newListLoc s), locs.
    split; [reflexivity|]. auto.
Qed.

(** X10. The package function [Filter] returns the first error that is
    neither a violation nor a list of violations, as it is, and looks at no
    error after it; the violations of the errors before it are dropped. *)
Theorem validation_Filter_first_fault (s : St) pre e post locss wss :
  carried s pre locss wss ->
  NoDup (concat locss) ->
  is_fault e ->
  exists s', validation_Filter (pre ++ Some e :: post) s = Return (Some e) s'.
Proof.
  intros Hc Hnd [Hv Hl].
  destruct (validation_Filter_run s pre locss wss (Some e :: post) Hc Hnd)
    as (locs & s' & Hp & Hlist & Heq).
  exists s'. rewrite Heq. cbn [validation_FilterLoop]. unfold bind, AppendFromError.
  rewrite Hv, Hl. reflexivity.
Qed.

End PackageFilterFacts.

Lemma sampleStore_carried :
  carried sampleStore
    [Some (ListError (Some 2%positive)); None; Some (ViolationError 5%nat None);
     Some (WrapError 0%N (Some (ListError (Some 1%positive))))]
    [[2%positive; 3%positive]; []; []; [1%positive]]
    [[20%nat; 30%nat]; []; [5%nat]; [10%nat]].
Proof.
  constructor.
  - right. split; [reflexivity|]. eexists. split; [reflexivity|exact sampleStore_list2].
  - constructor. constructor.
    + left. eexists. repeat split.
    + constructor; [|constructor].
      right. split; [reflexivity|]. eexists. split; [reflexivity|exact sampleStore_list1].
Qed.

Lemma validation_Filter_collects_witness :
  exists s',
    (concat [[20%nat; 30%nat]; []; [5%nat]; [10%nat]] = []
     /\ validation_Filter
          [Some (ListError (Some 2%positive)); None; Some (ViolationError 5%nat None);
           Some (WrapError 0%N (Some (ListError (Some 1%positive))))] sampleStore
        = Return None s')
    \/ (concat [[20%nat; 30%nat]; []; [5%nat]; [10%nat]] <> []
        /\ exists p locs,
             validation_Filter
               [Some (ListError (Some 2%positive)); None;
                Some (ViolationError 5%nat None);
                Some (WrapError 0%N (Some (ListError (Some 1%positive))))] sampleStore
             = Return (Some (ListError (Some p))) s'
             /\ lists sampleStore !! p = None
             /\ is_list s' p locs (concat [[20%nat; 30%nat]; []; [5%nat]; [10%nat]])).
Proof.
  apply (validation_Filter_collects sampleStore _
           [[2%positive; 3%positive]; []; []; [1%positive]]).
  - exact sampleStore_carried.
  - compute_done.
Defined.

Lemma validation_Filter_first_fault_witness :
  exists s',
    validation_Filter
      ([Some (ListError (Some 2%positive)); None; Some (ViolationError 5%nat None);
        Some (WrapError 0%N (Some (ListError (Some 1%positive))))]
       ++ Some (PlainError 7%N) :: [Some (ViolationError 6%nat None)]) sampleStore
    = Return (Some (PlainError 7%N)) s'.
Proof.
  apply (validation_Filter_first_fault sampleStore _ (PlainError 7%N) _
           [[2%positive; 3%positive]; []; []; [1%positive]]
           [[20%nat; 30%nat]; []; [5%nat]; [10%nat]]).
  - exact sampleStore_carried.
  - compute_done.
  - split; reflexivity.
Defined.

(** ** The receive loop of [Async] *)

Section AsyncFacts.
Context {Violation U : Type}.
Abbreviation St := (@State Violation U).

(** The loop over values that are nil or carry violations: they all go to
    the list. *)
Lemma asyncLoop_absorbs errs : forall (s : St) p locs vs locss wss rest,
  is_list s p locs vs ->
  carried s errs locss wss ->
  NoDup (locs ++ concat locss) ->
  Forall (fun err => UnwrapViolation err = None ->
                     UnwrapViolationList err <> Some (Some p)) errs ->
  exists locs' s',
    is_list s' p locs' (vs ++ concat wss)
    /\ asyncLoop (Some p) (errs ++ rest) s = asyncLoop (Some p) rest s'.
Proof.
  induction errs as [|err errs IH]; intros s p locs vs locss wss rest Hp Hc Hnd Hnp.
  - inversion Hc; subst. exists locs, s. simpl. rewrite app_nil_r. auto.
  - apply Forall_cons in Hnp as [Hq Hnp].
    inversion Hc as [|errs' locss' wss' Hc'|e errs' locs2 ws locss' wss' Hcar Hc'];
      subst; cbn [app asyncLoop concat].
    + unfold bind at 1. cbn [AppendFromError]. unfold ret at 1.
      apply (IH s p locs vs locss' wss' rest); assumption.
    + simpl in Hnd. apply NoDup_app in Hnd as (Hnd1 & Hdisj & Hnd2).
      apply NoDup_app in Hnd2 as (Hnd2 & Hdisj2 & Hnd3).
      destruct (absorb_spec s p locs vs e locs2 ws Hp Hcar)
        as (new & s1 & Hrun & Hp1 & Hframe & Hnew).
      { intros l Hl Hl2. eapply Hdisj; [exact Hl|].
        apply elem_of_app. left. assumption. }
      unfold bind at 1. rewrite Hrun.
      destruct (IH s1 p (locs ++ new) (vs ++ ws) locss' wss' rest Hp1)
        as (locs' & s' & Hp' & Heq).
      * eapply carried_frame; [exact Hc'|exact Hframe|exact Hnp|].
        intros l Hl Hin. eapply Hdisj; [exact Hin|].
        apply elem_of_app. right. assumption.
      * apply NoDup_app. split; [apply Hp1|]. split; [|assumption].
        intros l Hl Hin. apply elem_of_app in Hl as [Hl|Hl].
        -- eapply Hdisj; [exact Hl|]. apply elem_of_app. right. assumption.
        -- destruct (Hnew l Hl) as [Hl2|Hfresh].
           ++ eapply Hdisj2; eassumption.
           ++ destruct (carried_nodes_exist _ _ _ _ Hc' l Hin) as [x Hx]. congruence.
      * assumption.
      * exists locs', s'. rewrite <- app_assoc in Hp'. auto.
Qed.

(** C6, where the code falls short of it.  Once the values received before
    it have gone to the list, a fault is returned at once, as it is: the
    values [pending] are never received, so the goroutines that hold them
    have not finished when [validate] returns, and never will.  Only when
    no value is a fault are all of them received, and the list returned
    holds the violations they carry, in the order received. *)
Theorem Async_returns_at_first_fault (s : St) pre locss wss e pending :
  carried s pre locss wss ->
  NoDup (concat locss) ->
  is_fault e ->
  (exists s',
     AsyncArgument_validate false (pre ++ Some e :: pending) s
     = Return (None, Some e, pending) s')
  /\ (exists locs s',
        AsyncArgument_validate false pre s
        = Return (Some (newListLoc s), None, []) s'
        /\ is_list s' (newListLoc s) locs (concat wss)).
Proof.
  intros Hc Hnd [Hv Hl].
  destruct (accumulates_new s) as (Hp & _ & Hext & Hlist).
  assert (Hrun : forall rest,
            exists locs s',
              is_list s' (newListLoc s) locs (concat wss)
              /\ AsyncArgument_validate false (pre ++ rest) s
                 = asyncLoop (Some (newListLoc s)) rest s').
  { intros rest.
    destruct (asyncLoop_absorbs pre (withNewList s) (newListLoc s) [] []
                locss wss rest Hlist)
      as (locs & s' & Hp' & Heq).
    - eapply carried_extends; eassumption.
    - exact Hnd.
    - eapply carried_not_new; eassumption.
    - exists locs, s'. auto. }
  split.
  - destruct (Hrun (Some e :: pending)) as (locs & s' & _ & Heq).
    exists s'. rewrite Heq. cbn [asyncLoop]. unfold bind, AppendFromError.
    rewrite Hv, Hl. reflexivity.
  - destruct (Hrun []) as (locs & s' & Hp' & Heq).
    exists locs, s'. rewrite app_nil_r in Heq. rewrite Heq. auto.
Qed.

End AsyncFacts.

Lemma Async_returns_at_first_fault_witness :
  (exists s',
     AsyncArgument_validate false
       ([Some (ListError (Some 2%positive)); None; Some (ViolationError 5%nat None);
         Some (WrapError 0%N (Some (ListError (Some 1%positive))))]
        ++ Some (PlainError 7%N) :: [Some (ViolationError 6%nat None); None])
       sampleStore
     = Return (None, Some (PlainError 7%N), [Some (ViolationError 6%nat None); None]) s')
  /\ (exists locs s',
        AsyncArgument_validate false
          [Some (ListError (Some 2%positive)); None; Some (ViolationError 5%nat None);
           Some (WrapError 0%N (Some (ListError (Some 1%positive))))] sampleStore
        = Return (Some (newListLoc sampleStore), None, []) s'
        /\ is_list s' (newListLoc sampleStore) locs
             (concat [[20%nat; 30%nat]; []; [5%nat]; [10%nat]])).
Proof.
  apply (Async_returns_at_first_fault sampleStore _
           [[2%positive; 3%positive]; []; []; [1%positive]]
           [[20%nat; 30%nat]; []; [5%nat]; [10%nat]]).
  - exact sampleStore_carried.
  - compute_done.
  - split; reflexivity.
Defined.

(** ** The text of a list *)

Section ListText.
Context `{!UnicodeTables} {Violation U : Type}
  (Violation_Error Violation_Message : Violation -> gostring)
  (Violation_PropertyPath : Violation -> PropertyPath).
Abbreviation St := (@State Violation U).

Lemma toStringFrom_spec delimiter locs : forall fuel e vs i acc (s : St),
  seg (elements s) e locs vs None ->
  Forall (renders Violation_PropertyPath) vs ->
  (length vs <= fuel)%nat ->
  toStringFrom Violation_Message Violation_PropertyPath fuel delimiter e i acc s
  = Return (acc ++ listingFrom Violation_Message Violation_PropertyPath delimiter i vs) s.
Proof.
  induction locs as [|l locs IH]; intros fuel e [|v vs] i acc s Hseg Hall Hfuel;
    simpl in Hseg; try tauto.
  - subst e. rewrite app_nil_r. destruct fuel; reflexivity.
  - destruct Hseg as (-> & nxt & Hl & Hseg).
    apply Forall_cons in Hall as [Hv Hall].
    destruct fuel as [|fuel]; [simpl in Hfuel; lia|].
    simpl in Hfuel. cbn [toStringFrom listingFrom]. unfold bind at 1, loadElement.
    rewrite Hl. cbn [violation next]. unfold itemText.
    destruct (Violation_PropertyPath v) as [|parent value] eqn:Hpath.
    + rewrite (IH fuel nxt vs (i + 1) _ s Hseg Hall ltac:(lia)). f_equal.
      destruct (0 <? i); repeat rewrite <- app_assoc; reflexivity.
    + destruct Hv as [Hnil|[text Htext]]; [congruence|].
      rewrite Hpath in Htext. rewrite Htext.
      rewrite (IH fuel nxt vs (i + 1) _ s Hseg Hall ltac:(lia)). f_equal.
      destruct (0 <? i); repeat rewrite <- app_assoc; reflexivity.
Qed.

(** X11. [Error] of a well-formed list whose violations have paths that
    render: without violations it is the reminder to use [AsError]; with
    one it is the [Error] of that violation; with more it is
    ["violations:"] followed by one numbered entry for each violation, in
    order, the entries separated by [";"]. *)
Theorem List_Error_text (s : St) p locs vs fuel :
  is_list s p locs vs ->
  Forall (renders Violation_PropertyPath) vs ->
  (length vs <= fuel)%nat ->
  List_Error Violation_Error Violation_Message Violation_PropertyPath fuel (Some p) s
  = Return
      match vs with
      | [] =>
          runes "the list of violations is empty, it looks like you forgot to use the AsError method somewhere"
      | [v] => Violation_Error v
      | _ =>
          runes "violations:"
          ++ listingFrom Violation_Message Violation_PropertyPath (runes " ") 0 vs
      end s.
Proof.
  intros (Hhdr & Hseg & _) Hall Hfuel.
  unfold List_Error, List_String, toString, bind, loadList. rewrite Hhdr.
  cbn [len first].
  destruct vs as [|v [|v2 vs]].
  - reflexivity.
  - destruct locs as [|l [|l2 locs]]; simpl in Hseg; try tauto.
    + destruct Hseg as (_ & nxt & Hl & _). cbn [length].
      change (Z.of_nat 1 =? 0) with false. cbv beta iota.
      rewrite Hhdr. cbn [len first hd_error length].
      change (Z.of_nat 1 =? 0) with false. change (Z.of_nat 1 =? 1) with true.
      cbv beta iota. unfold loadElement. rewrite Hl. reflexivity.
    + destruct Hseg as (_ & nxt & _ & []).
  - replace (Z.of_nat (length (v :: v2 :: vs)) =? 0) with false
      by (symmetry; apply Z.eqb_neq; simpl length; lia).
    rewrite Hhdr. cbn [len first].
    replace (Z.of_nat (length (v :: v2 :: vs)) =? 0) with false
      by (symmetry; apply Z.eqb_neq; simpl length; lia).
    replace (Z.of_nat (length (v :: v2 :: vs)) =? 1) with false
      by (symmetry; apply Z.eqb_neq; simpl length; lia).
    apply (toStringFrom_spec (runes " ") locs); assumption.
Qed.

End ListText.

Lemma List_Error_text_witness :
  @List_Error nat unit arabicTables (fun n => Itoa (Z.of_nat n))
    (fun n => Itoa (Z.of_nat n)) (fun n => NewPropertyPath [ArrayIndex (Z.of_nat n)])
    2 (Some 2%positive) sampleStore
  = Return
      (runes "violations:"
       ++ @listingFrom arabicTables nat (fun n => Itoa (Z.of_nat n))
            (fun n => NewPropertyPath [ArrayIndex (Z.of_nat n)]) (runes " ") 0
            [20%nat; 30%nat]) sampleStore.
Proof.
  apply (@List_Error_text arabicTables nat unit (fun n => Itoa (Z.of_nat n))
           (fun n => Itoa (Z.of_nat n))
           (fun n => NewPropertyPath [ArrayIndex (Z.of_nat n)])
           sampleStore 2%positive [2%positive; 3%positive] [20%nat; 30%nat] 2%nat).
  - exact sampleStore_list2.
  - constructor; [right; vm_compute; eauto|].
    constructor; [right; vm_compute; eauto|constructor].
  - simpl. lia.
Defined.

Section NilReceiver.
Context {Violation U : Type} `{!ViolationMethods Violation}.
Abbreviation St := (@State Violation U).

(** X12. On a nil list, [Len] is 0, [ForEach] and [AsError] return nil
    and call nothing, [Join] of a nil or empty list returns, and
    [AppendFromError] of a nil error returns nil; but [Append], even of no
    violations, [Join] of a list whose counter is not 0, [AsSlice],
    [Filter] and [Is] panic. *)
Theorem nil_list_methods (s : St) (fuel : nat) f (vs : list Violation)
  (errs : list (option (error Violation))) (target : option (error Violation)) :
  Len None s = Return 0 s
  /\ ForEach fuel None f s = Return None s
  /\ AsError None s = Return None s
  /\ Join None None s = Return tt s
  /\ AppendFromError None None s = Return None s
  /\ Append None vs s = Panic
  /\ AsSlice fuel None s = Panic
  /\ Filter fuel None errs s = Panic
  /\ List_Is fuel None target s = Panic
  /\ (forall q,
        Join None (Some q) s
        = match lists s !! q with
          | Some l => if len l =? 0 then Return tt s else Panic
          | None => Panic
          end).
Proof.
  repeat split; try reflexivity.
  - destruct vs; reflexivity.
  - intros q. unfold Join, bind, loadList.
    destruct (lists s !! q) as [l|]; [|reflexivity].
    destruct (len l =? 0); reflexivity.
Qed.

End NilReceiver.

(** ** [Validate] over closures *)

Section Engine.
Context {Violation U : Type}.
Abbreviation St := (@State Violation U).
Abbreviation Validator := (@Validator Violation).
Abbreviation Argument := (@Argument Violation U).

Lemma At_nil (v : Validator) : At v [] = v.
Proof. destruct v. reflexivity. Qed.

Lemma AsError_spec (s : St) p locs vs :
  is_list s p locs vs -> AsError (Some p) s = Return (asErrorOf p vs) s.
Proof.
  intros (Hhdr & _). unfold AsError, bind, loadList. rewrite Hhdr. cbn [len].
  destruct vs; reflexivity.
Qed.

(** Joining what a closure returned. *)
Lemma join_held (s0 s : St) p locs vs q locs2 ws :
  is_list s0 p locs vs ->
  extends s0 s ->
  holds s q locs2 ws ->
  fresh_in s0 locs2 ->
  exists s',
    Join (Some p) q s = Return tt s'
    /\ is_list s' p (locs ++ locs2) (vs ++ ws).
Proof.
  intros Hp0 Hext Hq Hfresh.
  assert (Hp : is_list s p locs vs) by exact (is_list_extends _ _ _ _ _ _ Hp0 Hext).
  destruct q as [q|].
  - destruct (Join_spec s p locs vs q locs2 ws Hp Hq) as (s' & Hjoin & Hp' & _).
    { intros l Hl Hl2. pose proof Hp0 as (_ & Hseg & _).
      destruct (seg_nodes_exist _ _ _ _ _ _ Hseg Hl) as [x Hx].
      rewrite (Hfresh l Hl2) in Hx. discriminate. }
    eauto.
  - destruct Hq as [-> ->]. exists s. rewrite !app_nil_r. auto.
Qed.

(** The loop of [Validate] over closures that return lists. *)
Lemma runValidations_gathers (v : Validator) p gs rest :
  forall (s s' : St) wss locs vs,
    is_list s p locs vs ->
    gathers v p gs s wss s' ->
    runValidations v (Some p) (gs ++ rest) s = runValidations v (Some p) rest s'
    /\ exists locs', is_list s' p locs' (vs ++ concat wss).
Proof.
  intros s s' wss locs vs Hp Hg. revert locs vs Hp.
  induction Hg as [s|g gs s s1 s' q locs2 ws wss Hrun Hext Hq Hfresh _ IH];
    intros locs vs Hp.
  - simpl. rewrite app_nil_r. eauto.
  - destruct (join_held s s1 p locs vs q locs2 ws Hp Hext Hq Hfresh)
      as (s2 & Hjoin & Hp2).
    assert (Hafter : afterJoin p q s1 = s2)
      by (unfold afterJoin; rewrite Hjoin; reflexivity).
    rewrite Hafter in IH. destruct (IH _ _ Hp2) as [Heq (locs' & Hp')].
    split.
    + rewrite <- Heq. cbn [app runValidations]. unfold bind at 1. rewrite Hrun.
      cbn [fst snd]. unfold bind at 1. rewrite Hjoin. reflexivity.
    + exists locs'. simpl. rewrite app_assoc. assumption.
Qed.

Lemma setUp_NewArguments (gs : list (@ValidateFunc Violation U)) :
  forall ctx,
    fold_left (fun ctx a => setUp a ctx) (map NewArgument gs) ctx
    = ctx ++ map (fun g v => g (At v [])) gs.
Proof.
  induction gs as [|g gs IH]; intros ctx; simpl.
  - rewrite app_nil_r. reflexivity.
  - rewrite IH. unfold setUp, addValidation. simpl. rewrite <- app_assoc. reflexivity.
Qed.

Lemma gathers_At_nil (v : Validator) p gs (s s' : St) wss :
  gathers v p gs s wss s' ->
  gathers v p (map (fun g v => g (At v [])) gs) s wss s'.
Proof.
  induction 1 as [s|g gs s s1 s' q locs ws wss Hrun Hext Hq Hfresh _ IH];
    [constructor|].
  simpl. apply (gathers_cons _ _ _ _ _ s1 _ q locs ws); try assumption.
  rewrite At_nil. assumption.
Qed.

(** X13. [Validate] calls the closures of its arguments in order, with
    the validator, and joins the lists they return: when none returns an
    error, it returns nil if no list held a violation, and otherwise a new
    list that holds the violations of all the lists, closure after
    closure. *)
Theorem Validate_gathers (v : Validator) gs (s s' : St) wss :
  gathers v (newListLoc s) gs (withNewList s) wss s' ->
  exists locs,
    Validate v (map NewArgument gs) s
    = Return (asErrorOf (newListLoc s) (concat wss)) s'
    /\ is_list s' (newListLoc s) locs (concat wss).
Proof.
  intros Hg. apply gathers_At_nil in Hg.
  destruct (runValidations_gathers v _ _ [] _ _ _ _ _ (withNewList_is_list s) Hg)
    as [Heq (locs & Hp)].
  exists locs. split; [|exact Hp].
  unfold Validate. rewrite setUp_NewArguments. cbn [app].
  change (validateContext v (map (fun g v0 => g (At v0 [])) gs) s)
    with (runValidations v (Some (newListLoc s))
            (map (fun g v0 => g (At v0 [])) gs) (withNewList s)).
  rewrite app_nil_r in Heq. rewrite Heq. cbn [runValidations].
  exact (AsError_spec s' _ locs _ Hp).
Qed.

(** X14. [Validate] returns the error of the first closure that returns
    one, as it is, be it a violation or not: the closures after it are not
    called, and what the closures before it reported is dropped. *)
Theorem Validate_stops_at_first_error (v : Validator) pre g post (s s1 s2 : St)
  wss q err :
  gathers v (newListLoc s) pre (withNewList s) wss s1 ->
  g v s1 = Return (q, Some err) s2 ->
  Validate v (map NewArgument (pre ++ g :: post)) s = Return (Some err) s2.
Proof.
  intros Hg Hrun. apply gathers_At_nil in Hg.
  destruct (runValidations_gathers v _ _
              (map (fun g v => g (At v [])) (g :: post)) _ _ _ _ _
              (withNewList_is_list s) Hg) as [Heq _].
  unfold Validate. rewrite setUp_NewArguments. cbn [app].
  change (validateContext v (map (fun g v0 => g (At v0 [])) (pre ++ g :: post)) s)
    with (runValidations v (Some (newListLoc s))
            (map (fun g v0 => g (At v0 [])) (pre ++ g :: post)) (withNewList s)).
  rewrite map_app. etransitivity; [exact Heq|].
  cbn [map runValidations]. unfold bind.
  rewrite At_nil, Hrun. reflexivity.
Qed.

(** X15. An argument switched off by [When(false)] registers nothing:
    [Validate] runs as if the argument were not among its arguments, and
    the closure of the argument is never called. *)
Theorem ignored_argument_never_runs (v : Validator) (pre post : list Argument)
  g path isIgnored (s : St) :
  Validate v (pre ++ ValidatorArgument_When g path isIgnored false :: post) s
  = Validate v (pre ++ post) s.
Proof.
  unfold Validate. rewrite !fold_left_app. reflexivity.
Qed.

End Engine.

Ltac none_in_nil := intros ? Hin; apply elem_of_nil in Hin; tauto.

Ltac fresh_by_cases :=
  intros ? Hin; revert Hin; rewrite ?elem_of_cons, elem_of_nil;
  intros Hin; repeat (destruct Hin as [->|Hin]; [reflexivity|]); tauto.

Lemma sample_gathers :
  exists s',
    gathers sampleValidator (newListLoc emptyState)
      [reportingFunc [1%nat]; reportingFunc []; reportingFunc [7; 8]%nat]
      (withNewList emptyState) [[1]; []; [7; 8]]%nat s'
    /\ user s' = 3%nat.
Proof.
  eexists. split.
  - eapply (gathers_cons _ _ _ _ _ _ _ (Some 2%positive) [1%positive] [1%nat]);
      [run|check_extends|check_is_list|fresh_by_cases|].
    eapply (gathers_cons _ _ _ _ _ _ _ (Some 3%positive) [] []);
      [run|check_extends|check_is_list|none_in_nil|].
    eapply (gathers_cons _ _ _ _ _ _ _ (Some 4%positive) [2%positive; 3%positive]
              [7; 8]%nat);
      [run|check_extends|check_is_list|fresh_by_cases|].
    apply gathers_nil.
  - vm_compute. reflexivity.
Qed.

Lemma Validate_gathers_witness :
  exists s' locs,
    Validate sampleValidator
      (map NewArgument [reportingFunc [1%nat]; reportingFunc []; reportingFunc [7; 8]%nat])
      emptyState
    = Return (asErrorOf (newListLoc emptyState) (concat [[1]; []; [7; 8]]%nat)) s'
    /\ is_list s' (newListLoc emptyState) locs (concat [[1]; []; [7; 8]]%nat).
Proof.
  destruct sample_gathers as (s' & Hg & _). exists s'.
  apply (Validate_gathers sampleValidator _ emptyState s' _ Hg).
Defined.

Lemma Validate_stops_at_first_error_witness :
  exists s2,
    Validate sampleValidator
      (map NewArgument
         ([reportingFunc [1%nat]; reportingFunc []; reportingFunc [7; 8]%nat]
          ++ faultingFunc 5 :: [reportingFunc [9%nat]]))
      emptyState
    = Return (Some (PlainError 5)) s2
    /\ user s2 = 4%nat.
Proof.
  destruct sample_gathers as (s1 & Hg & Huser).
  exists (mkState (lists s1) (elements s1) (S (user s1))). split.
  - apply (Validate_stops_at_first_error sampleValidator _ (faultingFunc 5) _
             emptyState s1 _ _ None (PlainError 5) Hg).
    reflexivity.
  - simpl. rewrite Huser. reflexivity.
Defined.

(** ** [All] and the conditional arguments *)

Section AllFacts.
Context {Violation U : Type}.
Abbreviation St := (@State Violation U).
Abbreviation Validator := (@Validator Violation).
Abbreviation Argument := (@Argument Violation U).

Lemma allLoop_reports (v : Validator) p tail args :
  forall (s s' : St) wss locs vs,
    is_list s p locs vs ->
    reports v p args s wss s' ->
    allLoop (Some p) (runEach v (args ++ tail)) s
    = allLoop (Some p) (runEach v tail) s'
    /\ exists locs', is_list s' p locs' (vs ++ concat wss).
Proof.
  intros s s' wss locs vs Hp Hr. revert locs vs Hp.
  induction Hr as [s|a args s s1 s' wss Hrun Hext _ IH
                  |a args s s1 s' err locs2 ws wss Hrun Hext Hcarries Hfresh _ IH];
    intros locs vs Hp.
  - simpl. rewrite app_nil_r. eauto.
  - assert (Hp1 : is_list s1 p locs vs) by exact (is_list_extends _ _ _ _ _ _ Hp Hext).
    destruct (IH _ _ Hp1) as [Heq (locs' & Hp')]. split; [|eauto].
    rewrite <- Heq. simpl. unfold bind at 1. rewrite Hrun. reflexivity.
  - assert (Hp1 : is_list s1 p locs vs) by exact (is_list_extends _ _ _ _ _ _ Hp Hext).
    destruct (absorb_spec s1 p locs vs err locs2 ws Hp1 Hcarries)
      as (new & s2 & Happend & Hp2 & _ & _).
    { intros l Hl Hl2. pose proof Hp as (_ & Hseg & _).
      destruct (seg_nodes_exist _ _ _ _ _ _ Hseg Hl) as [x Hx].
      rewrite (Hfresh l Hl2) in Hx. discriminate. }
    assert (Hafter : afterAppend p err s1 = s2)
      by (unfold afterAppend; rewrite Happend; reflexivity).
    rewrite Hafter in IH. destruct (IH _ _ Hp2) as [Heq (locs' & Hp')].
    split.
    + rewrite <- Heq. simpl. unfold bind at 1. rewrite Hrun.
      unfold bind at 1. rewrite Happend. reflexivity.
    + exists locs'. simpl. rewrite app_assoc. assumption.
Qed.

Lemma validateOf_All path (arguments : list Argument) isIgnored (v : Validator) :
  validateOf (AllArgument path arguments isIgnored) v =
  combinator isIgnored (fun violations => allLoop violations (runEach v arguments)).
Proof. reflexivity. Qed.

(** X16. [All] validates every argument, in order, and returns a list
    that holds the violations of all of them, argument after argument;
    an argument that returns a fault ends it, with no list and that fault;
    switched off by [When(false)] it validates nothing and returns a new
    empty list. *)
Theorem All_collects (v : Validator) path args (s0 s2 : St) wss :
  reports v (newListLoc s0) args (withNewList s0) wss s2 ->
  (exists locs,
     validateOf (AllArgument path args false) v s0
     = Return (Some (newListLoc s0), None) s2
     /\ is_list s2 (newListLoc s0) locs (concat wss))
  /\ (forall a rest s3 err,
        Validate v [a] s2 = Return (Some err) s3 ->
        is_fault err ->
        validateOf (AllArgument path (args ++ a :: rest) false) v s0
        = Return (None, Some err) s3)
  /\ validateOf (AllArgument path args true) v s0
     = Return (Some (newListLoc s0), None) (withNewList s0).
Proof.
  intros Hr. split; [|split; [|reflexivity]].
  - destruct (allLoop_reports v _ [] args _ _ _ _ _ (withNewList_is_list s0) Hr)
      as [Hloop (locs & Hp)].
    exists locs. rewrite app_nil_r in Hloop.
    rewrite validateOf_All, combinator_run, Hloop. auto.
  - intros a rest s3 err Hrun [Hv Hl].
    destruct (allLoop_reports v _ (a :: rest) args _ _ _ _ _
                (withNewList_is_list s0) Hr) as [Hloop _].
    rewrite validateOf_All, combinator_run, Hloop. simpl.
    unfold bind at 1. rewrite Hrun. unfold bind, AppendFromError.
    rewrite Hv, Hl. reflexivity.
Qed.

End AllFacts.

Lemma sample_reports :
  exists s',
    reports sampleValidator (newListLoc emptyState)
      [reporting [1%nat]; reporting []; reporting [7; 8]%nat]
      (withNewList emptyState) [[1]; []; [7; 8]]%nat s'.
Proof.
  eexists.
  eapply (reports_fail _ _ _ _ _ _ _ _ [1%positive] [1%nat]);
    [run|check_extends| |fresh_by_cases|].
  { right. split; [reflexivity|]. exists 2%positive. split; [reflexivity|].
    check_is_list. }
  eapply reports_pass; [run|check_extends|].
  eapply (reports_fail _ _ _ _ _ _ _ _ [2%positive; 3%positive] [7; 8]%nat);
    [run|check_extends| |fresh_by_cases|].
  { right. split; [reflexivity|]. exists 6%positive. split; [reflexivity|].
    check_is_list. }
  apply reports_nil.
Qed.

Lemma All_collects_witness :
  exists s2,
    (exists locs,
       validateOf (AllArgument [] [reporting [1%nat]; reporting []; reporting [7; 8]%nat]
                     false) sampleValidator emptyState
       = Return (Some (newListLoc emptyState), None) s2
       /\ is_list s2 (newListLoc emptyState) locs (concat [[1]; []; [7; 8]]%nat))
    /\ (forall a rest s3 err,
          Validate sampleValidator [a] s2 = Return (Some err) s3 ->
          is_fault err ->
          validateOf (AllArgument []
                        ([reporting [1%nat]; reporting []; reporting [7; 8]%nat]
                         ++ a :: rest) false) sampleValidator emptyState
          = Return (None, Some err) s3)
    /\ validateOf (AllArgument [] [reporting [1%nat]; reporting []; reporting [7; 8]%nat]
                     true) sampleValidator emptyState
       = Return (Some (newListLoc emptyState), None) (withNewList emptyState).
Proof.
  destruct sample_reports as (s2 & Hr). exists s2.
  apply (All_collects sampleValidator [] _ emptyState s2 _ Hr).
Defined.

Section Unwrapping.
Context {Violation U : Type}.
Abbreviation St := (@State Violation U).
Abbreviation Validator := (@Validator Violation).
Abbreviation Argument := (@Argument Violation U).

Lemma NewViolationList_nil (s : St) :
  exists s',
    NewViolationList [] s = Return (Some (newListLoc s)) s'
    /\ lists s !! newListLoc s = None
    /\ is_list s' (newListLoc s) [] []
    /\ extends s s'.
Proof.
  destruct (accumulates_new s) as (Hp & _ & Hext & Hlist).
  destruct (Append_spec _ _ _ _ (@nil Violation) Hlist)
    as (new & s' & Hrun & Hlist' & _ & Hframe & Hlen).
  destruct new; [|discriminate]. exists s'. split.
  - change (NewViolationList [] s)
      with (bind (Append (Some (newListLoc s)) [])
              (fun _ => ret (Some (newListLoc s))) (withNewList s)).
    unfold bind. rewrite Hrun. reflexivity.
  - split; [assumption|]. split; [exact Hlist'|].
    eapply frame_extends; [exact Hp| |exact Hext|exact Hframe].
    intros l Hl. apply elem_of_nil in Hl. tauto.
Qed.

Lemma unwrapViolationList_unwraps (m : @M Violation U (option (error Violation))) :
  unwraps m (bind m unwrapViolationList).
Proof.
  intros s s1.
  destruct (NewViolationList_nil s1) as (s2 & Hnew & Hp & Hlist & Hext).
  split; [|split].
  - intros Hrun. exists (newListLoc s1), s2. unfold bind at 1. rewrite Hrun.
    unfold unwrapViolationList, bind. rewrite Hnew. auto.
  - intros err Hrun [Hv Hl]. exists s2. unfold bind at 1. rewrite Hrun.
    unfold unwrapViolationList. unfold bind at 1. rewrite Hnew.
    unfold bind, AppendFromError. rewrite Hv, Hl. auto.
  - intros err locs ws Hrun Hcarries.
    destruct (absorb_spec s2 _ [] [] err locs ws Hlist
                (carries_extends _ _ _ _ _ Hcarries Hext))
      as (new & s3 & Happ & Hlist3 & _ & _).
    { intros l Hl. apply elem_of_nil in Hl. tauto. }
    exists (newListLoc s1), new, s3. unfold bind at 1. rewrite Hrun.
    unfold unwrapViolationList. unfold bind at 1. rewrite Hnew.
    unfold bind. rewrite Happ. auto.
Qed.

(** X17. [When] validates its then-arguments if the condition holds and
    its else-arguments if not, and [WhenGroups] its then-arguments if the
    validator is applied for the groups and its else-arguments if not; the
    other arguments are not validated.  Nil from that validation becomes a
    new empty list, a fault comes back as the error with no list, and an
    error that carries violations becomes a new list that holds them. *)
Theorem conditional_validates_one_branch (v : Validator) path groups'
  (thenArguments elseArguments : list Argument) (isTrue : bool) :
  unwraps (Validate v (if isTrue then thenArguments else elseArguments))
    (validateOf (WhenArgument path thenArguments elseArguments isTrue) v)
  /\ unwraps (Validate v (if IsAppliedForGroups v groups' then thenArguments
                          else elseArguments))
       (validateOf (WhenGroupsArgument groups' path thenArguments elseArguments) v).
Proof.
  split.
  - change (validateOf (WhenArgument path thenArguments elseArguments isTrue) v)
      with (bind (if isTrue then Validate v thenArguments
                  else Validate v elseArguments) unwrapViolationList).
    destruct isTrue; apply unwrapViolationList_unwraps.
  - change (validateOf (WhenGroupsArgument groups' path thenArguments elseArguments) v)
      with (bind (if IsIgnoredForGroups v groups' then Validate v elseArguments
                  else Validate v thenArguments) unwrapViolationList).
    unfold IsIgnoredForGroups.
    destruct (IsAppliedForGroups v groups'); apply unwrapViolationList_unwraps.
Qed.

End Unwrapping.

Lemma conditional_validates_one_branch_witness :
  exists p locs' s2,
    validateOf (WhenArgument [] [reporting [7%nat]] [faulting 5] true)
      sampleValidator emptyState
    = Return (Some p, None) s2
    /\ is_list s2 p locs' [7%nat].
Proof.
  destruct (conditional_validates_one_branch sampleValidator [] []
              [reporting [7%nat]] [faulting 5] true) as [Hwhen _].
  edestruct (Hwhen emptyState) as (_ & _ & Hcarries).
  edestruct (Hcarries (ListError (Some 1%positive)) [1%positive] [7%nat])
    as (p & locs' & s2 & Hrun & _ & Hlist).
  - run.
  - right. split; [reflexivity|]. exists 1%positive. split; [reflexivity|].
    check_is_list.
  - exists p, locs', s2. split; [exact Hrun|exact Hlist].
Defined.

(** ** Validation by groups *)

Section WhenGroupsRuns.
Context {Violation U : Type}.
Abbreviation St := (@State Violation U).
Abbreviation Validator := (@Validator Violation).
Abbreviation Argument := (@Argument Violation U).

Lemma NewViolationList_nil_user (s s' : St) r :
  NewViolationList [] s = Return r s' -> user s' = user s.
Proof.
  destruct (Append_spec _ _ _ _ (@nil Violation) (withNewList_is_list s))
    as (new & s1 & Hrun & _ & _ & (Huser & _) & _).
  change (NewViolationList [] s)
    with (bind (Append (Some (newListLoc s)) [])
            (fun _ => ret (Some (newListLoc s))) (withNewList s)).
  unfold bind. rewrite Hrun. intros [= _ <-]. exact Huser.
Qed.

(** What [unwrapViolationList] makes of the error of a [Validate] whose
    list holds [ws]: a new list that holds [ws], in a state the closures
    would find as they left it. *)
Lemma unwrapViolationList_of_list (s : St) p locs ws :
  is_list s p locs ws ->
  exists p' locs' s',
    unwrapViolationList (asErrorOf p ws) s = Return (Some p', None) s'
    /\ lists s !! p' = None
    /\ is_list s' p' locs' ws
    /\ user s' = user s.
Proof.
  intros Hp.
  destruct (NewViolationList_nil s) as (s1 & Hnew & Hfresh & Hlist & Hext).
  pose proof (NewViolationList_nil_user _ _ _ Hnew) as Huser.
  destruct ws as [|w ws].
  - exists (newListLoc s), [], s1. unfold unwrapViolationList, bind.
    cbn [asErrorOf]. rewrite Hnew. auto.
  - destruct (absorb_spec s1 _ [] [] (ListError (Some p)) locs (w :: ws) Hlist)
      as (new & s2 & Happ & Hlist2 & (Huser2 & _) & _).
    { right. split; [reflexivity|]. exists p. split; [reflexivity|].
      exact (is_list_extends _ _ _ _ _ _ Hp Hext). }
    { intros l Hl. apply elem_of_nil in Hl. tauto. }
    exists (newListLoc s), new, s2. unfold unwrapViolationList.
    unfold bind at 1. cbn [asErrorOf]. rewrite Hnew.
    unfold bind. rewrite Happ.
    split; [reflexivity|]. split; [assumption|]. split; [exact Hlist2|congruence].
Qed.

(** [Validate] over closures that return lists, followed by
    [unwrapViolationList]. *)
Lemma validate_closures_unwrapped (v : Validator) gs (s s1 : St) wss :
  gathers v (newListLoc s) gs (withNewList s) wss s1 ->
  exists p locs s2,
    bind (Validate v (map NewArgument gs)) unwrapViolationList s
    = Return (Some p, None) s2
    /\ is_list s2 p locs (concat wss)
    /\ user s2 = user s1.
Proof.
  intros Hg. apply gathers_At_nil in Hg.
  destruct (runValidations_gathers v _ _ [] _ _ _ _ _ (withNewList_is_list s) Hg)
    as [Heq (locs & Hp)].
  rewrite app_nil_r in Heq. cbn [app] in Hp.
  destruct (unwrapViolationList_of_list s1 _ _ _ Hp)
    as (p' & locs' & s2 & Hun & _ & Hlist & Huser).
  exists p', locs', s2. split; [|auto].
  unfold bind at 1. unfold Validate. rewrite setUp_NewArguments. cbn [app].
  change (validateContext v (map (fun g v0 => g (At v0 [])) gs) s)
    with (runValidations v (Some (newListLoc s))
            (map (fun g v0 => g (At v0 [])) gs) (withNewList s)).
  rewrite Heq. cbn [runValidations].
  rewrite (AsError_spec s1 _ locs _ Hp). exact Hun.
Qed.

(** C3. [IsAppliedForGroups] holds exactly when the validator has no groups
    and the caller's list is empty or has the default group, or the
    validator has groups and one of them is in the caller's list, or the
    caller's list is empty and the default group is among the validator's.
    So [WhenGroups("admin").Then(X).Else(Y)] under a validator of group
    ["admin"] calls the closures of [X], in order, and returns a list of
    the violations they report, in the state they left: result and state
    are the same whatever [Y] is, no closure of which has run.  Under a
    validator without groups it is the closures of [Y] that run, and none
    of [X]. *)
Theorem IsAppliedForGroups_spec :
  (forall (validator : Validator) (G : list gostring),
     IsAppliedForGroups validator G = true <->
     (groups validator = [] /\ (G = [] \/ In DefaultGroup G))
     \/ (groups validator <> []
         /\ ((exists g, In g (groups validator) /\ In g G)
             \/ (G = [] /\ In DefaultGroup (groups validator)))))
  /\ (forall (validator : Validator) path (X : list (@ValidateFunc Violation U))
        (s s1 : St) wss,
        gathers (WithGroups validator [runes "admin"]) (newListLoc s) X
          (withNewList s) wss s1 ->
        exists p locs s2,
          is_list s2 p locs (concat wss)
          /\ user s2 = user s1
          /\ forall Y : list Argument,
               validateOf (WhenGroupsArgument [runes "admin"] path (map NewArgument X) Y)
                 (WithGroups validator [runes "admin"]) s
               = Return (Some p, None) s2)
  /\ (forall (validator : Validator) path (Y : list (@ValidateFunc Violation U))
        (s s1 : St) wss,
        gathers (WithGroups validator []) (newListLoc s) Y (withNewList s) wss s1 ->
        exists p locs s2,
          is_list s2 p locs (concat wss)
          /\ user s2 = user s1
          /\ forall X : list Argument,
               validateOf (WhenGroupsArgument [runes "admin"] path X (map NewArgument Y))
                 (WithGroups validator []) s
               = Return (Some p, None) s2).
Proof.
  split; [exact IsAppliedForGroups_iff|]. split.
  - intros validator path X s s1 wss Hg.
    destruct (validate_closures_unwrapped _ _ _ _ _ Hg)
      as (p & locs & s2 & Hrun & Hlist & Huser).
    exists p, locs, s2. split; [exact Hlist|]. split; [exact Huser|].
    intros Y. exact Hrun.
  - intros validator path Y s s1 wss Hg.
    destruct (validate_closures_unwrapped _ _ _ _ _ Hg)
      as (p & locs & s2 & Hrun & Hlist & Huser).
    exists p, locs, s2. split; [exact Hlist|]. split; [exact Huser|].
    intros X. exact Hrun.
Qed.

End WhenGroupsRuns.

Lemma IsAppliedForGroups_spec_witness :
  (exists p locs s2,
     is_list s2 p locs (concat [[7]; [8]]%nat)
     /\ user s2 = 2%nat
     /\ validateOf (WhenGroupsArgument [runes "admin"] []
                      (map NewArgument [reportingFunc [7%nat]; reportingFunc [8%nat]])
                      [faulting 5; reporting [9%nat]])
          (WithGroups sampleValidator [runes "admin"]) emptyState
        = Return (Some p, None) s2)
  /\ (exists p locs s2,
        is_list s2 p locs (concat [[9%nat]])
        /\ user s2 = 1%nat
        /\ validateOf (WhenGroupsArgument [runes "admin"] []
                         [faulting 5; reporting [7%nat]]
                         (map NewArgument [reportingFunc [9%nat]]))
             (WithGroups sampleValidator []) emptyState
           = Return (Some p, None) s2).
Proof.
  destruct (@IsAppliedForGroups_spec nat nat) as (_ & Hadmin & Hdefault).
  split.
  - edestruct (Hadmin sampleValidator [] [reportingFunc [7%nat]; reportingFunc [8%nat]]
                 emptyState)
      as (p & locs & s2 & Hlist & Huser & Hrun).
    + eapply (gathers_cons _ _ _ _ _ _ _ _ [1%positive] [7%nat]);
        [run|check_extends|check_is_list|fresh_by_cases|].
      eapply (gathers_cons _ _ _ _ _ _ _ _ [2%positive] [8%nat]);
        [run|check_extends|check_is_list|fresh_by_cases|apply gathers_nil].
    + exists p, locs, s2. split; [exact Hlist|]. split; [|apply Hrun].
      rewrite Huser. reflexivity.
  - edestruct (Hdefault sampleValidator [] [reportingFunc [9%nat]] emptyState)
      as (p & locs & s2 & Hlist & Huser & Hrun).
    + eapply (gathers_cons _ _ _ _ _ _ _ _ [1%positive] [9%nat]);
        [run|check_extends|check_is_list|fresh_by_cases|apply gathers_nil].
    + exists p, locs, s2. split; [exact Hlist|]. split; [|apply Hrun].
      rewrite Huser. reflexivity.
Defined.

Section CheckerFacts.
Context {Violation U : Type}.
Abbreviation St := (@State Violation U).
Abbreviation Validator := (@Validator Violation).
Abbreviation Argument := (@Argument Violation U).

Lemma validate_one_closure (v : Validator) (a : Argument) g (s s1 : St) q locs ws :
  setUp a [] = [g] ->
  g v (withNewList s) = Return (q, None) s1 ->
  extends (withNewList s) s1 ->
  holds s1 q locs ws ->
  exists s',
    Validate v [a] s = Return (asErrorOf (newListLoc s) ws) s'
    /\ is_list s' (newListLoc s) locs ws.
Proof.
  intros Hsetup Hrun Hext Hq.
  assert (Hp1 : is_list s1 (newListLoc s) [] [])
    by exact (is_list_extends _ _ _ _ _ _ (withNewList_is_list s) Hext).
  assert (Hjoin : exists s', Join (Some (newListLoc s)) q s1 = Return tt s'
                             /\ is_list s' (newListLoc s) locs ws).
  { destruct q as [q|].
    - destruct (Join_spec s1 _ [] [] q locs ws Hp1 Hq) as (s' & Hj & Hp' & _);
        [none_in_nil|eauto].
    - destruct Hq as [-> ->]. exists s1. auto. }
  destruct Hjoin as (s' & Hjoin & Hp'). exists s'. split; [|exact Hp'].
  unfold Validate. cbn [fold_left]. rewrite Hsetup.
  change (validateContext v [g] s)
    with (runValidations v (Some (newListLoc s)) [g] (withNewList s)).
  cbn [runValidations]. unfold bind at 1. rewrite Hrun. cbn [fst snd].
  unfold bind at 1. rewrite Hjoin. exact (AsError_spec s' _ locs _ Hp').
Qed.

(** X18. Validating a [Checker] gives nil when the check holds, or the
    checker is switched off, or the validator is not applied for the
    checker's groups; otherwise it gives a new list of exactly one
    violation, the one the validator's factory makes of the checker's
    error, template and parameters at the validator's path extended by the
    checker's path. *)
Theorem Checker_reports (v : Validator) err messageTemplate path groups'
  messageParameters isIgnored isValid (s : St) :
  exists s' locs,
    Validate v [Checker err messageTemplate path groups' messageParameters
                  isIgnored isValid] s
    = Return
        (asErrorOf (newListLoc s)
           (if isValid || isIgnored || IsIgnoredForGroups v groups' then []
            else [violationFactory v err messageTemplate messageParameters
                    (With (propertyPath v) path)])) s'
    /\ is_list s' (newListLoc s) locs
         (if isValid || isIgnored || IsIgnoredForGroups v groups' then []
          else [violationFactory v err messageTemplate messageParameters
                  (With (propertyPath v) path)]).
Proof.
  set (g := fun v' : Validator =>
              @Checker_validate Violation U err messageTemplate groups'
                messageParameters isIgnored isValid (At v' path)).
  assert (Hsetup : setUp (Checker err messageTemplate path groups' messageParameters
                            isIgnored isValid) [] = [g]) by reflexivity.
  change (IsIgnoredForGroups v groups') with (IsIgnoredForGroups (At v path) groups').
  destruct (isValid || isIgnored || IsIgnoredForGroups (At v path) groups') eqn:Hskip.
  - destruct (accumulates_new (withNewList s)) as (_ & _ & Hext & Hlist).
    destruct (validate_one_closure v _ g s (withNewList (withNewList s))
                (Some (newListLoc (withNewList s))) [] [] Hsetup)
      as (s' & Hrun & Hp); [|exact Hext|exact Hlist|eauto].
    unfold g, Checker_validate. rewrite Hskip. reflexivity.
  - match goal with
    | |- context [asErrorOf _ [?w]] =>
        destruct (NewViolationList_owned [w] (withNewList s))
          as (q & locs & s1 & Hnew & (_ & _ & Hext & Hlist));
        destruct (validate_one_closure v _ g s s1 (Some q) locs [w] Hsetup)
          as (s' & Hrun & Hp); [|exact Hext|exact Hlist|eauto]
    end.
    unfold g, Checker_validate. rewrite Hskip. unfold bind.
    cbn [propertyPath violationFactory At]. rewrite Hnew. reflexivity.
Qed.

(** X19. Validating [CheckNoViolations(err)] gives nil for a nil error,
    the error itself for an error that is neither a violation nor a list
    of violations, and otherwise a new list that holds the violations the
    error carries. *)
Theorem CheckNoViolations_reports (v : Validator) (s : St) :
  (exists s', Validate v [CheckNoViolations None] s = Return None s')
  /\ (forall err,
        is_fault err ->
        exists s', Validate v [CheckNoViolations (Some err)] s = Return (Some err) s')
  /\ (forall err locs ws,
        carries s err locs ws ->
        exists locs' s',
          Validate v [CheckNoViolations (Some err)] s
          = Return (asErrorOf (newListLoc s) ws) s'
          /\ is_list s' (newListLoc s) locs' ws).
Proof.
  pose proof (accumulates_new s) as (_ & _ & Hext0 & _).
  assert (Hsetup : forall err,
            setUp (@CheckNoViolations Violation U err) []
            = [fun v' : Validator =>
                 (fun _ => @unwrapViolationList Violation U err) (At v' [])])
    by (intros err; reflexivity).
  split; [|split].
  - destruct (NewViolationList_nil (withNewList s)) as (s1 & Hnew & _ & Hlist & Hext).
    destruct (validate_one_closure v _ _ s s1 (Some (newListLoc (withNewList s)))
                [] [] (Hsetup None)) as (s' & Hrun & _); [|exact Hext|exact Hlist|eauto].
    unfold unwrapViolationList, bind. rewrite Hnew. reflexivity.
  - intros err [Hv Hl].
    destruct (NewViolationList_nil (withNewList s)) as (s1 & Hnew & _).
    exists s1. unfold Validate. cbn [fold_left]. rewrite Hsetup.
    match goal with
    | |- validateContext v [?g] s = _ =>
        change (validateContext v [g] s)
          with (runValidations v (Some (newListLoc s)) [g] (withNewList s))
    end.
    cbn [runValidations]. unfold bind at 1. unfold unwrapViolationList.
    unfold bind at 1. rewrite Hnew. unfold bind, AppendFromError.
    rewrite Hv, Hl. reflexivity.
  - intros err locs ws Hcarries.
    destruct (NewViolationList_nil (withNewList s)) as (s1 & Hnew & _ & Hlist & Hext).
    assert (Hext1 : extends s s1) by (eapply extends_trans; eassumption).
    destruct (absorb_spec s1 _ [] [] err locs ws Hlist
                (carries_extends _ _ _ _ _ Hcarries Hext1))
      as (new & s2 & Happ & Hlist2 & Hframe & _); [none_in_nil|].
    destruct (validate_one_closure v _ _ s s2 (Some (newListLoc (withNewList s)))
                new ws (Hsetup (Some err))) as (s' & Hrun & Hp).
    + unfold unwrapViolationList. unfold bind at 1. rewrite Hnew.
      unfold bind. rewrite Happ. reflexivity.
    + destruct Hframe as (_ & Hl & He & Hkeep). destruct Hext as [Hlists Hels].
      split.
      * intros q x Hx. destruct (decide (q = newListLoc (withNewList s))) as [->|Hne].
        -- pose proof (fresh_list (withNewList s)) as Hfresh.
           unfold newListLoc in Hx at 1. congruence.
        -- rewrite Hl by assumption. auto.
      * intros l x Hx. rewrite He; [auto|apply not_elem_of_nil|eauto].
    + exact Hlist2.
    + eauto.
Qed.

End CheckerFacts.

Lemma CheckNoViolations_reports_witness :
  exists locs' s',
    Validate sampleValidator [CheckNoViolations (Some (ListError (Some 2%positive)))]
      sampleStore
    = Return (asErrorOf (newListLoc sampleStore) [20%nat; 30%nat]) s'
    /\ is_list s' (newListLoc sampleStore) locs' [20%nat; 30%nat].
Proof.
  destruct (CheckNoViolations_reports sampleValidator sampleStore) as (_ & _ & Hcarries).
  apply (Hcarries (ListError (Some 2%positive)) [2%positive; 3%positive]).
  right. split; [reflexivity|]. exists 2%positive.
  split; [reflexivity|exact sampleStore_list2].
Defined.

Lemma Validate_owned_witness :
  @owning_run nat nat
    (Validate sampleValidator
       [Checker None [] [] [] [] false false;
        SequentialArgument []
          [Checker None [] [] [] [] false true;
           AllArgument [] [Checker None [] [] [] [] false false] false] false;
        WhenArgument [] [AtLeastOneOfArgument [] [] false] [] true]).
Proof.
  apply (Validate_owned sampleValidator). repeat constructor.
Defined.

(** ** Messages *)

Lemma HasPrefix_nil s : HasPrefix s [] = true.
Proof. destruct s; reflexivity. Qed.

Lemma replaceEach_absent old new s :
  occurs old s = false -> replaceEach old new s 0 = s.
Proof.
  induction s as [|c s IH]; intros Hocc; [reflexivity|].
  cbn [occurs] in Hocc. apply orb_false_iff in Hocc as [Hpre Hocc].
  cbn [replaceEach]. rewrite Hpre, (IH Hocc). reflexivity.
Qed.

Lemma ReplaceAll_absent s old new :
  occurs old s = false -> ReplaceAll s old new = s.
Proof.
  intros Hocc. destruct old as [|c old].
  - destruct s; simpl in Hocc; discriminate.
  - apply replaceEach_absent, Hocc.
Qed.

Lemma insertByKey_Permutation p ps : Permutation (insertByKey p ps) (p :: ps).
Proof.
  induction ps as [|q ps IH]; simpl; [reflexivity|].
  destruct (_ <? _); [|reflexivity].
  rewrite IH. apply perm_swap.
Qed.

Lemma sortByKeyLength_Permutation ps : Permutation (sortByKeyLength ps) ps.
Proof.
  induction ps as [|p ps IH]; simpl; [reflexivity|].
  rewrite insertByKey_Permutation. constructor. exact IH.
Qed.

Lemma insertByKey_longerFirst p ps :
  longerFirst ps -> longerFirst (insertByKey p ps).
Proof.
  induction ps as [|q ps IH]; intros Hs; simpl.
  - split; [constructor|exact I].
  - destruct Hs as [Hq Hs].
    destruct (Z.ltb_spec (stringLen (Key p)) (stringLen (Key q))) as [Hlt|Hge].
    + split; [|apply IH, Hs].
      rewrite insertByKey_Permutation. constructor; [lia|exact Hq].
    + split; [|split; assumption].
      constructor; [lia|].
      eapply Forall_impl; [exact Hq|]. intros r Hr. simpl in Hr. lia.
Qed.

Lemma insertByKey_ofKeyLength n p ps :
  ofKeyLength n (insertByKey p ps) = ofKeyLength n (p :: ps).
Proof.
  unfold ofKeyLength. induction ps as [|q ps IH]; [reflexivity|].
  cbn [insertByKey].
  destruct (Z.ltb_spec (stringLen (Key p)) (stringLen (Key q))) as [Hlt|Hge];
    [|reflexivity].
  cbn [List.filter] in *. rewrite IH.
  destruct (Z.eqb_spec (stringLen (Key p)) n) as [Hp|Hp];
    destruct (Z.eqb_spec (stringLen (Key q)) n) as [Hq|Hq]; try reflexivity.
  lia.
Qed.

(** X21. The violation the built-in factory creates keeps the error, the
    template and the path it is given; its parameters are the given ones
    rearranged so that no key is longer than one before it, parameters
    whose keys have the same number of bytes staying in the order given. *)
Theorem created_violation_parameters {Violation : Type}
  (err : option (error Violation)) (messageTemplate : gostring)
  (parameters : list TemplateParameter) (propertyPath : PropertyPath) :
  internal_err (BuiltinViolationFactory_CreateViolation err messageTemplate
                  parameters propertyPath) = err
  /\ internal_messageTemplate (BuiltinViolationFactory_CreateViolation err
                                 messageTemplate parameters propertyPath)
     = messageTemplate
  /\ internal_propertyPath (BuiltinViolationFactory_CreateViolation err
                              messageTemplate parameters propertyPath)
     = propertyPath
  /\ Permutation
       (internal_parameters (BuiltinViolationFactory_CreateViolation err
                               messageTemplate parameters propertyPath))
       parameters
  /\ longerFirst
       (internal_parameters (BuiltinViolationFactory_CreateViolation err
                               messageTemplate parameters propertyPath))
  /\ forall n,
       ofKeyLength n
         (internal_parameters (BuiltinViolationFactory_CreateViolation err
                                 messageTemplate parameters propertyPath))
       = ofKeyLength n parameters.
Proof.
  cbn [BuiltinViolationFactory_CreateViolation internal_err internal_messageTemplate
         internal_propertyPath internal_parameters renderMessage snd].
  repeat split.
  - apply sortByKeyLength_Permutation.
  - induction parameters as [|p ps IH]; [exact I|].
    apply insertByKey_longerFirst, IH.
  - intros n. induction parameters as [|p ps IH]; [reflexivity|].
    cbn [sortByKeyLength fold_right]. rewrite insertByKey_ofKeyLength.
    unfold ofKeyLength in *. cbn [List.filter]. fold (sortByKeyLength ps).
    rewrite IH. reflexivity.
Qed.

(** X22. A template in which the key of no parameter occurs is the
    message: [renderMessage] changes nothing in it. *)
Theorem message_without_keys (template : gostring)
  (parameters : list TemplateParameter) :
  Forall (fun p => occurs (Key p) template = false) parameters ->
  fst (renderMessage template parameters) = template.
Proof.
  intros Hall. cbn [renderMessage fst].
  assert (Hsorted : Forall (fun p => occurs (Key p) template = false)
                      (sortByKeyLength parameters)).
  { rewrite sortByKeyLength_Permutation. exact Hall. }
  induction Hsorted as [|p ps Hp _ IH]; [reflexivity|].
  cbn [fold_left]. rewrite (ReplaceAll_absent _ _ _ Hp). exact IH.
Qed.

Lemma message_without_keys_witness :
  fst (renderMessage (runes "value is too long")
         [mkTemplateParameter (runes "{{ value }}") (runes "x");
          mkTemplateParameter (runes "{{ limit }}") (runes "3")])
  = runes "value is too long".
Proof.
  apply (message_without_keys (runes "value is too long")).
  repeat constructor.
Defined.

(** ** Constraints *)

Section CountFacts.
Context {Violation : Type} `{!PackageErrors Violation}.
Abbreviation Validator := (@Validator Violation).

Import CountConstraint.

Lemma applied_not_ignored (v : Validator) :
  IsAppliedForGroups v [] = true -> IsIgnoredForGroups v [] = false.
Proof. unfold IsIgnoredForGroups. intros ->. reflexivity. Qed.

(** X23. Under a validator applied for the default group, [HasMinCount],
    [HasMaxCount], [HasCountBetween] and [HasExactCount] accept exactly the
    counts within their bounds; so [HasCountBetween] with a minimum above
    its maximum accepts none. *)
Theorem count_bounds (v : Validator) (a b count : Z) :
  IsAppliedForGroups v [] = true ->
  (ValidateCountable (HasMinCount a) v count = Passed <-> a <= count)
  /\ (ValidateCountable (HasMaxCount b) v count = Passed <-> count <= b)
  /\ (ValidateCountable (HasCountBetween a b) v count = Passed <-> a <= count <= b)
  /\ (ValidateCountable (HasExactCount a) v count = Passed <-> count = a)
  /\ (b < a -> ValidateCountable (HasCountBetween a b) v count <> Passed).
Proof.
  intros Happ. apply applied_not_ignored in Happ.
  assert (Hgen : forall lo hi cmin cmax,
            ValidateCountable (newCountComparison lo hi cmin cmax) v count = Passed
            <-> (cmax = true -> count <= hi) /\ (cmin = true -> lo <= count)).
  { intros lo hi cmin cmax. unfold ValidateCountable, checkBounds.
    cbn [newCountComparison newCountConstraint isIgnored groups checkDivisible
           checkMax checkMin max min orb].
    rewrite Happ.
    destruct cmax, cmin; cbn [andb];
      destruct (Z.ltb_spec hi count); destruct (Z.ltb_spec count lo);
      split; try discriminate; try reflexivity; intros; try lia;
      try (split; intros; try discriminate; lia). }
  unfold HasMinCount, HasMaxCount, HasCountBetween, HasExactCount.
  rewrite !Hgen. repeat split; intros; try discriminate; lia.
Qed.

End CountFacts.

Section CountReports.
Context {Violation : Type} `{!PackageErrors Violation}.
Abbreviation Validator := (@Validator Violation).

Import CountConstraint.

(** X24. What a count out of bounds is reported as.  Where minimum and
    maximum are one number, as for [HasExactCount], it is the error and
    message of the exact count, above as below; otherwise it is those of
    too many elements above the maximum, and of too few below the minimum.
    The parameters are the count and the bound missed; the path is the
    validator's. *)
Theorem count_reports (v : Validator) (a b count : Z) :
  IsAppliedForGroups v [] = true ->
  (count <> a ->
   ValidateCountable (HasExactCount a) v count
   = Violated
       (violationFactory v (fst ErrNotExactCount) (snd ErrNotExactCount)
          [mkTemplateParameter (runes "{{ count }}") (Itoa count);
           mkTemplateParameter (runes "{{ limit }}") (Itoa a)]
          (propertyPath v))
   /\ ValidateCountable (HasCountBetween a a) v count
      = ValidateCountable (HasExactCount a) v count)
  /\ (a <> b -> b < count ->
      ValidateCountable (HasCountBetween a b) v count
      = Violated
          (violationFactory v (fst ErrTooManyElements) (snd ErrTooManyElements)
             [mkTemplateParameter (runes "{{ count }}") (Itoa count);
              mkTemplateParameter (runes "{{ limit }}") (Itoa b)]
             (propertyPath v)))
  /\ (a <> b -> count <= b -> count < a ->
      ValidateCountable (HasCountBetween a b) v count
      = Violated
          (violationFactory v (fst ErrTooFewElements) (snd ErrTooFewElements)
             [mkTemplateParameter (runes "{{ count }}") (Itoa count);
              mkTemplateParameter (runes "{{ limit }}") (Itoa a)]
             (propertyPath v))).
Proof.
  intros Happ. apply applied_not_ignored in Happ.
  unfold HasExactCount, HasCountBetween, ValidateCountable, checkBounds, newViolation.
  cbn [newCountComparison newCountConstraint isIgnored groups checkDivisible
         checkMax checkMin max min orb andb maxErr minErr exactErr
         maxMessageTemplate minMessageTemplate exactMessageTemplate
         maxMessageParameters minMessageParameters exactMessageParameters].
  rewrite Happ. split; [|split].
  - intros Hne. split; [|reflexivity]. rewrite Z.eqb_refl.
    destruct (Z.ltb_spec a count); [reflexivity|].
    destruct (Z.ltb_spec count a); [reflexivity|lia].
  - intros Hab Hhi. destruct (Z.eqb_spec a b); [contradiction|].
    destruct (Z.ltb_spec b count); [reflexivity|lia].
  - intros Hab Hhi Hlo. destruct (Z.eqb_spec a b); [contradiction|].
    destruct (Z.ltb_spec b count); [lia|].
    destruct (Z.ltb_spec count a); [reflexivity|lia].
Qed.

(** X25. [HasCountDivisibleBy] with a divisor that is not positive fails
    with a constraint error, which is no violation, for every count,
    unless the constraint is switched off; with a positive divisor it
    accepts exactly the counts the divisor divides, negative ones
    included. *)
Theorem count_divisible (v : Validator) (d count : Z) :
  IsAppliedForGroups v [] = true ->
  (d <= 0 ->
   ValidateCountable (HasCountDivisibleBy d) v count
   = Failed (mkConstraintError (runes "CountConstraint") (propertyPath v)
               (runes "divisibleBy must be greater than zero")))
  /\ ValidateCountable (When (HasCountDivisibleBy d) false) v count = Passed
  /\ (0 < d ->
      (ValidateCountable (HasCountDivisibleBy d) v count = Passed <-> (d | count))).
Proof.
  intros Happ. apply applied_not_ignored in Happ.
  unfold HasCountDivisibleBy, ValidateCountable, checkBounds.
  cbn [When newCountConstraint isIgnored groups checkDivisible divisibleBy
         checkMax checkMin max min orb andb negb].
  rewrite Happ. split; [|split; [reflexivity|]].
  - intros Hd. destruct (Z.leb_spec d 0); [reflexivity|lia].
  - intros Hd. destruct (Z.leb_spec d 0); [lia|].
    destruct (Z.eqb_spec (Z.rem count d) 0) as [Hrem|Hrem]; cbn [negb].
    + split; [intros _|reflexivity]. apply Z.rem_divide; [lia|assumption].
    + split; [discriminate|]. intros Hdiv. apply Z.rem_divide in Hdiv; [|lia].
      contradiction.
Qed.

End CountReports.

Lemma count_bounds_witness :
  (@CountConstraint.ValidateCountable nat
     (@CountConstraint.HasMinCount nat sampleErrors 2) sampleValidator 5 = Passed <-> 2 <= 5)
  /\ (@CountConstraint.ValidateCountable nat
        (@CountConstraint.HasMaxCount nat sampleErrors 3) sampleValidator 5 = Passed <-> 5 <= 3)
  /\ (@CountConstraint.ValidateCountable nat
        (@CountConstraint.HasCountBetween nat sampleErrors 2 3) sampleValidator 5 = Passed
      <-> 2 <= 5 <= 3)
  /\ (@CountConstraint.ValidateCountable nat
        (@CountConstraint.HasExactCount nat sampleErrors 2) sampleValidator 5 = Passed <-> 5 = 2)
  /\ (3 < 2 ->
      @CountConstraint.ValidateCountable nat
        (@CountConstraint.HasCountBetween nat sampleErrors 2 3) sampleValidator 5 <> Passed).
Proof.
  apply (@count_bounds nat sampleErrors sampleValidator 2 3 5). reflexivity.
Defined.

Lemma count_reports_witness :
  @CountConstraint.ValidateCountable nat
    (@CountConstraint.HasCountBetween nat sampleErrors 2 3) sampleValidator 5
  = Violated
      (violationFactory sampleValidator (fst (@ErrTooManyElements nat sampleErrors))
         (snd (@ErrTooManyElements nat sampleErrors))
         [mkTemplateParameter (runes "{{ count }}") (Itoa 5);
          mkTemplateParameter (runes "{{ limit }}") (Itoa 3)]
         (propertyPath sampleValidator)).
Proof.
  destruct (@count_reports nat sampleErrors sampleValidator 2 3 5 eq_refl)
    as (_ & Hmany & _).
  apply Hmany; lia.
Defined.

Lemma count_divisible_witness :
  @CountConstraint.ValidateCountable nat
    (@CountConstraint.HasCountDivisibleBy nat sampleErrors 3) sampleValidator (-6) = Passed
  <-> (3 | -6).
Proof.
  destruct (@count_divisible nat sampleErrors sampleValidator 3 (-6) eq_refl)
    as (_ & _ & Hdiv).
  apply Hdiv. lia.
Defined.

Section LengthFacts.
Context {Violation : Type} `{!PackageErrors Violation}
  (ValidString : list Byte.byte -> bool)
  (RuneCountInString : list Byte.byte -> Z)
  (Quote : list Byte.byte -> gostring).
Abbreviation Validator := (@Validator Violation).

Import LengthConstraint.

(** X26. A length constraint, whatever its bounds, accepts a nil string
    and the empty string.  Under a validator applied for the default
    group, a string that is not empty and is valid UTF-8 is measured in
    bytes, not in characters: [HasLengthBetween] accepts it exactly when
    the number of its bytes is within the bounds; only a string that is
    not valid UTF-8 is measured by [utf8.RuneCountInString]. *)
Theorem length_counts_bytes (v : Validator) (c : t Violation) (a b : Z)
  (text : list Byte.byte) :
  IsAppliedForGroups v [] = true ->
  text <> [] ->
  ValidateString ValidString RuneCountInString Quote c v None = Passed
  /\ ValidateString ValidString RuneCountInString Quote c v (Some []) = Passed
  /\ (ValidString text = true ->
      (ValidateString ValidString RuneCountInString Quote (HasLengthBetween a b) v
         (Some text) = Passed
       <-> a <= Z.of_nat (length text) <= b))
  /\ (ValidString text = false ->
      (ValidateString ValidString RuneCountInString Quote (HasLengthBetween a b) v
         (Some text) = Passed
       <-> a <= RuneCountInString text <= b)).
Proof.
  intros Happ Hne. apply applied_not_ignored in Happ.
  split; [|split].
  - unfold ValidateString. destruct (_ || _); reflexivity.
  - unfold ValidateString. destruct (_ || _); reflexivity.
  - assert (Hgen : forall count,
              (if true && (b <? count)
               then Violated (newViolation Quote (HasLengthBetween a b) v count b text
                                (fst ErrTooLong) (snd ErrTooLong) [])
               else if true && (count <? a)
                    then Violated (newViolation Quote (HasLengthBetween a b) v count a
                                     text (fst ErrTooShort) (snd ErrTooShort) [])
                    else Passed) = Passed
              <-> a <= count <= b).
    { intros count. cbn [andb].
      destruct (Z.ltb_spec b count); [split; [discriminate|lia]|].
      destruct (Z.ltb_spec count a); [split; [discriminate|lia]|].
      split; [lia|reflexivity]. }
    unfold ValidateString.
    cbn [HasLengthBetween newLengthConstraint isIgnored groups checkMax checkMin
           max min maxErr minErr maxMessageTemplate minMessageTemplate
           maxMessageParameters minMessageParameters orb].
    rewrite Happ. rewrite bool_decide_eq_false_2 by assumption.
    split; intros Hvalid; rewrite Hvalid; cbn [negb]; apply Hgen.
Qed.

End LengthFacts.

Lemma length_counts_bytes_witness :
  @LengthConstraint.ValidateString nat (fun _ => true) (fun _ => 1) (fun _ => [])
    (@LengthConstraint.HasExactLength nat sampleErrors 1) sampleValidator None
  = Passed
  /\ @LengthConstraint.ValidateString nat (fun _ => true) (fun _ => 1) (fun _ => [])
       (@LengthConstraint.HasExactLength nat sampleErrors 1) sampleValidator (Some [])
     = Passed
  /\ ((fun _ : list Byte.byte => true) [Byte.xc3; Byte.xa9] = true ->
      (@LengthConstraint.ValidateString nat (fun _ => true) (fun _ => 1) (fun _ => [])
         (@LengthConstraint.HasLengthBetween nat sampleErrors 1 1) sampleValidator
         (Some [Byte.xc3; Byte.xa9]) = Passed
       <-> 1 <= Z.of_nat (length [Byte.xc3; Byte.xa9]) <= 1))
  /\ ((fun _ : list Byte.byte => true) [Byte.xc3; Byte.xa9] = false ->
      (@LengthConstraint.ValidateString nat (fun _ => true) (fun _ => 1) (fun _ => [])
         (@LengthConstraint.HasLengthBetween nat sampleErrors 1 1) sampleValidator
         (Some [Byte.xc3; Byte.xa9]) = Passed
       <-> 1 <= (fun _ : list Byte.byte => 1) [Byte.xc3; Byte.xa9] <= 1)).
Proof.
  apply (@length_counts_bytes nat sampleErrors (fun _ => true) (fun _ => 1)
           (fun _ => []) sampleValidator
           (@LengthConstraint.HasExactLength nat sampleErrors 1) 1 1
           [Byte.xc3; Byte.xa9]).
  - reflexivity.
  - discriminate.
Defined.

Section BlankFacts.
Context {Violation : Type} `{!PackageErrors Violation} {T : Type} `{EqDecision T}.
Abbreviation Validator := (@Validator Violation).


End BlankFacts.


Section ChoiceFacts.
Context {Violation : Type} `{!PackageErrors Violation}
  {T : Type} `{!Comparable T} (Sprint : T -> gostring).
Hypothesis equals_sym : forall a b : T, equals a b = true -> equals b a = true.
Hypothesis equals_trans :
  forall a b c : T, equals a b = true -> equals b c = true -> equals a c = true.
Abbreviation Validator := (@Validator Violation).

Import ChoiceConstraint.

Lemma mapAssign_not_empty (m : gomap) k b : mapAssign m k b <> [].
Proof. destruct m as [|[k' b'] m]; simpl; [|destruct (equals k' k)]; discriminate. Qed.

Lemma mapAssign_all_true (m : gomap) k :
  Forall (fun e => snd e = true) m ->
  Forall (fun e => snd e = true) (mapAssign m k true).
Proof.
  induction 1 as [|[k' b'] m Hb Hm IH]; simpl; [repeat constructor|].
  destruct (equals k' k); constructor; solve [reflexivity|assumption].
Qed.

(** A key equal to [x] is in the map once [k] is assigned exactly when one
    was before, or [k] is equal to [x]. *)
Lemma mapAssign_keys (m : gomap) k b x :
  existsb (fun e => equals (fst e) x) (mapAssign m k b)
  = existsb (fun e => equals (fst e) x) m || equals k x.
Proof.
  induction m as [|[k' b'] m IH]; simpl; [apply orb_comm|].
  destruct (equals k' k) eqn:Hk; simpl.
  - destruct (equals k x) eqn:Hx; [|rewrite orb_false_r; reflexivity].
    rewrite (equals_trans _ _ _ Hk Hx). reflexivity.
  - rewrite IH, orb_assoc. reflexivity.
Qed.

Lemma mapIndex_all_true (m : gomap) x :
  Forall (fun e => snd e = true) m ->
  mapIndex m x = existsb (fun e => equals (fst e) x) m.
Proof.
  induction 1 as [|[k' b'] m Hb _ IH]; simpl; [reflexivity|].
  simpl in Hb. subst b'. rewrite IH. destruct (equals k' x); reflexivity.
Qed.

(** The map [IsOneOf] builds: its keys are values given, every value given
    is equal to one of them unless it is not equal to itself, and they all
    map to [true]. *)
Lemma choices_spec (values : list T) : forall (m : gomap) x,
  Forall (fun e => snd e = true) m ->
  Forall (fun e => snd e = true)
    (fold_left (fun choices value => mapAssign choices value true) values m)
  /\ existsb (fun e => equals (fst e) x)
       (fold_left (fun choices value => mapAssign choices value true) values m)
     = existsb (fun e => equals (fst e) x) m || existsb (fun y => equals y x) values.
Proof.
  induction values as [|value values IH]; intros m x Hm; cbn [fold_left existsb].
  - rewrite orb_false_r. auto.
  - destruct (IH (mapAssign m value true) x (mapAssign_all_true _ _ Hm)) as [Hall Hkeys].
    split; [exact Hall|]. rewrite Hkeys, mapAssign_keys, orb_assoc. reflexivity.
Qed.

Lemma choices_lookup (zero : T) (values : list T) x :
  mapIndex (choices (IsOneOf Sprint zero values)) x = true
  <-> exists y, y ∈ values /\ equals y x = true.
Proof.
  cbn [IsOneOf choices].
  destruct (choices_spec values [] x (Forall_nil_2 _)) as [Hall Hkeys].
  rewrite (mapIndex_all_true _ _ Hall), Hkeys. cbn [existsb orb].
  rewrite existsb_exists. split; intros (y & Hin & Hy); exists y;
    (split; [|exact Hy]); [apply list_elem_of_In|apply list_elem_of_In]; exact Hin.
Qed.

Lemma choices_length (zero : T) (values : list T) :
  (length (choices (IsOneOf Sprint zero values)) =? 0)%nat = bool_decide (values = []).
Proof.
  cbn [IsOneOf choices]. destruct values as [|value values]; [reflexivity|].
  rewrite bool_decide_eq_false_2 by discriminate.
  apply Nat.eqb_neq. intros Hlen. apply length_zero_iff_nil in Hlen.
  revert Hlen. cbn [fold_left]. generalize (mapAssign_not_empty [] value true).
  generalize (mapAssign [] value true). clear value.
  induction values as [|value values IH]; intros m Hm; cbn [fold_left]; [exact Hm|].
  apply IH, mapAssign_not_empty.
Qed.

(** X28. [IsOneOf] without values fails with a constraint error, which is
    no violation, whatever the value, switched on or off.  With values,
    under a validator applied for the default group, it accepts nil, and a
    value that is not nil exactly when the value is equal, by the [==] of
    its type, to one of the values given or to the zero value of the type;
    after [WithoutBlank], exactly when it is equal to one of the values
    given.  So a value that is not equal to itself, such as a NaN, is
    rejected even when it is among the values given. *)
Theorem choice_accepts (v : Validator) (zero x : T) (values : list T)
  (value : option T) :
  IsAppliedForGroups v [] = true ->
  ValidateComparable Sprint (IsOneOf Sprint zero []) v value
  = Failed (mkConstraintError (runes "ChoiceConstraint") (propertyPath v)
              (runes "empty list of choices"))
  /\ (forall condition,
        ValidateComparable Sprint (When (IsOneOf Sprint zero []) condition) v value
        = Failed (mkConstraintError (runes "ChoiceConstraint") (propertyPath v)
                    (runes "empty list of choices")))
  /\ (values <> [] ->
      ValidateComparable Sprint (IsOneOf Sprint zero values) v None = Passed
      /\ (ValidateComparable Sprint (IsOneOf Sprint zero values) v (Some x) = Passed
          <-> (exists y, y ∈ values /\ equals y x = true) \/ equals x zero = true)
      /\ (ValidateComparable Sprint (WithoutBlank (IsOneOf Sprint zero values)) v
            (Some x) = Passed
          <-> exists y, y ∈ values /\ equals y x = true)
      /\ (equals x x = false ->
          ValidateComparable Sprint (IsOneOf Sprint zero values) v (Some x) <> Passed)).
Proof.
  intros Happ. apply applied_not_ignored in Happ.
  split; [reflexivity|]. split; [reflexivity|].
  intros Hne.
  assert (Hlen : (length (choices (IsOneOf Sprint zero values)) =? 0)%nat = false).
  { rewrite choices_length. apply bool_decide_eq_false_2, Hne. }
  pose proof (choices_lookup zero values x) as Hlookup.
  assert (Hone : ValidateComparable Sprint (IsOneOf Sprint zero values) v (Some x)
                 = Passed
                 <-> (exists y, y ∈ values /\ equals y x = true) \/ equals x zero = true).
  { unfold ValidateComparable. rewrite Hlen.
    cbn [IsOneOf choices isIgnored groups disallowBlank blank orb negb andb] in *.
    rewrite Happ.
    destruct (equals x zero); [tauto|].
    destruct (mapIndex _ x).
    - split; [intros _; left; apply Hlookup; reflexivity|reflexivity].
    - split; [discriminate|]. intros [Hy|Hz]; [|discriminate].
      apply Hlookup in Hy. discriminate. }
  split; [|split; [exact Hone|split]].
  - unfold ValidateComparable. rewrite Hlen.
    cbn [IsOneOf isIgnored groups orb]. rewrite Happ. reflexivity.
  - unfold ValidateComparable.
    cbn [WithoutBlank choices isIgnored groups disallowBlank blank] in *.
    rewrite Hlen.
    cbn [IsOneOf choices isIgnored groups disallowBlank blank orb negb andb] in *.
    rewrite Happ.
    destruct (mapIndex _ x).
    + split; [intros _; apply Hlookup; reflexivity|reflexivity].
    + split; [discriminate|]. intros Hy. apply Hlookup in Hy. discriminate.
  - intros Hx Hpass. apply Hone in Hpass as [(y & _ & Hy)|Hz].
    + rewrite (equals_trans _ _ _ (equals_sym _ _ Hy) Hy) in Hx. discriminate.
    + rewrite (equals_trans _ _ _ Hz (equals_sym _ _ Hz)) in Hx. discriminate.
Qed.

End ChoiceFacts.

Lemma sampleComparable_sym (a b : option nat) :
  @equals _ sampleComparable a b = true -> @equals _ sampleComparable b a = true.
Proof.
  destruct a as [m|], b as [n|]; simpl; try discriminate.
  rewrite !Nat.eqb_eq. congruence.
Qed.

Lemma sampleComparable_trans (a b c : option nat) :
  @equals _ sampleComparable a b = true -> @equals _ sampleComparable b c = true ->
  @equals _ sampleComparable a c = true.
Proof.
  destruct a as [m|], b as [n|], c as [k|]; simpl; try discriminate.
  rewrite !Nat.eqb_eq. congruence.
Qed.

Lemma choice_accepts_witness :
  (@ChoiceConstraint.ValidateComparable nat (option nat) sampleComparable
     (fun _ => runes "?")
     (@ChoiceConstraint.IsOneOf nat sampleErrors (option nat) sampleComparable
        (fun _ => runes "?") (Some 0%nat) [None; Some 18%nat; Some 21%nat])
     sampleValidator (Some (Some 21%nat)) = Passed
   <-> (exists y, y ∈ [None; Some 18%nat; Some 21%nat]
                  /\ @equals _ sampleComparable y (Some 21%nat) = true)
       \/ @equals _ sampleComparable (Some 21%nat) (Some 0%nat) = true)
  /\ @ChoiceConstraint.ValidateComparable nat (option nat) sampleComparable
       (fun _ => runes "?")
       (@ChoiceConstraint.IsOneOf nat sampleErrors (option nat) sampleComparable
          (fun _ => runes "?") (Some 0%nat) [None; Some 18%nat; Some 21%nat])
       sampleValidator (Some None) <> Passed.
Proof.
  split.
  - destruct (@choice_accepts nat sampleErrors (option nat) sampleComparable
                (fun _ => runes "?") sampleComparable_sym sampleComparable_trans
                sampleValidator (Some 0%nat) (Some 21%nat)
                [None; Some 18%nat; Some 21%nat] None eq_refl)
      as (_ & _ & Hvalues).
    apply Hvalues. discriminate.
  - destruct (@choice_accepts nat sampleErrors (option nat) sampleComparable
                (fun _ => runes "?") sampleComparable_sym sampleComparable_trans
                sampleValidator (Some 0%nat) None
                [None; Some 18%nat; Some 21%nat] None eq_refl)
      as (_ & _ & Hvalues).
    apply Hvalues; [discriminate|reflexivity].
Defined.

(** ** Escapes in bracketed names *)

Section Escapes.
Context `{UnicodeTables}.

Lemma plain_in_brackets mid : forall parser i,
  state parser = bracketedNameState ->
  Forall (fun r => r <> 39 /\ r <> 92) mid ->
  exists parser',
    parseLoop parser i mid = Ok parser'
    /\ state parser' = bracketedNameState
    /\ isEscape parser' = isEscape parser
    /\ buffer parser' = buffer parser ++ mid
    /\ path parser' = path parser
    /\ pathIndex parser' = pathIndex parser.
Proof.
  induction mid as [|r mid IH]; intros parser i Hst Hall.
  - exists parser. rewrite app_nil_r. auto 6.
  - apply Forall_cons in Hall as [[H39 H92] Hall].
    rewrite parseLoop_cons, bracketed_char by assumption.
    destruct (IH (writeRune (setIndex parser i) r) (i + utf8_RuneLen r) Hst Hall)
      as (parser' & Hrun & Hst' & Hesc & Hbuf & Hpath & Hidx).
    exists parser'. split; [exact Hrun|]. split; [exact Hst'|].
    split; [exact Hesc|]. split; [|auto].
    rewrite Hbuf. cbn [writeRune setIndex buffer]. rewrite <- app_assoc. reflexivity.
Qed.

(** X29. In a bracketed name a backslash does not escape the rune after
    it but the next quote or backslash, however far: the runes up to that
    one are taken as they are, and that one is taken as a rune of the
    name, the name going on after it. *)
Theorem escape_stays_pending (parser : pathParser) (i : Z) (mid : gostring)
  (c : rune) :
  state parser = bracketedNameState ->
  isEscape parser = true ->
  Forall (fun r => r <> 39 /\ r <> 92) mid ->
  c = 39 \/ c = 92 ->
  exists parser',
    parseLoop parser i (mid ++ [c]) = Ok parser'
    /\ state parser' = bracketedNameState
    /\ isEscape parser' = false
    /\ buffer parser' = buffer parser ++ mid ++ [c]
    /\ path parser' = path parser
    /\ pathIndex parser' = pathIndex parser.
Proof.
  intros Hst Hesc Hall Hc.
  destruct (plain_in_brackets mid parser i Hst Hall)
    as (parser1 & Hrun & Hst1 & Hesc1 & Hbuf1 & Hpath1 & Hidx1).
  rewrite parseLoop_app, Hrun, parseLoop_cons.
  rewrite Hesc in Hesc1.
  destruct parser1 as [pth buf idx pidx st esc].
  cbn [state isEscape buffer path pathIndex] in Hst1, Hesc1, Hbuf1, Hpath1, Hidx1.
  subst st esc.
  destruct Hc as [-> | ->]; eexists; (split; [reflexivity|]);
    cbn [state isEscape buffer path pathIndex writeRune setEscape setIndex];
    rewrite Hbuf1, <- app_assoc; auto 6.
Qed.

End Escapes.

Lemma escape_stays_pending_witness :
  exists parser',
    @parseLoop arabicTables
      (mkParser nilPath (runes "a") 3 0 bracketedNameState true) 4
      (runes "b" ++ [chr "'"]) = Ok parser'
    /\ state parser' = bracketedNameState
    /\ isEscape parser' = false
    /\ buffer parser' = runes "a" ++ runes "b" ++ [chr "'"]
    /\ path parser' = nilPath
    /\ pathIndex parser' = 0.
Proof.
  apply (@escape_stays_pending arabicTables
           (mkParser nilPath (runes "a") 3 0 bracketedNameState true) 4
           (runes "b") (chr "'")).
  - reflexivity.
  - reflexivity.
  - repeat constructor; vm_compute; discriminate.
  - left. reflexivity.
Defined.
